(** * Heuristic scoring engine of the assignment AI-detector

    Shallow embedding of [server.js] (module [Server]) and of the
    client-side script, [script.js] in the README (module [Client]).

    Conventions of the embedding.
    - A JavaScript string is a [list ascii]; an [ascii] stands for the
      UTF-16 code unit of the same number, so the texts covered are those
      over U+0000..U+00FF.  On that range [toLowerCase], the class [\s],
      [trim], [\w], [\b] and [\d] are exactly the functions below.
    - A JavaScript number is a rational ([Q]) or, where the code only
      ever holds an integer, a [Z] or a [nat]; arithmetic is exact.
      [Math.sqrt] is a parameter of the functions that use it: no
      statement below depends on which root it returns.
    - [NaN] and the infinities are written out at the places where the
      code can produce them (empty arrays, 0/0). *)

From Stdlib Require Import Ascii String Bool Arith ZArith QArith Qround Lia Lqa
  List Sorted Permutation.
Import ListNotations.

Set Implicit Arguments.

Local Close Scope Q_scope.
Local Open Scope nat_scope.
Local Open Scope list_scope.

(* ================================================================== *)
(** * JavaScript strings *)
(* ================================================================== *)

Module JS.

Definition str := list ascii.

Definition lit (s : string) : str := list_ascii_of_string s.

Definition code (c : ascii) : nat := nat_of_ascii c.

Definition chr (n : nat) : ascii := ascii_of_nat n.

Definition str_eqb (a b : str) : bool :=
  if list_eq_dec ascii_dec a b then true else false.

(** Membership of a character in a set given by its members. *)
Definition oneOf (set : str) (c : ascii) : bool :=
  existsb (Ascii.eqb c) set.

Definition inRange (lo hi : nat) (c : ascii) : bool :=
  (lo <=? code c) && (code c <=? hi).

(** [\s] and the characters removed by [trim]: TAB, LF, VT, FF, CR,
    SPACE and NBSP (the members below U+0100). *)
Definition isSpace (c : ascii) : bool :=
  existsb (Nat.eqb (code c)) [9; 10; 11; 12; 13; 32; 160].

Definition isDigit (c : ascii) : bool := inRange 48 57 c.
Definition isUpper (c : ascii) : bool := inRange 65 90 c.
Definition isLower (c : ascii) : bool := inRange 97 122 c.

(** [\w] *)
Definition isWordChar (c : ascii) : bool :=
  isUpper c || isLower c || isDigit c || Nat.eqb (code c) 95.

(** [String.prototype.toLowerCase], one code unit at a time: A-Z and the
    Latin-1 capitals U+00C0..U+00DE (U+00D7 is the multiplication sign). *)
Definition toLowerChar (c : ascii) : ascii :=
  if isUpper c || (inRange 192 222 c && negb (Nat.eqb (code c) 215))
  then chr (code c + 32) else c.

Definition toLowerCase (s : str) : str := map toLowerChar s.

Fixpoint dropWhile (p : ascii -> bool) (s : str) : str :=
  match s with
  | [] => []
  | c :: r => if p c then dropWhile p r else s
  end.

Definition trimStart (s : str) : str := dropWhile isSpace s.
Definition trimEnd (s : str) : str := rev (dropWhile isSpace (rev s)).
Definition trim (s : str) : str := trimEnd (trimStart s).

(** [s.slice(a, b)] for [0 <= a] and [0 <= b]. *)
Definition slice (s : str) (a b : nat) : str := firstn (b - a) (skipn a s).

(** [s.split(sep)] for a one-character separator. *)
Fixpoint split (sep : ascii) (s : str) : list str :=
  match s with
  | [] => [[]]
  | c :: r =>
      if Ascii.eqb c sep then [] :: split sep r
      else match split sep r with
           | h :: t => (c :: h) :: t
           | [] => [[c]]
           end
  end.

(** [arr.join(sep)] *)
Fixpoint join (sep : str) (l : list str) : str :=
  match l with
  | [] => []
  | [w] => w
  | w :: r => w ++ sep ++ join sep r
  end.

(** Truthiness of a string, as used by [filter(Boolean)]. *)
Definition truthy (s : str) : bool :=
  match s with [] => false | _ => true end.

(** [s.includes(p)] *)
Fixpoint startsWith (p s : str) : bool :=
  match p, s with
  | [], _ => true
  | _ :: _, [] => false
  | a :: p', b :: s' => Ascii.eqb a b && startsWith p' s'
  end.

Fixpoint includes (s p : str) : bool :=
  startsWith p s ||
  match s with
  | [] => false
  | _ :: r => includes r p
  end.

(** [new Set(arr).size] *)
Fixpoint distinct (l : list str) : list str :=
  match l with
  | [] => []
  | w :: r => if existsb (str_eqb w) r then distinct r else w :: distinct r
  end.

Definition setSize (l : list str) : nat := length (distinct l).

(** Objects used as word counters ([freq]).  An entry is a count, or
    the string that [(freq[w] || 0) + 1] yields for the key
    [constructor], which every object inherits as a function. *)
Inductive entry : Type :=
| Count : nat -> entry
| Text : entry.

Definition freqObject := list (str * entry).

Fixpoint getOwn (freq : freqObject) (w : str) : option entry :=
  match freq with
  | [] => None
  | (k, v) :: r => if str_eqb k w then Some v else getOwn r w
  end.

Fixpoint setOwn (freq : freqObject) (w : str) (v : entry) : freqObject :=
  match freq with
  | [] => [(w, v)]
  | (k, v0) :: r =>
      if str_eqb k w then (k, v) :: r else (k, v0) :: setOwn r w v
  end.

Definition inherited (w : str) : bool := str_eqb w (lit "constructor").

(** [freq[w] = (freq[w] || 0) + 1] *)
Definition bump (freq : freqObject) (w : str) : freqObject :=
  setOwn freq w
    match getOwn freq w with
    | Some (Count n) => Count (n + 1)
    | Some Text => Text
    | None => if inherited w then Text else Count 1
    end.

Definition countWords (words : list str) : freqObject :=
  fold_left bump words [].

(** [v > n] and [v >= n] on an entry: a string that is no numeral
    compares false. *)
Definition entryGt (n : nat) (e : entry) : bool :=
  match e with Count c => n <? c | Text => false end.

Definition entryGe (n : nat) (e : entry) : bool :=
  match e with Count c => n <=? c | Text => false end.

End JS.

(* ================================================================== *)
(** * Regular expressions *)
(* ================================================================== *)

(** The fragment of JavaScript regular expressions used by the program,
    with the backtracking semantics of the language: alternatives are
    tried left to right, [*] and [+] are greedy, and an iteration of a
    star that consumes nothing is rejected. *)

Module Regex.
Import JS.

Inductive re : Type :=
| Eps : re
| Cls : (ascii -> bool) -> re          (* a character class *)
| Seq : re -> re -> re
| Alt : re -> re -> re
| Star : re -> re
| Bol : re                             (* ^ *)
| Wb : re                              (* \b *)
| Behind : (ascii -> bool) -> re.      (* (?<=[...]) *)

Definition Plus (r : re) : re := Seq r (Star r).

Definition Chr (c : ascii) : re := Cls (Ascii.eqb c).

(** A literal string. *)
Fixpoint Str (s : str) : re :=
  match s with
  | [] => Eps
  | c :: r => Seq (Chr c) (Str r)
  end.

(** A literal string under the [i] flag. *)
Definition ChrI (c : ascii) : re :=
  Cls (fun x => Ascii.eqb (toLowerChar x) (toLowerChar c)).

Fixpoint StrI (s : str) : re :=
  match s with
  | [] => Eps
  | c :: r => Seq (ChrI c) (StrI r)
  end.

Fixpoint Alts (l : list re) : re :=
  match l with
  | [] => Cls (fun _ => false)
  | [r] => r
  | r :: l' => Alt r (Alts l')
  end.

Definition wordAt (o : option ascii) : bool :=
  match o with Some c => isWordChar c | None => false end.

(** A matcher receives the left neighbour of the position, the input
    to its right and a continuation; the continuation returns the input
    left at the end of the whole match. *)
Definition cont : Type := option ascii -> str -> option str.
Definition matcher : Type := option ascii -> str -> cont -> option str.

(** Greedy iteration of [step], at most [n] times: one more iteration
    that consumes something, or else the continuation. *)
Fixpoint iterate (step : matcher) (k : cont) (n : nat)
    (prev : option ascii) (s : str) {struct n} : option str :=
  match n with
  | 0 => k prev s
  | S n' =>
      match step prev s
              (fun p' s' =>
                 if length s' <? length s then iterate step k n' p' s'
                 else None)
      with
      | Some x => Some x
      | None => k prev s
      end
  end.

(** [run r prev s k]: match [r] at the position whose left neighbour is
    [prev] and whose right context is [s]. *)
Fixpoint run (r : re) (prev : option ascii) (s : str) (k : cont)
    {struct r} : option str :=
  match r with
  | Eps => k prev s
  | Cls p =>
      match s with
      | c :: s' => if p c then k (Some c) s' else None
      | [] => None
      end
  | Seq a b => run a prev s (fun p' s' => run b p' s' k)
  | Alt a b =>
      match run a prev s k with
      | Some x => Some x
      | None => run b prev s k
      end
  | Star a => iterate (run a) k (length s) prev s
  | Bol => match prev with None => k prev s | Some _ => None end
  | Wb => if xorb (wordAt prev) (wordAt (hd_error s)) then k prev s else None
  | Behind p =>
      match prev with
      | Some c => if p c then k prev s else None
      | None => None
      end
  end.

(** The continuation that ends a match. *)
Definition done : cont := fun _ rest => Some rest.

(** The match of [r] that starts exactly here, if there is one. *)
Definition matchAt (r : re) (prev : option ascii) (s : str) : option str :=
  match run r prev s done with
  | Some rest => Some (firstn (length s - length rest) s)
  | None => None
  end.

(** The leftmost match at or after the position [pos], with its
    index. *)
Fixpoint search (r : re) (prev : option ascii) (s : str) (pos : nat)
    : option (nat * str) :=
  match matchAt r prev s with
  | Some m => Some (pos, m)
  | None =>
      match s with
      | [] => None
      | c :: s' => search r (Some c) s' (S pos)
      end
  end.

(** [r.exec(text)] for a regular expression with the [g] flag whose
    [lastIndex] is [lastIndex]: the index of the match and the match. *)
Definition execAt (r : re) (text : str) (lastIndex : nat)
    : option (nat * str) :=
  search r
    (if lastIndex =? 0 then None else nth_error text (lastIndex - 1))
    (skipn lastIndex text) lastIndex.

(** Successive matches from left to right ([g] flag): [skip] characters
    still belong to the previous match; after an empty match the search
    resumes one character further. *)
Fixpoint scan (r : re) (prev : option ascii) (s : str) (skip : nat)
    : list str :=
  match s with
  | [] =>
      match skip with
      | 0 => match matchAt r prev [] with Some m => [m] | None => [] end
      | S _ => []
      end
  | c :: s' =>
      match skip with
      | S n => scan r (Some c) s' n
      | 0 =>
          match matchAt r prev s with
          | Some m => m :: scan r (Some c) s' (pred (length m))
          | None => scan r (Some c) s' 0
          end
      end
  end.

(** [(s.match(/r/g) || [])] *)
Definition matchAll (r : re) (s : str) : list str := scan r None s 0.

(** [s.match(/r/g)]: [null] when nothing matches. *)
Definition matchG (r : re) (s : str) : option (list str) :=
  match matchAll r s with
  | [] => None
  | l => Some l
  end.

(** [/r/.test(s)] *)
Definition test (r : re) (s : str) : bool :=
  match matchAll r s with [] => false | _ => true end.

(** [s.split(/r/)] for an [r] that matches no empty string. *)
Fixpoint splitScan (r : re) (prev : option ascii) (s : str) (skip : nat)
    (cur : str) : list str :=
  match s with
  | [] => [rev cur]
  | c :: s' =>
      match skip with
      | S n => splitScan r (Some c) s' n cur
      | 0 =>
          match matchAt r prev s with
          | Some (_ :: m) => rev cur :: splitScan r (Some c) s' (length m) []
          | _ => splitScan r (Some c) s' 0 (c :: cur)
          end
      end
  end.

Definition splitRe (r : re) (s : str) : list str := splitScan r None s 0 [].

(** [s.replace(/r/g, by)] for an [r] that matches no empty string. *)
Definition replaceAll (r : re) (by_ : str) (s : str) : str :=
  join by_ (splitRe r s).

(** [s.replace(/r/g, f)] with a replacement function [f], for an [r]
    that matches no empty string. *)
Fixpoint replaceScan (r : re) (f : str -> str) (prev : option ascii)
    (s : str) (skip : nat) : str :=
  match s with
  | [] => []
  | c :: s' =>
      match skip with
      | S n => replaceScan r f (Some c) s' n
      | 0 =>
          match matchAt r prev s with
          | Some (x :: m) =>
              f (x :: m) ++ replaceScan r f (Some c) s' (length m)
          | _ => c :: replaceScan r f (Some c) s' 0
          end
      end
  end.

Definition replaceWith (r : re) (f : str -> str) (s : str) : str :=
  replaceScan r f None s 0.

End Regex.

(* ================================================================== *)
(** * Numbers *)
(* ================================================================== *)

Module Num.

Definition Qltb (a b : Q) : bool := negb (Qle_bool b a).

Definition ofNat (n : nat) : Q := inject_Z (Z.of_nat n).

(** [Math.round]: the nearest integer, halves upwards. *)
Definition Math_round (q : Q) : Z := Qfloor (q + (1 # 2)).

Definition sumNat (l : list nat) : nat := fold_left Nat.add l 0.

Definition sumQ (l : list Q) : Q := fold_left Qplus l (0 : Q).

Definition Qmin (a b : Q) : Q := if Qle_bool a b then a else b.
Definition Qmax (a b : Q) : Q := if Qle_bool a b then b else a.

End Num.

(* ================================================================== *)
(** * server.js *)
(* ================================================================== *)

Module Server.
Import JS Regex Num.

(** The character class of line 22; its last member here, U+0022, is
    the double quote. *)
Definition punctuation : str :=
  lit ".,\/#!$%^&*;:{}=-_`~()[]'<>?@+" ++ [chr 34].

(** server.js, lines 19-27: the class of line 22 and [/\s+/g]. *)
Definition normalizeToWords (text : str) : list str :=
  filter truthy
    (split " "
       (trim
          (replaceAll (Plus (Cls isSpace)) (lit " ")
             (replaceAll (Cls (oneOf punctuation)) []
                (toLowerCase text))))).

(** server.js, lines 29-31. *)
Definition mean (arr : list nat) : Q :=
  match arr with
  | [] => 0%Q
  | _ => (ofNat (sumNat arr) / ofNat (length arr))%Q
  end.

Definition phrases : list str :=
  map lit
    [ "in conclusion"; "overall"; "furthermore"; "moreover";
      "it is important to note"; "this highlights that";
      "on the other hand"; "as a result"; "in summary";
      "this demonstrates"; "it can be observed"; "in addition" ]%string.

(** [/,,|!!|\?\?| {2,}/g] *)
Definition errorRegex : re :=
  Alts [ Str (lit ",,"); Str (lit "!!"); Str (lit "??");
         Seq (Chr " ") (Plus (Chr " ")) ].

Section Scoring.

(** [Math.sqrt], and the contents of [reference.txt] read at start-up
    (the empty string when the file is missing). *)
Variable Math_sqrt : Q -> Q.
Variable referenceText : str.

(** server.js, lines 33-37. *)
Definition stddev (arr : list nat) : Q :=
  if length arr <=? 1 then 0%Q
  else
    let m := mean arr in
    Math_sqrt
      (sumQ (map (fun x => (ofNat x - m) * (ofNat x - m))%Q arr)
       / ofNat (length arr - 1))%Q.

(** Line 56. *)
Definition sentenceLengths (sentences : list str) : list nat :=
  filter (fun n => 0 <? n)
    (map (fun s => length (normalizeToWords s)) sentences).

(** Line 62. *)
Definition consistencyPoints (lengths : list nat) : Q :=
  let avgLen := mean lengths in
  let sdLen := stddev lengths in
  if Qle_bool 12 avgLen && Qle_bool avgLen 20 && Qltb sdLen 6
  then 20%Q else 0%Q.

(** Line 63: [Math.max(...lengths) - Math.min(...lengths)]; [None] is
    the value [-Infinity] obtained for an empty array. *)
Definition variation (lengths : list nat) : option Z :=
  match lengths with
  | [] => None
  | x :: r =>
      Some (Z.of_nat (fold_left Nat.max r x)
            - Z.of_nat (fold_left Nat.min r x))%Z
  end.

(** Line 64. *)
Definition variationPoints (lengths : list nat) : Q :=
  match variation lengths with
  | None => 15%Q
  | Some v => if (v <? 8)%Z then 15%Q else 0%Q
  end.

(** Lines 65-66. *)
Definition uniqueRatio (words : list str) : Q :=
  (ofNat (setSize words) / ofNat (length words))%Q.

Definition uniquePoints (words : list str) : Q :=
  if Qltb (uniqueRatio words) (6 # 10) then 15%Q else 0%Q.

(** Lines 68-70; 0/0 is [NaN], which is not below 0.5. *)
Definition starters (sentences : list str) : list str :=
  map (fun s => toLowerCase (hd [] (split " " s))) sentences.

Definition starterRatio (sentences : list str) : Q :=
  (ofNat (setSize (starters sentences))
   / ofNat (length (starters sentences)))%Q.

Definition starterPoints (sentences : list str) : Q :=
  match starters sentences with
  | [] => 0%Q
  | _ => if Qltb (starterRatio sentences) (1 # 2) then 10%Q else 0%Q
  end.

(** Lines 78-80. *)
Definition phraseHits (text : str) : nat :=
  let lower := toLowerCase text in
  length (filter (fun p => includes lower p) phrases).

Definition phrasePoints (text : str) : Q :=
  inject_Z (Z.min (Z.of_nat (phraseHits text) * 6) 20).

(** Lines 82-83. *)
Definition errors (text : str) : nat := length (matchAll errorRegex text).

Definition errorPoints (text : str) : Q :=
  if errors text =? 0 then 10%Q else 0%Q.

(** Lines 85-88. *)
Definition repeated (words : list str) : nat :=
  length (filter (fun kv => entryGt 4 (snd kv)) (countWords words)).

Definition repeatedPoints (words : list str) : Q :=
  if Qltb (ofNat (length words) * (5 # 100))%Q (ofNat (repeated words))
  then 10%Q else 0%Q.

(** Lines 90-95. *)
Definition refRatio (words : list str) : Q :=
  let refWords := normalizeToWords referenceText in
  let matches := filter (fun w => existsb (str_eqb w) refWords) words in
  (ofNat (length matches) / ofNat (length words))%Q.

Definition referencePoints (words : list str) : Q :=
  if truthy referenceText
  then if Qltb (5 # 100) (refRatio words) then (refRatio words * 30)%Q else 0%Q
  else 0%Q.

(** Line 97. *)
Definition longPoints (sentences : list str) : Q :=
  let sentenceCount := length sentences in
  let avgLen := mean (sentenceLengths sentences) in
  if (8 <? sentenceCount) && Qltb 14 avgLen then 5%Q else 0%Q.

(** The value of [score] at line 99. *)
Definition score (text : str) (sentences words : list str) : Q :=
  let lengths := sentenceLengths sentences in
  (consistencyPoints lengths + variationPoints lengths + uniquePoints words
   + starterPoints sentences + phrasePoints text + errorPoints text
   + repeatedPoints words + referencePoints words + longPoints sentences)%Q.

(** server.js, lines 50-100. *)
Definition computeAiLikelihood (text : str) (sentences words : list str) : Z :=
  match words with
  | [] => 0%Z
  | _ => Z.min (Math_round (score text sentences words)) 100
  end.

End Scoring.

(** server.js, lines 102-106. *)
Definition labelAiScore (pct : Z) : str :=
  if (pct <? 35)%Z then lit "Human-written"
  else if (pct <? 70)%Z then lit "Mixed (AI + Human)"
  else lit "Likely AI-generated".

Record Sentence : Type := mkSentence
  { s_text : str; s_start : nat; s_end : nat }.

(** The class [[.!?]]. *)
Definition isTerminator (c : ascii) : bool := oneOf (lit ".!?") c.

(** [/[.!?]+/g] *)
Definition sentenceEndRegex : re := Plus (Cls isTerminator).

(** The [while] loop of lines 117-124: the array [sentences] and the
    variable [lastIndex] when it exits; [None] when [fuel] iterations do
    not reach the exit. *)
Fixpoint splitLoop (fuel : nat) (text : str) (lastIndex : nat)
    (sentences : list Sentence) : option (list Sentence * nat) :=
  match fuel with
  | 0 => None
  | S fuel' =>
      match execAt sentenceEndRegex text lastIndex with
      | None => Some (sentences, lastIndex)
      | Some (index, match0) =>
          let endIndex := index + length match0 in
          let sentence := trim (slice text lastIndex endIndex) in
          splitLoop fuel' text endIndex
            (if truthy sentence
             then sentences ++ [mkSentence sentence lastIndex endIndex]
             else sentences)
      end
  end.

(** server.js, lines 111-133. *)
Definition splitSentencesWithPosition (text : str) : option (list Sentence) :=
  match splitLoop (S (length text)) text 0 [] with
  | None => None
  | Some (sentences, lastIndex) =>
      Some
        (if lastIndex <? length text
         then
           let remaining := trim (skipn lastIndex text) in
           if truthy remaining
           then sentences ++ [mkSentence remaining lastIndex (length text)]
           else sentences
         else sentences)
  end.

Record Highlight : Type := mkHighlight
  { h_sentence : Sentence; h_score : Z; h_label : str }.

Record Response : Type := mkResponse
  { wordCount : nat;
    sentenceCount : nat;
    aiLikelihood : Z;
    aiLabel : str;
    preview : str;
    highlights : list Highlight }.

Section Analysis.

Variable Math_sqrt : Q -> Q.
Variable referenceText : str.

(** server.js, lines 135-146. *)
Definition analyzeSentences (text : str) : option (list Highlight) :=
  match splitSentencesWithPosition text with
  | None => None
  | Some rawSentences =>
      Some
        (map
           (fun s =>
              let words := normalizeToWords (s_text s) in
              let score :=
                computeAiLikelihood Math_sqrt referenceText
                  (s_text s) [s_text s] words in
              mkHighlight s score (labelAiScore score))
           rawSentences)
  end.

(** The body of the [/analyze] handler, lines 189-201, for the text
    [text] obtained from the request. *)
Definition analyze (text : str) : option Response :=
  let words := normalizeToWords text in
  match splitSentencesWithPosition text with
  | None => None
  | Some sentences =>
      let aiScore :=
        computeAiLikelihood Math_sqrt referenceText
          text (map s_text sentences) words in
      match analyzeSentences text with
      | None => None
      | Some highlights =>
          Some
            (mkResponse (length words) (length highlights) aiScore
               (labelAiScore aiScore) (slice text 0 300) highlights)
      end
  end.

End Analysis.

End Server.

(* ================================================================== *)
(** * script.js (client side) *)
(* ================================================================== *)

Module Client.
Import JS Regex Num.

(** The character class of line 8: the one of the server without the
    backslash. *)
Definition punctuation : str :=
  lit ".,/#!$%^&*;:{}=-_`~()[]'<>?@+" ++ [chr 34].

(** script.js, lines 5-13. *)
Definition normalizeToWords (text : str) : list str :=
  let cleaned :=
    trim
      (replaceAll (Plus (Cls isSpace)) (lit " ")
         (replaceAll (Cls (oneOf punctuation)) [] (toLowerCase text))) in
  if truthy cleaned then filter truthy (split " " cleaned) else [].

Definition isTerminator (c : ascii) : bool := oneOf (lit ".!?") c.

Definition LF : ascii := chr 10.

(** script.js, lines 15-18: [/\n+/g] and [/(?<=[.!?])\s+/]. *)
Definition splitToSentences (text : str) : list str :=
  let parts :=
    splitRe (Seq (Behind isTerminator) (Plus (Cls isSpace)))
      (replaceAll (Plus (Chr LF)) (lit " ") text) in
  filter truthy (map trim parts).

(** script.js, lines 20-26. *)
Definition common (inputWords referenceWords : list str) : nat :=
  length (filter (fun w => existsb (str_eqb w) referenceWords) inputWords).

Definition computeSimilarityPercentage (inputWords referenceWords : list str)
    : Q :=
  match inputWords with
  | [] => 0%Q
  | _ =>
      (ofNat (common inputWords referenceWords) / ofNat (length inputWords)
       * 100)%Q
  end.

(** Line 28. *)
Definition mean (values : list nat) : Q :=
  match values with
  | [] => 0%Q
  | _ => (ofNat (sumNat values) / ofNat (length values))%Q
  end.

(** [\bword\b] with the [g] flag, as built at lines 42, 66, 193 and 294;
    the escaping of lines 42 and 66 changes none of the words used. *)
Definition wordRegex (w : str) : re := Seq Wb (Seq (Str w) Wb).

Definition countWord (lowered : str) (w : str) : nat :=
  length (matchAll (wordRegex w) lowered).

Definition countAll (lowered : str) (ws : list str) : nat :=
  sumNat (map (countWord lowered) ws).

Definition formalWords : list str :=
  map lit
    [ "moreover"; "furthermore"; "therefore"; "however"; "hence"; "thus";
      "consequently"; "in conclusion"; "whereas"; "additionally" ]%string.

(** [/[!?\.]/g] *)
Definition endMarks (text : str) : nat :=
  length (matchAll (Cls (oneOf (lit "!?."))) text).

(** [Math.max(0, Math.min(1, x))] *)
Definition clamp01 (x : Q) : Q := Qmax 0 (Qmin 1 x).

Section Scoring.

Variable Math_sqrt : Q -> Q.

(** Line 29. *)
Definition stddev (values : list nat) : Q :=
  if length values <=? 1 then 0%Q
  else
    let m := mean values in
    let variance :=
      (sumQ (map (fun x => (ofNat x - m) * (ofNat x - m))%Q values)
       / ofNat (length values - 1))%Q in
    Math_sqrt variance.

(** script.js, lines 31-56. *)
Definition aiScore (text : str) (sentences words : list str) : Q :=
  let sentenceLengths :=
    filter (fun n => 0 <? n)
      (map (fun s => length (normalizeToWords s)) sentences) in
  let avg := mean sentenceLengths in
  let sd := stddev sentenceLengths in
  let consistency :=
    if Qltb 0 avg then (1 - Qmin 1 (sd / (avg + 1)))%Q else 0%Q in
  let lowered := toLowerCase text in
  let formalCount := countAll lowered formalWords in
  let formalScore :=
    Qmin 1
      (ofNat formalCount
       / Qmax 1 (ofNat (length sentenceLengths) * (3 # 10)))%Q in
  let uniqueCount := setSize words in
  let vocabRatio :=
    (ofNat uniqueCount / Qmax 1 (ofNat (length words)))%Q in
  let repetitionScore := Qmin 1 ((1 - vocabRatio) * (15 # 10))%Q in
  let punctuationScore :=
    (ofNat (endMarks text)
     / Qmax 1 (ofNat (length (split " " text))))%Q in
  (consistency * (45 # 100) + formalScore * (3 # 10)
   + repetitionScore * (2 # 10) + punctuationScore * (5 # 100))%Q.

Definition computeAiLikelihood (text : str) (sentences words : list str) : Z :=
  match words with
  | [] => 0%Z
  | _ => Math_round (clamp01 (aiScore text sentences words) * 100)%Q
  end.

End Scoring.

(** [Math.ceil(a / b)] for naturals, [b > 0]. *)
Definition ceilDiv (a b : nat) : nat := (a + b - 1) / b.

(** script.js, lines 59-79; the second argument [docWords] is not used. *)
Definition computeSentenceAiScore (sentence : str) (docWords : list str) : Z :=
  let text := trim sentence in
  let words := normalizeToWords text in
  match words with
  | [] => 0%Z
  | _ =>
      let lowered := toLowerCase text in
      let formalCount := countAll lowered formalWords in
      let formalScore := Qmin 1 (ofNat formalCount / 2)%Q in
      let uniqueCount := setSize words in
      let vocabRatio :=
        (ofNat uniqueCount / Qmax 1 (ofNat (length words)))%Q in
      let repetitionScore := Qmin 1 ((1 - vocabRatio) * (18 # 10))%Q in
      let punctuationCount := endMarks text in
      let punctuationScore :=
        (1 - Qmin 1 (ofNat punctuationCount
                     / Qmax 1 (ofNat (ceilDiv (length words) 8))))%Q in
      let score :=
        (formalScore * (35 # 100) + repetitionScore * (35 # 100)
         + punctuationScore * (3 # 10))%Q in
      Math_round (clamp01 score * 100)%Q
  end.

(** script.js, line 81. *)
Definition labelAiScore (pct : Z) : str :=
  if (pct <=? 30)%Z then lit "Human-written"
  else if (pct <=? 60)%Z then lit "Mixed"
  else lit "Likely AI-generated".

(** The object [fileData] built at lines 799-806.  [sentenceCount] and
    [charCount] are read by the scoring functions but are not among the
    properties set there: [None] stands for [undefined]. *)
Record FileData : Type := mkFileData
  { text : str;
    sentencesWithDelimiters : list str;
    sentenceScores : list Z;
    highlightedPercent : Z;
    topRepeatedWords : str;
    wordCount : nat;
    sentenceCount : option nat;
    charCount : option nat }.

(** [x || d] for a property holding a number or [undefined]. *)
Definition orElse (x : option nat) (d : nat) : nat :=
  match x with
  | Some 0 => d
  | Some n => n
  | None => d
  end.

(** [text.split(/\n\n+/).filter(p => p.trim().length > 0)] *)
Definition paragraphs (text : str) : list str :=
  filter (fun p => 0 <? length (trim p))
    (splitRe (Seq (Chr LF) (Plus (Chr LF))) text).

(** [arr.reduce((sum, x) => sum + Math.pow(x - avg, 2), 0)] *)
Definition sumSquares (arr : list Q) (avg : Q) : Q :=
  sumQ (map (fun x => (x - avg) * (x - avg))%Q arr).

Definition languageFormalWords : list str :=
  map lit
    [ "moreover"; "furthermore"; "therefore"; "however"; "thus";
      "consequently"; "additionally"; "nevertheless"; "indeed";
      "meanwhile" ]%string.

Definition transitionWords : list str :=
  map lit
    [ "moreover"; "however"; "therefore"; "meanwhile"; "furthermore";
      "additionally"; "however"; "thus"; "hence"; "consequently";
      "nevertheless" ]%string.

(** [parseInt(digits, 10)] on a string of decimal digits. *)
Definition parseInt (digits : str) : nat :=
  fold_left (fun n c => 10 * n + (code c - 48)) digits 0.

(** [match.slice(1, -1)] *)
Definition sliceInner (s : str) : str := removelast (tl s).

(** [/\((\d+)\)/g], lines 238-242 and 340-344. *)
Definition totalRepetition (topRepeatedWords : str) : nat :=
  let matches :=
    matchAll (Seq (Chr "(") (Seq (Plus (Cls isDigit)) (Chr ")")))
      topRepeatedWords in
  sumNat (map (fun m => parseInt (sliceInner m)) matches).

(** [lengths[i - k]]: [undefined] outside the array. *)
Definition at_ (lengths : list nat) (i k : nat) : option nat :=
  if i <? k then None else nth_error lengths (i - k).

(** [a > b] where an [undefined] operand makes the comparison false. *)
Definition gt (a b : option nat) : bool :=
  match a, b with
  | Some x, Some y => y <? x
  | _, _ => false
  end.

(** The loop of lines 307-312. *)
Definition patternChanges (lengths : list nat) : nat :=
  length
    (filter
       (fun i =>
          (gt (at_ lengths i 0) (at_ lengths i 1)
           && gt (at_ lengths i 1) (at_ lengths i 2))
          || (gt (at_ lengths i 1) (at_ lengths i 0)
              && gt (at_ lengths i 2) (at_ lengths i 1)))
       (seq 1 (length lengths - 1))).

Section ContentScore.

Variable Math_sqrt : Q -> Q.

(** script.js, lines 128-150.  With no sentence the variance is 0/0,
    that is [NaN], and both comparisons of line 147 are false. *)
Definition computeStructureScore (fileData : FileData) : Q :=
  let sentences := sentencesWithDelimiters fileData in
  let paragraphCount := Nat.max 1 (length (paragraphs (text fileData))) in
  let avgSentencesPerPara :=
    (ofNat (length sentences) / ofNat paragraphCount)%Q in
  let paraStructureScore :=
    if Qle_bool 2 avgSentencesPerPara && Qle_bool avgSentencesPerPara 6
    then 80%Q
    else if Qltb 0 avgSentencesPerPara then 50%Q else 20%Q in
  let sentenceLengths :=
    map (fun s => length (normalizeToWords s)) sentences in
  let varietyScore :=
    match sentenceLengths with
    | [] => 40%Q
    | _ =>
        let n := ofNat (length sentenceLengths) in
        let avgLen := (ofNat (sumNat sentenceLengths) / n)%Q in
        let variance := (sumSquares (map ofNat sentenceLengths) avgLen / n)%Q in
        let stdDev := Math_sqrt variance in
        if Qltb 3 stdDev then 90%Q
        else if Qltb (15 # 10) stdDev then 70%Q else 40%Q
    end in
  (paraStructureScore * (4 # 10) + varietyScore * (6 # 10))%Q.

(** script.js, lines 152-175. *)
Definition computeClarityScore (fileData : FileData) : Q :=
  let sentences := sentencesWithDelimiters fileData in
  let sentenceScores := sentenceScores fileData in
  let words := normalizeToWords (text fileData) in
  let avgWordPerSentence :=
    if 0 <? length sentences
    then (ofNat (length words) / ofNat (length sentences))%Q else 0%Q in
  let lengthScore :=
    if Qltb 8 avgWordPerSentence && Qltb avgWordPerSentence 30 then 80%Q
    else if Qltb 5 avgWordPerSentence then 60%Q else 30%Q in
  if 1 <? length sentenceScores
  then
    let n := ofNat (length sentenceScores) in
    let scoresAvg := (sumQ (map inject_Z sentenceScores) / n)%Q in
    let scoresVariance :=
      (sumSquares (map inject_Z sentenceScores) scoresAvg / n)%Q in
    let scoresStdDev := Math_sqrt scoresVariance in
    let coherenceScore :=
      if Qltb scoresStdDev 20 then 85%Q
      else if Qltb scoresStdDev 40 then 70%Q else 50%Q in
    (lengthScore * (4 # 10) + coherenceScore * (6 # 10))%Q
  else lengthScore.

(** script.js, lines 177-205; the class of line 201 is [[!?;:-]] and
    U+2014. *)
Definition computeLanguageQuality (fileData : FileData) : Q :=
  let text := text fileData in
  let words := normalizeToWords text in
  let uniqueWords := setSize words in
  let vocabDiversity :=
    (ofNat uniqueWords / ofNat (Nat.max 1 (length words)) * 100)%Q in
  let diversityScore :=
    if Qltb 35 vocabDiversity && Qltb vocabDiversity 75 then 90%Q
    else if Qltb 20 vocabDiversity then 70%Q else 40%Q in
  let lowered := toLowerCase text in
  let formalCount := countAll lowered languageFormalWords in
  let formalScore :=
    Qmin 100
      (ofNat formalCount
       / ofNat (Nat.max 1 (orElse (sentenceCount fileData) 1))
       * 30 * 100 / 30)%Q in
  let punctuation := length (matchAll (Cls (oneOf (lit "!?;:-"))) text) in
  let punctScore :=
    Qmin 100
      (ofNat punctuation / ofNat (Nat.max 1 (length words)) * 300)%Q in
  (diversityScore * (4 # 10) + formalScore * (3 # 10)
   + punctScore * (3 # 10))%Q.

(** script.js, lines 207-230. *)
Definition computeContentDepth (fileData : FileData) : Q :=
  let words := wordCount fileData in
  let sentences := orElse (sentenceCount fileData) 0 in
  let charCount := orElse (charCount fileData) 0 in
  let lengthScore :=
    if words <? 50 then 20%Q
    else if words <? 150 then 40%Q
    else if words <? 300 then 60%Q
    else if words <? 1000 then 80%Q
    else 95%Q in
  let avgCharPerWord :=
    if 0 <? words then (ofNat charCount / ofNat words)%Q else 0%Q in
  let densityScore :=
    if Qltb (35 # 10) avgCharPerWord && Qltb avgCharPerWord 7 then 85%Q
    else if Qltb 3 avgCharPerWord then 70%Q else 50%Q in
  let sentenceDepth :=
    Qmin 100
      (ofNat sentences / ofNat (Nat.max 1 words) * 20 * 100)%Q in
  (lengthScore * (5 # 10) + densityScore * (3 # 10)
   + sentenceDepth * (2 # 10))%Q.

(** script.js, lines 232-256. *)
Definition computeOriginality (fileData : FileData) : Q :=
  let words := normalizeToWords (text fileData) in
  let totalRepetition := totalRepetition (topRepeatedWords fileData) in
  let repetitionRate :=
    (ofNat totalRepetition / ofNat (Nat.max 1 (length words)) * 100)%Q in
  let repetitionScore := Qmax 20 (100 - repetitionRate * 2)%Q in
  let uniqueCount := setSize words in
  let uniqueRatio :=
    (ofNat uniqueCount / ofNat (Nat.max 1 (length words)) * 100)%Q in
  let uniquenessScore :=
    if Qltb 40 uniqueRatio then 90%Q
    else if Qltb 25 uniqueRatio then 70%Q else 40%Q in
  (repetitionScore * (5 # 10) + uniquenessScore * (5 # 10))%Q.

(** script.js, lines 258-283: [/[^.!?]+[.!?]/g], [/\b[A-Z][a-z]+\b/g],
    [/\d+/g] and [/\?/g]. *)
Definition computeRelevance (fileData : FileData) : Q :=
  let text := text fileData in
  let sentences :=
    matchAll
      (Seq (Plus (Cls (fun c => negb (isTerminator c)))) (Cls isTerminator))
      text in
  let properNouns :=
    sumNat
      (map
         (fun s =>
            let sentenceWords :=
              matchAll
                (Seq Wb (Seq (Cls isUpper) (Seq (Plus (Cls isLower)) Wb)))
                (trim s) in
            length sentenceWords - 1)
         sentences) in
  let properNounScore := Nat.min 90 (Nat.max 40 (properNouns * 3)) in
  let numbers := length (matchAll (Plus (Cls isDigit)) text) in
  let numberScore := Nat.min 85 (numbers * 2) in
  let questions := length (matchAll (Chr "?") text) in
  let questionScore := if 0 <? questions then 70 else 50 in
  (ofNat properNounScore * (4 # 10) + ofNat numberScore * (3 # 10)
   + ofNat questionScore * (3 # 10))%Q.

(** script.js, lines 285-324. *)
Definition computeConsistency (fileData : FileData) : Q :=
  let sentences := sentencesWithDelimiters fileData in
  let text := text fileData in
  let lowered := toLowerCase text in
  let transitionCount := countAll lowered transitionWords in
  let transitionScore :=
    if 0 <? transitionCount
    then Nat.min 90 (50 + transitionCount * 10) else 50 in
  let flowScore :=
    if 3 <? length sentences
    then
      let lengths := map (fun s => length (normalizeToWords s)) sentences in
      Nat.min 95 (50 + patternChanges lengths * 8)
    else 50 in
  let paragraphs := paragraphs text in
  let coherenceScore :=
    if 1 <? length paragraphs
    then Nat.min 90 (60 + length paragraphs * 3) else 50 in
  (ofNat transitionScore * (4 # 10) + ofNat flowScore * (3 # 10)
   + ofNat coherenceScore * (3 # 10))%Q.

(** The value of [finalScore], lines 115-123. *)
Definition finalScore (fileData : FileData) : Q :=
  (computeStructureScore fileData * (20 # 100)
   + computeClarityScore fileData * (20 # 100)
   + computeLanguageQuality fileData * (15 # 100)
   + computeContentDepth fileData * (15 # 100)
   + computeOriginality fileData * (10 # 100)
   + computeRelevance fileData * (10 # 100)
   + computeConsistency fileData * (10 # 100))%Q.

(** script.js, lines 84-126. *)
Definition computeAiContentScore (fileData : FileData) : Z :=
  match normalizeToWords (text fileData) with
  | [] => 0%Z
  | _ => Math_round (Qmax 0 (Qmin 100 (finalScore fileData)))
  end.

End ContentScore.

(** ** Subject detection *)

Definition BS : ascii := chr 8.
Definition CR : ascii := chr 13.
Definition backslash : ascii := chr 92.

(** The value of a single-quoted string literal whose source text is
    [s]: a backslash followed by [b], [t], [n], [v], [f] or [r] denotes
    a control character, followed by another character it denotes that
    character.  (The literals of the program use no other escape.) *)
Fixpoint jsString (s : str) : str :=
  match s with
  | [] => []
  | c :: r =>
      if Ascii.eqb c backslash
      then
        match r with
        | [] => []
        | e :: r' =>
            (if Ascii.eqb e "b" then BS
             else if Ascii.eqb e "t" then chr 9
             else if Ascii.eqb e "n" then chr 10
             else if Ascii.eqb e "v" then chr 11
             else if Ascii.eqb e "f" then chr 12
             else if Ascii.eqb e "r" then CR
             else e) :: jsString r'
        end
      else c :: jsString r
  end.

(** [.]: any character but a line terminator. *)
Definition anyChar : re :=
  Cls (fun c => negb (Ascii.eqb c LF || Ascii.eqb c CR)).

(** What a backslash followed by [e] denotes inside a pattern. *)
Definition escapeAtom (e : ascii) : re :=
  if Ascii.eqb e "b" then Wb
  else if Ascii.eqb e "s" then Cls isSpace
  else if Ascii.eqb e "d" then Cls isDigit
  else if Ascii.eqb e "w" then Cls isWordChar
  else Chr e.

(** [new RegExp(p, 'g')] for the patterns the program builds: literal
    characters, [.], escapes and the postfix [+].  [None] is the
    [SyntaxError] of a misplaced [+]; the other metacharacters occur in
    no pattern of the program and are not parsed. *)
Fixpoint compile (p : str) : option re :=
  match p with
  | [] => Some Eps
  | c :: r =>
      if oneOf (lit "+*?()[]{}|^$") c then None
      else if Ascii.eqb c backslash
      then
        match r with
        | [] => None
        | e :: r' =>
            match r' with
            | q :: r'' =>
                if Ascii.eqb q "+"
                then option_map (Seq (Plus (escapeAtom e))) (compile r'')
                else option_map (Seq (escapeAtom e)) (compile r')
            | [] => option_map (Seq (escapeAtom e)) (compile r')
            end
        end
      else
        let atom := if Ascii.eqb c "." then anyChar else Chr c in
        match r with
        | q :: r' =>
            if Ascii.eqb q "+"
            then option_map (Seq (Plus atom)) (compile r')
            else option_map (Seq atom) (compile r)
        | [] => option_map (Seq atom) (compile r)
        end
  end.

(** The object [map] of lines 375-387, each pattern as it is written
    between the quotes in the source. *)
Definition subjectMap : list (str * list str) :=
  map (fun kv => (lit (fst kv), map (fun p => jsString (lit p)) (snd kv)))
    [ ("Programming",
       [ "\bfunction\b"; "\bdef\b"; "\bclass\b"; "\bconsole\.log\b";
         "\bSystem\.out\b"; "#include"; "\bimport\b"; "\bpublic\b";
         "\bprivate\b"; "\bvar\b"; "\blet\b"; "\bconst\b" ]);
      ("Data Structures",
       [ "\bstack\b"; "\bqueue\b"; "\blinked list\b"; "\bbinary tree\b";
         "\bhash table\b"; "\bgraph\b"; "\bdfs\b"; "\bbfs\b" ]);
      ("Algorithms",
       [ "\bsort\b"; "\bsearch\b"; "\bdynamic programming\b"; "\bgreedy\b";
         "\bbinary search\b"; "\bmerge sort\b"; "\bquick sort\b" ]);
      ("Databases",
       [ "\bselect\b"; "\binsert\b"; "\bupdate\b"; "\bdelete\b"; "\bfrom\b";
         "\bwhere\b"; "\bjoin\b"; "\bsql\b"; "\bnosql\b" ]);
      ("Operating Systems",
       [ "\bprocess\b"; "\bthread\b"; "\bscheduler\b"; "\bkernel\b";
         "\bmutex\b"; "\bdeadlock\b" ]);
      ("Networks",
       [ "\bprotocol\b"; "\btcp\b"; "\budp\b"; "\bip\b"; "\brouting\b";
         "\blayer\b" ]);
      ("Software Engineering",
       [ "\buml\b"; "\brequirements\b"; "\btesting\b"; "\bversion control\b";
         "\bagile\b"; "\bwaterfall\b" ]);
      ("Web Development",
       [ "<html"; "<body"; "<script"; "css"; "\bhttp\b"; "\bhtml\b";
         "\bcss\b"; "\bjavascript\b" ]);
      ("AI/ML",
       [ "\bmachine learning\b"; "\bneural network\b"; "\bdeep learning\b";
         "\bclassification\b"; "\bregression\b"; "\bsvm\b";
         "\bpython\b\s+import\s+tensorflow" ]);
      ("Cybersecurity",
       [ "\bencryption\b"; "\bssl\b"; "\btls\b"; "\battack\b";
         "\bvulnerability\b"; "\bcrypt\b" ]);
      ("Computer Architecture",
       [ "\bcache\b"; "\binstruction\b"; "\bpipeline\b"; "\bregister\b";
         "\balu\b" ]) ]%string.

(** Line 393: the matches of one pattern; a pattern that does not
    compile raises, is caught and adds nothing. *)
Definition patternHits (lowered : str) (p : str) : nat :=
  match compile p with
  | Some re => length (matchAll re lowered)
  | None => 0
  end.

Definition subjectCount (lowered : str) (patterns : list str) : nat :=
  sumNat (map (patternHits lowered) patterns).

(** [arr.sort(cmp)]: a stable sort, [x] stays before [y] when
    [cmp x y <= 0]. *)
Section Sort.
Variable A : Type.
Variable cmp : A -> A -> Z.

Fixpoint insertBy (x : A) (l : list A) : list A :=
  match l with
  | [] => [x]
  | y :: r => if (cmp x y <=? 0)%Z then x :: l else y :: insertBy x r
  end.

Definition sortBy (l : list A) : list A := fold_right insertBy [] l.

End Sort.

(** The object [scores] of lines 389-396, in insertion order. *)
Definition subjectScores (text : str) : list (str * nat) :=
  let lowered := toLowerCase text in
  filter (fun kv => 0 <? snd kv)
    (map (fun kv => (fst kv, subjectCount lowered (snd kv))) subjectMap).

(** script.js, lines 374-400. *)
Definition detectSubjects (text : str) : list str :=
  let sorted :=
    map fst
      (sortBy (fun a b => (Z.of_nat (snd b) - Z.of_nat (snd a))%Z)
         (subjectScores text)) in
  match sorted with
  | [] => [lit "General"]
  | _ => firstn 3 sorted
  end.

(** ** Sentence signals and highlight selection *)

Record Signals : Type := mkSignals
  { generic : bool;
    template : bool;
    transition : bool;
    repetitive : bool;
    vague : bool;
    mechanical : bool;
    passive : bool;
    nonspecific : bool }.

(** [\b(w1|w2|...)\b] *)
Definition anyWord (ws : list string) : re :=
  Seq Wb (Seq (Alts (map (fun w => Str (lit w)) ws)) Wb).

Definition anyWordI (ws : list string) : re :=
  Seq Wb (Seq (Alts (map (fun w => StrI (lit w)) ws)) Wb).

(** Line 756. *)
Definition genericRegex : re :=
  anyWord [ "in conclusion"; "overall"; "this paper"; "this document";
            "this study"; "the purpose of" ]%string.

(** Line 758, with the [i] flag. *)
Definition templateRegex : re :=
  Alts
    [ Seq Bol
        (Seq (Star (Cls isSpace))
           (Seq
              (Alts
                 (map (fun w => StrI (lit w))
                    [ "first"; "second"; "third"; "finally"; "in the first";
                      "in the second" ]%string))
              Wb));
      Seq Wb (Seq (Plus (Cls isDigit)) (Chr "."));
      anyWordI [ "i"; "ii"; "iii" ]%string ].

(** Line 760. *)
Definition transitionRegex : re :=
  anyWord [ "moreover"; "furthermore"; "therefore"; "however"; "thus";
            "consequently"; "additionally" ]%string.

(** Line 765. *)
Definition vagueRegex : re :=
  anyWord [ "some"; "many"; "various"; "several"; "often"; "generally";
            "typically"; "may"; "might"; "could" ]%string.

(** Line 767, with the flags [g] and [i]. *)
Definition pronounRegex : re :=
  anyWordI [ "I"; "we"; "my"; "our"; "us"; "mine" ]%string.

(** Line 769. *)
Definition passiveRegex : re :=
  let participle :=
    Seq (Plus (Cls isSpace))
      (Seq (Plus (Cls isWordChar)) (Seq (Str (lit "ed")) Wb)) in
  Alt (Seq Wb (Seq (Str (lit "is")) participle))
      (Seq Wb (Seq (Str (lit "was")) participle)).

(** Line 771: [/\d/] and [/\b[A-Z][a-z]{2,}\b/]. *)
Definition numberRegex : re := Cls isDigit.

Definition properRegex : re :=
  Seq Wb
    (Seq (Cls isUpper)
       (Seq (Cls isLower) (Seq (Cls isLower) (Seq (Star (Cls isLower)) Wb)))).

(** script.js, lines 751-774. *)
Definition analyzeSentenceSignals (s : str) : Signals :=
  let t := trim s in
  let low := toLowerCase t in
  let words := normalizeToWords t in
  let freq := countWords words in
  let pronouns := length (matchAll pronounRegex t) in
  let hasNumber := test numberRegex t in
  let hasProper := test properRegex t in
  {| generic := test genericRegex low;
     template := test templateRegex t;
     transition := test transitionRegex low;
     repetitive := existsb (fun kv => entryGe 3 (snd kv)) freq;
     vague := test vagueRegex low;
     mechanical := (pronouns =? 0) && (6 <? length words);
     passive := test passiveRegex low;
     nonspecific := negb hasNumber && negb hasProper && (6 <? length words) |}.

(** [Object.values(signals).filter(Boolean).length] *)
Definition signalCount (sg : Signals) : nat :=
  length
    (filter (fun b : bool => b)
       [ generic sg; template sg; transition sg; repetitive sg; vague sg;
         mechanical sg; passive sg; nonspecific sg ]).

Record Candidate : Type := mkCandidate
  { c_i : nat; c_count : nat; c_len : nat }.

(** The comparison function of line 785:
    [b.count - a.count || a.len - b.len]. *)
Definition compareCandidates (a b : Candidate) : Z :=
  let byCount := (Z.of_nat (c_count b) - Z.of_nat (c_count a))%Z in
  if (byCount =? 0)%Z then (Z.of_nat (c_len a) - Z.of_nat (c_len b))%Z
  else byCount.

(** [/[^.!?]+[.!?]*\s*/g] *)
Definition delimitedRegex : re :=
  Seq (Plus (Cls (fun c => negb (isTerminator c))))
    (Seq (Star (Cls isTerminator)) (Star (Cls isSpace))).

(** Line 779: [(text && text.match(...)) || doc.sentences || []]. *)
Definition delimitedSentences (text : str) (docSentences : list str)
    : list str :=
  match text with
  | [] => docSentences
  | _ =>
      match matchG delimitedRegex text with
      | Some l => l
      | None => docSentences
      end
  end.

(** Lines 780-782. *)
Definition candidatesOf (sentences : list str) : list Candidate :=
  filter (fun c => 3 <=? c_count c)
    (map
       (fun '(i, s) =>
          mkCandidate i (signalCount (analyzeSentenceSignals s)) (length s))
       (combine (seq 0 (length sentences)) sentences)).

(** Line 783. *)
Definition totalLength (text : str) (sentences : list str) : nat :=
  match length text with
  | 0 => Nat.max 1 (length (concat sentences))
  | n => n
  end.

(** Line 786: [Math.floor(totalLen * 0.30)]. *)
Definition coverageCap (totalLen : nat) : nat :=
  Z.to_nat (Qfloor (ofNat totalLen * (30 # 100))).

(** The loop of line 788: the value of [sum] and the indices added to
    [highlightedIndices], in the order in which they are added. *)
Definition accept (cap : nat) (acc : nat * list nat) (c : Candidate)
    : nat * list nat :=
  let '(sum, indices) := acc in
  if sum + c_len c <=? cap then (sum + c_len c, indices ++ [c_i c])
  else acc.

Definition select (cap : nat) (candidates : list Candidate)
    : nat * list nat :=
  fold_left (accept cap) candidates (0, []).

Record Highlighting : Type := mkHighlighting
  { highlightedIndices : list nat;
    highlightedCharCount : nat;
    highlightPercent : Z }.

(** script.js, lines 776-790. *)
Definition highlight (text : str) (docSentences : list str) : Highlighting :=
  let sentences := delimitedSentences text docSentences in
  let candidates := sortBy compareCandidates (candidatesOf sentences) in
  let totalLen := totalLength text sentences in
  let cap := coverageCap totalLen in
  let '(sum, indices) := select cap candidates in
  mkHighlighting indices sum
    (Math_round (ofNat sum / ofNat totalLen * 100)%Q).

(** ** The batch *)

Record Doc : Type := mkDoc
  { name : str; size : nat; docText : str }.

Record Match : Type := mkMatch
  { matchName : str; pct : Q }.

(** Lines 737-739: the best match of [base], the document at index [i],
    among the others. *)
Definition bestMatch (processed : list Doc) (i : nat) (base : Doc) : Match :=
  fold_left
    (fun best '(j, other) =>
       if j =? i then best
       else
         let p :=
           computeSimilarityPercentage (normalizeToWords (docText base))
             (normalizeToWords (docText other)) in
         if Qltb (pct best) p then mkMatch (name other) p else best)
    (combine (seq 0 (length processed)) processed)
    (mkMatch [] 0).

Record Result : Type := mkResult
  { r_charCount : nat;
    r_subjects : list str;
    r_bestMatch : Match;
    r_aiLikelihood : Z;
    r_aiLabel : str;
    r_wordCount : nat;
    r_sentenceCount : nat;
    r_aiContentScore : Z }.

Section Batch.

Variable Math_sqrt : Q -> Q.

(** The object [fileData] of lines 799-806 for a document;
    [topRepeatedWords] is the string of line 796. *)
Definition fileDataOf (doc : Doc) (topRepeatedWords : str) : FileData :=
  let text := docText doc in
  let words := normalizeToWords text in
  let sentences := delimitedSentences text (splitToSentences text) in
  {| text := text;
     sentencesWithDelimiters := sentences;
     sentenceScores := map (fun s => computeSentenceAiScore s words) sentences;
     highlightedPercent := highlightPercent (highlight text (splitToSentences text));
     topRepeatedWords := topRepeatedWords;
     wordCount := length words;
     sentenceCount := None;
     charCount := None |}.

(** The fields that lines 719-746 and 827-831 give to [processed[i]]. *)
Definition processDocument (processed : list Doc) (i : nat) (base : Doc)
    (topRepeatedWords : str) : Result :=
  let text := docText base in
  let words := normalizeToWords text in
  let sentences := splitToSentences text in
  let aiLikelihood := computeAiLikelihood Math_sqrt text sentences words in
  {| r_charCount := length text;
     r_subjects := detectSubjects text;
     r_bestMatch := bestMatch processed i base;
     r_aiLikelihood := aiLikelihood;
     r_aiLabel := labelAiScore aiLikelihood;
     r_wordCount := length words;
     r_sentenceCount := length sentences;
     r_aiContentScore :=
       computeAiContentScore Math_sqrt (fileDataOf base topRepeatedWords) |}.

End Batch.

(** ** Escaping *)

(** The object literal of line 706, looked up with the matched text;
    a key that it does not have gives [undefined]. *)
Definition entities : list (str * str) :=
  [ (lit "&", lit "&amp;"); (lit "<", lit "&lt;"); (lit ">", lit "&gt;");
    ([chr 34], lit "&quot;"); (lit "'", lit "&#39;") ].

Definition entityOf (c : str) : str :=
  match find (fun kv => str_eqb (fst kv) c) entities with
  | Some kv => snd kv
  | None => lit "undefined"
  end.

(** script.js, line 706: the class holds the ampersand, the angle
    brackets and the two quotes. *)
Definition escapeHtml (s : str) : str :=
  replaceWith (Cls (oneOf (lit "&<>'" ++ [chr 34]))) entityOf s.

End Client.

(* ================================================================== *)
(** * Statements *)
(* ================================================================== *)

Module Statements.
Import JS Num.

(** The text of the worked example. *)
Definition catText : str :=
  lit "The cat sat on the mat. The cat sat on the mat. The cat sat on the mat.".

(** The thresholds 35 and 70 with the three labels, for a label
    function. *)
Definition thresholds_35_70 (label : Z -> str) : Prop :=
  forall p : Z,
    (label p = lit "Human-written" <-> (p < 35)%Z)
    /\ (label p = lit "Mixed (AI + Human)" <-> (35 <= p < 70)%Z)
    /\ (label p = lit "Likely AI-generated" <-> (70 <= p)%Z).

(** The thresholds of the client: 30 and 60, inclusive. *)
Definition thresholds_30_60 (label : Z -> str) : Prop :=
  forall p : Z,
    (label p = lit "Human-written" <-> (p <= 30)%Z)
    /\ (label p = lit "Mixed" <-> (30 < p <= 60)%Z)
    /\ (label p = lit "Likely AI-generated" <-> (60 < p)%Z).

(** [Math.ceil(0.30 * n)] *)
Definition ceil30 (n : nat) : nat :=
  Z.to_nat (Qceiling (ofNat n * (30 # 100))).

(** A sentence record describes a span of [text]: the offsets are
    ordered and inside the text, the sentence is the trimmed slice and
    it is not empty. *)
Definition span_ok (text : str) (s : Server.Sentence) : Prop :=
  Server.s_start s < Server.s_end s
  /\ Server.s_end s <= length text
  /\ Server.s_text s
     = trim (slice text (Server.s_start s) (Server.s_end s))
  /\ Server.s_text s <> [].

(** Each span ends before the later ones start. *)
Definition disjoint_in_order (l : list Server.Sentence) : Prop :=
  StronglySorted (fun a b => Server.s_end a <= Server.s_start b) l.

Definition starts_increase (l : list Server.Sentence) : Prop :=
  StronglySorted (fun a b => Server.s_start a < Server.s_start b) l.

(** What the loop maintains: the sentences collected so far are spans
    of the text, in order, and end at or before [lastIndex]. *)
Definition collected (text : str) (lastIndex : nat)
    (acc : list Server.Sentence) : Prop :=
  Forall (span_ok text) acc
  /\ Forall (fun s => Server.s_end s <= lastIndex) acc
  /\ disjoint_in_order acc.

(** The members of the class [\s]. *)
Definition spaceChars : list ascii :=
  map chr [9; 10; 11; 12; 13; 32; 160].

(** A regular expression that begins with a character class to which
    no white space belongs. *)
Definition rejectsBlank (r : Regex.re) : bool :=
  match r with
  | Regex.Seq (Regex.Cls q) _ => forallb (fun c => negb (q c)) spaceChars
  | _ => false
  end.

(** Every run of white space replaced by one space; [inRun] tells that
    the previous character belonged to the run being replaced. *)
Fixpoint replaceSpaceRuns (inRun : bool) (s : str) : str :=
  match s with
  | [] => []
  | c :: r =>
      if isSpace c
      then if inRun then replaceSpaceRuns true r
           else " "%char :: replaceSpaceRuns true r
      else c :: replaceSpaceRuns false r
  end.

(** The first index of a character of a class, and the length of the
    run of such characters at the head of a string. *)
Fixpoint indexOf (p : ascii -> bool) (s : str) : option nat :=
  match s with
  | [] => None
  | c :: r => if p c then Some 0 else option_map S (indexOf p r)
  end.

Fixpoint runLength (p : ascii -> bool) (s : str) : nat :=
  match s with
  | [] => 0
  | c :: r => if p c then S (runLength p r) else 0
  end.

(** What the two [normalizeToWords] compute, for a set of punctuation
    characters, with the two replacements written as list functions. *)
Definition wordsWith (punctuation : str) (text : str) : list str :=
  filter truthy
    (split " "
       (trim
          (replaceSpaceRuns false
             (filter (fun c => negb (oneOf punctuation c))
                (toLowerCase text))))).

(** A character that the pipeline leaves in a word. *)
Definition wordChar (punctuation : str) (c : ascii) : Prop :=
  toLowerChar c = c /\ oneOf punctuation c = false /\ isSpace c = false.

Definition goodWord (punctuation : str) (w : str) : Prop :=
  w <> [] /\ Forall (wordChar punctuation) w.

(** A text made of white space only (or empty). *)
Definition blank (text : str) : Prop :=
  Forall (fun c => isSpace c = true) text.

End Statements.

(* ================================================================== *)
(** * Further statements *)
(* ================================================================== *)

Module Further.
Import JS Regex Num.

(** The spans follow one another without a gap, from the offset [a] to
    the offset [b]. *)
Inductive tiles : nat -> list Server.Sentence -> nat -> Prop :=
| tiles_nil : forall a, tiles a [] a
| tiles_cons : forall a s l b,
    Server.s_start s = a -> tiles (Server.s_end s) l b -> tiles a (s :: l) b.

(** A sentence closed by end marks: a body without any, then one mark
    or more. *)
Definition closedSentence (s : Server.Sentence) : Prop :=
  exists body marks,
    Server.s_text s = body ++ marks
    /\ Forall (fun c => Server.isTerminator c = false) body
    /\ marks <> []
    /\ Forall (fun c => Server.isTerminator c = true) marks.

(** A sentence without any end mark. *)
Definition openSentence (s : Server.Sentence) : Prop :=
  Forall (fun c => Server.isTerminator c = false) (Server.s_text s).

(** The maximal runs of characters that are no white space; [cur] is
    the run being read. *)
Definition emit (cur : str) : list str :=
  match cur with [] => [] | _ => [cur] end.

Fixpoint tokens (cur : str) (s : str) : list str :=
  match s with
  | [] => emit cur
  | c :: r =>
      if isSpace c then emit cur ++ tokens [] r else tokens (cur ++ [c]) r
  end.

(** White space that can only be the space character, as after the
    replacement of the runs. *)
Definition onlySpaces (s : str) : Prop :=
  Forall (fun c => isSpace c = true -> c = " "%char) s.

(** One step of the loop of line 738. *)
Definition bestStep (i : nat) (base : Client.Doc) (best : Client.Match)
    (jo : nat * Client.Doc) : Client.Match :=
  let '(j, other) := jo in
  if j =? i then best
  else
    let p :=
      Client.computeSimilarityPercentage
        (Client.normalizeToWords (Client.docText base))
        (Client.normalizeToWords (Client.docText other)) in
    if Qltb (Client.pct best) p then Client.mkMatch (Client.name other) p
    else best.

(** The similarity of [base] to [other], as the loop computes it. *)
Definition similarityTo (base other : Client.Doc) : Q :=
  Client.computeSimilarityPercentage
    (Client.normalizeToWords (Client.docText base))
    (Client.normalizeToWords (Client.docText other)).

(** The keys of the subject table, and the hits of the patterns of a
    subject in a text. *)
Definition subjectKeys : list str := map fst Client.subjectMap.

Definition subjectHits (text : str) (subject : str) : nat :=
  match find (fun kv => str_eqb (fst kv) subject) Client.subjectMap with
  | Some kv => Client.subjectCount (toLowerCase text) (snd kv)
  | None => 0
  end.

(** All the characters, and a regular expression that begins with a
    character class whose only possible member is [c]. *)
Definition allChars : list ascii := map chr (seq 0 256).

Definition startsWithOnly (c : ascii) (r : Regex.re) : bool :=
  match r with
  | Regex.Seq (Regex.Cls q) _ =>
      forallb (fun x => Ascii.eqb x c || negb (q x)) allChars
  | _ => false
  end.

(** The list sorted at line 398. *)
Definition sortedScores (text : str) : list (str * nat) :=
  Client.sortBy (fun a b => (Z.of_nat (snd b) - Z.of_nat (snd a))%Z)
    (Client.subjectScores text).

(** No end mark of [s] is followed by white space. *)
Definition unbroken (s : str) : Prop :=
  forall pre t w post,
    s = pre ++ t :: w :: post ->
    Client.isTerminator t = true -> isSpace w = false.

(** The number of occurrences of a word, and the entry that a word
    counter holds for a word that occurs [n] times. *)
Definition occurrences (w : str) (words : list str) : nat :=
  count_occ (list_eq_dec ascii_dec) words w.

Definition entryOf (w : str) (n : nat) : option entry :=
  match n with
  | 0 => None
  | _ => Some (if inherited w then Text else Count n)
  end.

(** The sum of the counts of a word counter. *)
Definition weight (e : entry) : nat :=
  match e with Count n => n | Text => 0 end.

Definition counted (freq : freqObject) : nat :=
  list_sum (map (fun kv => weight (snd kv)) freq).

(** A text made of white space and punctuation only. *)
Definition wordless (punctuation text : str) : Prop :=
  Forall (fun c => isSpace c = true \/ oneOf punctuation c = true) text.

(** The characters with a meaning in HTML that [escapeHtml] replaces,
    but for the ampersand. *)
Definition markup (c : ascii) : bool := oneOf (lit "<>'" ++ [chr 34]) c.

(** What [escapeHtml] writes for one character. *)
Definition escapeChar (c : ascii) : str :=
  if oneOf (lit "&<>'" ++ [chr 34]) c then Client.entityOf [c] else [c].

(** Reading the entities back. *)
Fixpoint unescape (s : str) : str :=
  match s with
  | [] => []
  | c :: r =>
      if Ascii.eqb c "&" then
        match r with
        | "a" :: "m" :: "p" :: ";" :: r' => "&" :: unescape r'
        | "l" :: "t" :: ";" :: r' => "<" :: unescape r'
        | "g" :: "t" :: ";" :: r' => ">" :: unescape r'
        | "q" :: "u" :: "o" :: "t" :: ";" :: r' => chr 34 :: unescape r'
        | "#" :: "3" :: "9" :: ";" :: r' => "'" :: unescape r'
        | _ => c :: unescape r
        end%char
      else c :: unescape r
  end.

(** A continuation that returns no more input than it receives. *)
Definition bounded (k : cont) : Prop :=
  forall p s rest, k p s = Some rest -> length rest <= length s.

(** [dropsMarks a b]: [a] is [b] without some of its end marks. *)
Inductive dropsMarks : str -> str -> Prop :=
| dropsMarks_nil : dropsMarks [] []
| dropsMarks_keep : forall c a b,
    dropsMarks a b -> dropsMarks (c :: a) (c :: b)
| dropsMarks_drop : forall c a b,
    Client.isTerminator c = true -> dropsMarks a b -> dropsMarks a (c :: b).

End Further.

(* ================================================================== *)
(** * Properties *)
(* ================================================================== *)

Import JS Regex Num Statements.

Unset Implicit Arguments.

(** ** Strings and numbers *)

Lemma str_eqb_eq (a b : str) : str_eqb a b = true <-> a = b.
Proof.
  unfold str_eqb. destruct (list_eq_dec ascii_dec a b); split; congruence.
Qed.

Lemma str_eqb_refl (a : str) : str_eqb a a = true.
Proof. now apply str_eqb_eq. Qed.

Lemma Qltb_lt (a b : Q) : Qltb a b = true <-> (a < b)%Q.
Proof.
  unfold Qltb. rewrite negb_true_iff. split; intro H.
  - apply Qnot_le_lt. intro L. apply Qle_bool_iff in L. congruence.
  - destruct (Qle_bool b a) eqn:E; [|reflexivity].
    apply Qle_bool_iff in E. exfalso. eapply Qlt_not_le; eauto.
Qed.

Lemma Math_round_nonneg (q : Q) : (0 <= q)%Q -> (0 <= Math_round q)%Z.
Proof.
  intro H. unfold Math_round.
  rewrite <- (Qfloor_Z 0).
  apply Qfloor_resp_le.
  apply Qle_trans with q; [exact H|].
  rewrite <- (Qplus_0_r q) at 1. apply Qplus_le_r. discriminate.
Qed.

Lemma Math_round_le (q : Q) (z : Z) :
  (q <= inject_Z z)%Q -> (Math_round q <= z)%Z.
Proof.
  intro H. unfold Math_round.
  pose proof (Qfloor_le (q + (1 # 2))) as F.
  apply Z.le_ngt. intro G.
  assert (C : (inject_Z (z + 1) <= q + (1 # 2))%Q).
  { eapply Qle_trans; [|exact F]. rewrite <- Zle_Qle. lia. }
  rewrite inject_Z_plus in C.
  assert (D : (inject_Z z + inject_Z 1 <= inject_Z z + (1 # 2))%Q).
  { eapply Qle_trans; [exact C|]. apply Qplus_le_l. exact H. }
  apply Qplus_le_r in D. revert D. unfold Qle. simpl. lia.
Qed.

Lemma Math_round_Z (z : Z) : Math_round (inject_Z z) = z.
Proof.
  apply Z.le_antisymm.
  - apply Math_round_le. apply Qle_refl.
  - unfold Math_round. rewrite <- (Qfloor_Z z) at 1. apply Qfloor_resp_le.
    rewrite <- (Qplus_0_r (inject_Z z)) at 1. apply Qplus_le_r. discriminate.
Qed.

(** ** The regular expressions [c], [c+] for a class [c] *)

Lemma runLength_le (p : ascii -> bool) (s : str) : runLength p s <= length s.
Proof.
  induction s as [|c s IH]; simpl; [lia|]. destruct (p c); lia.
Qed.

Lemma iterate_class (p : ascii -> bool) (n : nat) :
  forall s prev, length s <= n ->
    iterate (run (Cls p)) done n prev s = Some (skipn (runLength p s) s).
Proof.
  induction n as [|n IH]; intros s prev H.
  - destruct s; [reflexivity | simpl in H; lia].
  - destruct s as [|c s']; [reflexivity|].
    cbn [iterate run runLength]. destruct (p c); [|reflexivity].
    assert (L : (length s' <? length (c :: s')) = true).
    { apply Nat.ltb_lt. simpl. lia. }
    rewrite L, IH by (simpl in H; lia). reflexivity.
Qed.

Lemma matchAt_class (p : ascii -> bool) (prev : option ascii) (s : str) :
  matchAt (Cls p) prev s
  = match s with
    | c :: _ => if p c then Some [c] else None
    | [] => None
    end.
Proof.
  unfold matchAt. destruct s as [|c s']; [reflexivity|].
  cbn [run]. destruct (p c); [|reflexivity].
  unfold done.
  replace (length (c :: s') - length s') with 1 by (cbn [length]; lia).
  reflexivity.
Qed.

Lemma matchAt_plus (p : ascii -> bool) (prev : option ascii) (s : str) :
  matchAt (Plus (Cls p)) prev s
  = match s with
    | c :: s' => if p c then Some (c :: firstn (runLength p s') s') else None
    | [] => None
    end.
Proof.
  unfold matchAt, Plus. destruct s as [|c s']; [reflexivity|].
  change (run (Seq (Cls p) (Star (Cls p))) prev (c :: s') done)
    with (if p c
          then iterate (run (Cls p)) done (length s') (Some c) s'
          else None).
  destruct (p c); [|reflexivity].
  rewrite iterate_class by lia.
  pose proof (runLength_le p s') as L.
  rewrite length_skipn.
  replace (length (c :: s') - (length s' - runLength p s'))
    with (S (runLength p s')) by (cbn [length]; lia).
  reflexivity.
Qed.

Lemma search_plus (p : ascii -> bool) (s : str) :
  forall prev pos,
    search (Plus (Cls p)) prev s pos
    = match indexOf p s with
      | None => None
      | Some d => Some (pos + d, firstn (runLength p (skipn d s)) (skipn d s))
      end.
Proof.
  induction s as [|c s IH]; intros prev pos; [reflexivity|].
  cbn [search indexOf]. rewrite matchAt_plus. destruct (p c) eqn:E.
  - rewrite Nat.add_0_r. cbn [skipn runLength]. rewrite E. reflexivity.
  - rewrite IH. destruct (indexOf p s) as [d|]; [|reflexivity].
    cbn [option_map skipn]. f_equal. f_equal. lia.
Qed.

Lemma join_nonempty (sep w : str) (l : list str) :
  l <> [] -> join sep (w :: l) = w ++ sep ++ join sep l.
Proof.
  destruct l; [contradiction | reflexivity].
Qed.

Lemma splitScan_nonempty (r : re) (s : str) :
  forall prev skip cur, splitScan r prev s skip cur <> [].
Proof.
  induction s as [|c s IH]; intros prev skip cur; simpl; [discriminate|].
  destruct skip; [|apply IH].
  destruct (matchAt r prev (c :: s)) as [[|x m]|];
    [apply IH | discriminate | apply IH].
Qed.

(** Removing the characters of a class is a [filter]. *)
Lemma replaceAll_class (p : ascii -> bool) (s : str) :
  replaceAll (Cls p) [] s = filter (fun c => negb (p c)) s.
Proof.
  unfold replaceAll, splitRe.
  assert (G : forall s prev cur,
            join [] (splitScan (Cls p) prev s 0 cur)
            = rev cur ++ filter (fun c => negb (p c)) s).
  { clear s. induction s as [|c s IH]; intros prev cur.
    - simpl. now rewrite app_nil_r.
    - cbn [splitScan filter]. rewrite matchAt_class.
      destruct (p c); cbn [negb length].
      + rewrite join_nonempty by apply splitScan_nonempty.
        rewrite IH. reflexivity.
      + rewrite IH. simpl. now rewrite <- app_assoc. }
  exact (G s None []).
Qed.

(** Replacing the runs of white space by a space. *)
Lemma replaceAll_space_runs (s : str) :
  replaceAll (Plus (Cls isSpace)) (lit " ") s = replaceSpaceRuns false s.
Proof.
  unfold replaceAll, splitRe.
  assert (G : forall s prev,
            (forall cur,
               join (lit " ") (splitScan (Plus (Cls isSpace)) prev s 0 cur)
               = rev cur ++ replaceSpaceRuns false s)
            /\ join (lit " ")
                 (splitScan (Plus (Cls isSpace)) prev s
                    (runLength isSpace s) [])
               = replaceSpaceRuns true s).
  { clear s. induction s as [|c s IH]; intro prev.
    - split; [intro cur; simpl; now rewrite app_nil_r | reflexivity].
    - assert (A : forall cur,
                join (lit " ")
                  (splitScan (Plus (Cls isSpace)) prev (c :: s) 0 cur)
                = rev cur ++ replaceSpaceRuns false (c :: s)).
      { intro cur. cbn [splitScan replaceSpaceRuns]. rewrite matchAt_plus.
        destruct (isSpace c).
        - rewrite join_nonempty by apply splitScan_nonempty.
          rewrite length_firstn, (Nat.min_l _ _ (runLength_le isSpace s)).
          rewrite (proj2 (IH (Some c))). reflexivity.
        - rewrite (proj1 (IH (Some c))). simpl. now rewrite <- app_assoc. }
      split; [exact A|].
      cbn [runLength replaceSpaceRuns]. destruct (isSpace c) eqn:E.
      + cbn [splitScan]. apply (proj2 (IH (Some c))).
      + rewrite A. cbn [rev app replaceSpaceRuns]. rewrite E. reflexivity. }
  exact (proj1 (G s None) []).
Qed.

Lemma server_words_eq (text : str) :
  Server.normalizeToWords text = wordsWith Server.punctuation text.
Proof.
  unfold Server.normalizeToWords, wordsWith.
  now rewrite replaceAll_class, replaceAll_space_runs.
Qed.

Lemma client_words_eq (text : str) :
  Client.normalizeToWords text = wordsWith Client.punctuation text.
Proof.
  unfold Client.normalizeToWords, wordsWith.
  rewrite replaceAll_class, replaceAll_space_runs.
  destruct (trim _) as [|c r]; reflexivity.
Qed.

(** ** Sentence splitting *)

Lemma truthy_true (s : str) : truthy s = true <-> s <> [].
Proof.
  destruct s; simpl; split; intro H; congruence.
Qed.

Lemma indexOf_lt (p : ascii -> bool) (s : str) (d : nat) :
  indexOf p s = Some d -> d < length s.
Proof.
  revert d. induction s as [|c s IH]; intros d H; simpl in *; [discriminate|].
  destruct (p c).
  - injection H as <-. lia.
  - destruct (indexOf p s) as [d'|]; [|discriminate].
    injection H as <-. specialize (IH d' eq_refl). lia.
Qed.

Lemma indexOf_run (p : ascii -> bool) (s : str) (d : nat) :
  indexOf p s = Some d -> 1 <= runLength p (skipn d s).
Proof.
  revert d. induction s as [|c s IH]; intros d H; simpl in *; [discriminate|].
  destruct (p c) eqn:E.
  - injection H as <-. simpl. rewrite E. lia.
  - destruct (indexOf p s) as [d'|]; [|discriminate].
    injection H as <-. simpl. apply IH. reflexivity.
Qed.

Lemma exec_bounds (text : str) (lastIndex index : nat) (match0 : str) :
  execAt Server.sentenceEndRegex text lastIndex = Some (index, match0) ->
  lastIndex <= index /\ 1 <= length match0
  /\ index + length match0 <= length text.
Proof.
  unfold execAt, Server.sentenceEndRegex. rewrite search_plus.
  destruct (indexOf Server.isTerminator (skipn lastIndex text))
    as [d|] eqn:E; [|discriminate].
  intro H. injection H as <- <-.
  pose proof (indexOf_lt _ _ _ E) as L.
  pose proof (indexOf_run _ _ _ E) as R.
  pose proof (runLength_le Server.isTerminator
                (skipn d (skipn lastIndex text))) as U.
  rewrite length_firstn, (Nat.min_l _ _ U).
  rewrite !length_skipn in *. lia.
Qed.

Lemma sorted_snoc {A : Type} (R : A -> A -> Prop) (l : list A) (x : A) :
  StronglySorted R l -> Forall (fun a => R a x) l ->
  StronglySorted R (l ++ [x]).
Proof.
  induction 1 as [|a l S IH F]; intro H; simpl.
  - constructor; constructor.
  - inversion H as [|? ? Ha Hl]; subst. constructor.
    + apply IH. exact Hl.
    + apply Forall_app. split; [exact F | constructor; [exact Ha | constructor]].
Qed.

Lemma collected_push (text : str) (lastIndex endIndex : nat)
    (acc : list Server.Sentence) (sentence : str) :
  collected text lastIndex acc ->
  lastIndex < endIndex -> endIndex <= length text ->
  sentence = trim (slice text lastIndex endIndex) ->
  collected text endIndex
    (if truthy sentence
     then acc ++ [Server.mkSentence sentence lastIndex endIndex]
     else acc).
Proof.
  intros [Sp [En So]] Hlt Hle Hs.
  destruct (truthy sentence) eqn:T.
  - apply truthy_true in T. split; [|split].
    + apply Forall_app. split; [exact Sp|].
      constructor; [|constructor]. unfold span_ok. simpl. tauto.
    + apply Forall_app. split.
      * eapply Forall_impl; [|exact En]. simpl. intros; lia.
      * constructor; [simpl; lia | constructor].
    + apply sorted_snoc; [exact So|]. exact En.
  - split; [exact Sp|]. split; [|exact So].
    eapply Forall_impl; [|exact En]. simpl. intros; lia.
Qed.

Lemma splitLoop_total (text : str) (fuel lastIndex : nat)
    (acc : list Server.Sentence) :
  lastIndex <= length text -> length text - lastIndex < fuel ->
  collected text lastIndex acc ->
  exists sentences lastIndex',
    Server.splitLoop fuel text lastIndex acc = Some (sentences, lastIndex')
    /\ lastIndex' <= length text
    /\ collected text lastIndex' sentences.
Proof.
  revert lastIndex acc.
  induction fuel as [|fuel IH]; intros lastIndex acc Hle Hfuel Hc; [lia|].
  simpl. destruct (execAt Server.sentenceEndRegex text lastIndex)
    as [[index match0]|] eqn:E.
  - apply exec_bounds in E. destruct E as [E1 [E2 E3]].
    apply IH; [lia | lia |].
    apply collected_push; [exact Hc | lia | lia | reflexivity].
  - exists acc, lastIndex. tauto.
Qed.

Lemma slice_to_end (text : str) (a : nat) :
  slice text a (length text) = skipn a text.
Proof.
  unfold slice. rewrite <- length_skipn. apply firstn_all.
Qed.

Lemma split_result (text : str) :
  exists sentences,
    Server.splitSentencesWithPosition text = Some sentences
    /\ Forall (span_ok text) sentences
    /\ disjoint_in_order sentences.
Proof.
  unfold Server.splitSentencesWithPosition.
  destruct (splitLoop_total text (S (length text)) 0 [])
    as [ss [li [E [Hle Hc]]]]; [lia | lia | |].
  { split; [constructor | split; constructor]. }
  rewrite E. eexists. split; [reflexivity|].
  destruct (li <? length text) eqn:L.
  - apply Nat.ltb_lt in L.
    pose proof (collected_push text li (length text) ss
                  (trim (skipn li text)) Hc L (le_n _)) as P.
    rewrite slice_to_end in P. specialize (P eq_refl).
    destruct P as [P1 [_ P3]]. split; assumption.
  - destruct Hc as [P1 [_ P3]]. split; assumption.
Qed.

Lemma split_total (text : str) :
  exists sentences, Server.splitSentencesWithPosition text = Some sentences.
Proof.
  destruct (split_result text) as [ss [E _]]. exists ss. exact E.
Qed.

Lemma starts_increase_of_spans (text : str) (l : list Server.Sentence) :
  Forall (span_ok text) l -> disjoint_in_order l -> starts_increase l.
Proof.
  intros F S. induction S as [|a l S IH Ha]; [constructor|].
  inversion F as [|? ? Fa Fl]; subst. constructor.
  - apply IH. exact Fl.
  - destruct Fa as [Fa _]. eapply Forall_impl; [|exact Ha].
    simpl. intros b Hb. lia.
Qed.

(** C6.  For every text [splitSentencesWithPosition] returns, and in
    the sentences it returns every start offset is strictly below the
    end offset, every offset is at most the length of the text, each
    span ends before the next one starts, the start offsets increase
    strictly, and every sentence is the trimmed slice of its span and
    is not empty. *)
Theorem C6_sentence_spans (text : str) :
  exists sentences,
    Server.splitSentencesWithPosition text = Some sentences
    /\ Forall (span_ok text) sentences
    /\ disjoint_in_order sentences
    /\ starts_increase sentences.
Proof.
  destruct (split_result text) as [ss [E [F S]]].
  exists ss. split; [exact E|]. split; [exact F|]. split; [exact S|].
  exact (starts_increase_of_spans text ss F S).
Qed.

(** ** Labels *)

Lemma server_label_thresholds : thresholds_35_70 Server.labelAiScore.
Proof.
  intro p. unfold Server.labelAiScore.
  destruct (p <? 35)%Z eqn:A; [apply Z.ltb_lt in A | apply Z.ltb_ge in A].
  - split; [|split]; (split; intro H; [try lia; discriminate H |]);
      first [reflexivity | lia].
  - destruct (p <? 70)%Z eqn:B; [apply Z.ltb_lt in B | apply Z.ltb_ge in B];
      (split; [|split]); (split; intro H; [try lia; discriminate H |]);
      first [reflexivity | lia].
Qed.

Lemma client_label_thresholds : thresholds_30_60 Client.labelAiScore.
Proof.
  intro p. unfold Client.labelAiScore.
  destruct (p <=? 30)%Z eqn:A; [apply Z.leb_le in A | apply Z.leb_gt in A].
  - split; [|split]; (split; intro H; [try lia; discriminate H |]);
      first [reflexivity | lia].
  - destruct (p <=? 60)%Z eqn:B; [apply Z.leb_le in B | apply Z.leb_gt in B];
      (split; [|split]); (split; intro H; [try lia; discriminate H |]);
      first [reflexivity | lia].
Qed.

(** C8, as amended.  The label function of the server maps [p] to
    Human-written exactly when [p < 35], to Mixed (AI + Human) exactly
    when [35 <= p < 70] and to Likely AI-generated exactly when
    [70 <= p]; the label function of the client uses the bounds
    [p <= 30] and [p <= 60] and the middle label Mixed. *)
Theorem C8_label_thresholds :
  thresholds_35_70 Server.labelAiScore /\ thresholds_30_60 Client.labelAiScore.
Proof.
  split; [exact server_label_thresholds | exact client_label_thresholds].
Qed.

(** C8, as stated, fails for the label function of the client: 32 is
    below 35 and is labelled Mixed. *)
Lemma C8_client_label_counterexample : ~ thresholds_35_70 Client.labelAiScore.
Proof.
  intro H. destruct (H 32%Z) as [[_ A] _].
  assert (L : (32 < 35)%Z) by lia.
  specialize (A L). vm_compute in A. discriminate A.
Qed.

(** ** The worked example *)

(** C1, as amended.  For the text of the example and no reference
    corpus, the server pipeline yields 18 words and 3 sentences; the
    score is made of 15 for the vocabulary ratio 5/18 < 0.6 (five
    distinct words), 15 for the variation 0 < 8, 10 for the starter
    ratio 1/3 < 0.5, 10 for zero punctuation irregularities and 10 for
    the repeated-word flag (one word, [the], occurs more than 4 times:
    6 times), and of nothing for the mean length, the phrases, the
    reference and the long-document rule; the likelihood is 60. *)
Theorem C1_cat_text_contributions (Math_sqrt : Q -> Q) :
  let words := Server.normalizeToWords catText in
  let sentences :=
    match Server.splitSentencesWithPosition catText with
    | Some l => map Server.s_text l
    | None => []
    end in
  let lengths := Server.sentenceLengths sentences in
  option_map Server.wordCount (Server.analyze Math_sqrt [] catText) = Some 18
  /\ option_map Server.sentenceCount (Server.analyze Math_sqrt [] catText)
     = Some 3
  /\ length sentences = 3
  /\ (Server.uniqueRatio words == 5 # 18)%Q
  /\ Server.uniquePoints words = 15%Q
  /\ Server.variation lengths = Some 0%Z
  /\ Server.variationPoints lengths = 15%Q
  /\ (Server.starterRatio sentences == 1 # 3)%Q
  /\ Server.starterPoints sentences = 10%Q
  /\ Server.errors catText = 0
  /\ Server.errorPoints catText = 10%Q
  /\ getOwn (countWords words) (lit "the") = Some (Count 6)
  /\ Server.repeated words = 1
  /\ Server.repeatedPoints words = 10%Q
  /\ Server.consistencyPoints Math_sqrt lengths = 0%Q
  /\ Server.phrasePoints catText = 0%Q
  /\ Server.referencePoints [] words = 0%Q
  /\ Server.longPoints sentences = 0%Q
  /\ (Server.score Math_sqrt [] catText sentences words == 60)%Q
  /\ option_map Server.aiLikelihood (Server.analyze Math_sqrt [] catText)
     = Some 60%Z.
Proof.
  vm_compute. repeat split; reflexivity.
Qed.

(** C1, as stated, gives the vocabulary ratio of the example as 6/18;
    the text has five distinct words and the ratio is 5/18. *)
Lemma C1_ratio_counterexample :
  ~ (Server.uniqueRatio (Server.normalizeToWords catText) == 6 # 18)%Q.
Proof.
  vm_compute. intro H. discriminate H.
Qed.

(** ** A single sentence *)

(** C10.  When [computeAiLikelihood] receives exactly one sentence, the
    starter ratio is 1, neither the starter points nor the
    long-document points are added, and the score is the sum of the
    other contributions; [analyzeSentences] scores every sentence by
    such a call. *)
Theorem C10_single_sentence_no_starter_no_long
    (Math_sqrt : Q -> Q) (referenceText text s : str) (words : list str) :
  (Server.starterRatio [s] == 1)%Q
  /\ Server.starterPoints [s] = 0%Q
  /\ Server.longPoints [s] = 0%Q
  /\ (Server.score Math_sqrt referenceText text [s] words
      == Server.consistencyPoints Math_sqrt (Server.sentenceLengths [s])
         + Server.variationPoints (Server.sentenceLengths [s])
         + Server.uniquePoints words + Server.phrasePoints text
         + Server.errorPoints text + Server.repeatedPoints words
         + Server.referencePoints referenceText words)%Q
  /\ match Server.analyzeSentences Math_sqrt referenceText text with
     | Some highlights =>
         Forall
           (fun h =>
              let t := Server.s_text (Server.h_sentence h) in
              Server.h_score h
              = Server.computeAiLikelihood Math_sqrt referenceText
                  t [t] (Server.normalizeToWords t))
           highlights
     | None => False
     end.
Proof.
  assert (R : Server.starterRatio [s] = (1 # 1)%Q) by reflexivity.
  assert (P : Server.starterPoints [s] = 0%Q) by reflexivity.
  assert (L : Server.longPoints [s] = 0%Q) by reflexivity.
  split; [|split; [|split; [|split]]].
  - rewrite R. reflexivity.
  - exact P.
  - exact L.
  - unfold Server.score. rewrite P, L. ring.
  - unfold Server.analyzeSentences.
    destruct (split_total text) as [ss E]. rewrite E.
    apply Forall_map, Forall_forall. intros x _. reflexivity.
Qed.

(** ** Subjects *)

(** C4 at the query of the claim: the text contains it and the
    classifier returns General alone, without Databases.  The patterns
    of the table are written with a single backslash inside string
    literals, so that each [\b] is the character U+0008. *)
Theorem C4_select_query_is_General :
  let text := lit "SELECT * FROM users WHERE id=1" in
  includes text (lit "SELECT * FROM users WHERE id=1") = true
  /\ Client.detectSubjects text = [lit "General"]
  /\ ~ In (lit "Databases") (Client.detectSubjects text).
Proof.
  vm_compute. repeat split.
  intros [H | []]. discriminate H.
Qed.

(** ** Similarity *)

Lemma ofNat_pos (n : nat) : n <> 0 -> (0 < ofNat n)%Q.
Proof.
  intro H. unfold ofNat, Qlt. simpl. lia.
Qed.

Lemma ofNat_nonneg (n : nat) : (0 <= ofNat n)%Q.
Proof.
  unfold ofNat, Qle. simpl. lia.
Qed.

Lemma filter_all {A : Type} (f : A -> bool) (l : list A) :
  (forall x, In x l -> f x = true) -> filter f l = l.
Proof.
  induction l as [|x l IH]; intro H; simpl; [reflexivity|].
  rewrite (H x (or_introl eq_refl)). f_equal. apply IH.
  intros y Hy. apply H. now right.
Qed.

Lemma filter_none {A : Type} (f : A -> bool) (l : list A) :
  (forall x, In x l -> f x = false) -> filter f l = [].
Proof.
  induction l as [|x l IH]; intro H; simpl; [reflexivity|].
  rewrite (H x (or_introl eq_refl)). apply IH.
  intros y Hy. apply H. now right.
Qed.

Lemma existsb_str_In (w : str) (l : list str) :
  existsb (str_eqb w) l = true <-> In w l.
Proof.
  rewrite existsb_exists. split.
  - intros [x [Hx E]]. apply str_eqb_eq in E. now subst.
  - intro H. exists w. split; [exact H | apply str_eqb_refl].
Qed.

Lemma common_self (a : list str) : Client.common a a = length a.
Proof.
  unfold Client.common. rewrite filter_all; [reflexivity|].
  intros w Hw. now apply existsb_str_In.
Qed.

Lemma common_disjoint (a b : list str) :
  (forall w, In w a -> ~ In w b) -> Client.common a b = 0.
Proof.
  intro H. unfold Client.common. rewrite filter_none; [reflexivity|].
  intros w Hw. destruct (existsb (str_eqb w) b) eqn:E; [|reflexivity].
  apply existsb_str_In in E. exfalso. exact (H w Hw E).
Qed.

(** C7, as amended.  For a document with at least one word the
    similarity is [common / len * 100], it is 100 against a document
    with the same word sequence, and for an empty word sequence it is
    0; for disjoint vocabularies it is 0; the best match of the only
    document of a batch is the empty name with percentage 0. *)
Theorem C7_similarity (a b c e : list str) (d : Client.Doc)
    (nonempty : a <> [])
    (disjoint : forall w, In w c -> ~ In w e) :
  (Client.computeSimilarityPercentage a b
   == ofNat (Client.common a b) / ofNat (length a) * 100)%Q
  /\ (Client.computeSimilarityPercentage a a == 100)%Q
  /\ Client.computeSimilarityPercentage [] b = 0%Q
  /\ (Client.computeSimilarityPercentage c e == 0)%Q
  /\ Client.bestMatch [d] 0 d = Client.mkMatch [] 0.
Proof.
  assert (D : forall x y : list str, x <> [] ->
            Client.computeSimilarityPercentage x y
            = (ofNat (Client.common x y) / ofNat (length x) * 100)%Q).
  { intros x y Hx. destruct x; [contradiction | reflexivity]. }
  split; [|split; [|split; [|split]]].
  - rewrite (D a b nonempty). reflexivity.
  - rewrite (D a a nonempty), common_self.
    assert (P : ~ (ofNat (length a) == 0)%Q).
    { intro Z0. pose proof (ofNat_pos (length a)) as L.
      destruct a; [contradiction|]. specialize (L ltac:(discriminate)).
      rewrite Z0 in L. discriminate L. }
    field. exact P.
  - reflexivity.
  - destruct c as [|w c']; [reflexivity|].
    rewrite D by discriminate. rewrite (common_disjoint _ _ disjoint).
    unfold Qeq. simpl. lia.
  - reflexivity.
Qed.

Lemma C7_similarity_witness :
  let a := [lit "the"; lit "cat"] in
  let b := [lit "cat"; lit "dog"] in
  let c := [lit "sun"] in
  let e := [lit "moon"] in
  a <> []
  /\ (forall w, In w c -> ~ In w e)
  /\ (Client.computeSimilarityPercentage a b == 50)%Q
  /\ (Client.computeSimilarityPercentage a a == 100)%Q
  /\ (Client.computeSimilarityPercentage c e == 0)%Q.
Proof.
  intros a b c e.
  assert (N : a <> []) by discriminate.
  assert (Dj : forall w, In w c -> ~ In w e).
  { intros w [<- | []] [H | []]. discriminate H. }
  destruct (C7_similarity a b c e (Client.mkDoc [] 0 []) N Dj)
    as [_ [S [_ [Z0 _]]]].
  split; [exact N|]. split; [exact Dj|].
  split; [reflexivity|]. split; [exact S | exact Z0].
Defined.

(** C7, as stated, fails for two documents without words: their word
    sequences are identical and the similarity is 0. *)
Lemma C7_empty_counterexample :
  ~ (Client.computeSimilarityPercentage [] [] == 100)%Q.
Proof.
  vm_compute. intro H. discriminate H.
Qed.

(** ** Blank texts *)

Ltac each_char c := destruct c as [[] [] [] [] [] [] [] []].

Lemma space_char_facts (c : ascii) :
  isSpace c = true ->
  toLowerChar c = c
  /\ oneOf Server.punctuation c = false
  /\ oneOf Client.punctuation c = false
  /\ Server.isTerminator c = false
  /\ Client.isTerminator c = false
  /\ In c spaceChars.
Proof.
  each_char c; intro H; try discriminate H; vm_compute; intuition congruence.
Qed.

Lemma blank_toLowerCase (s : str) : blank s -> toLowerCase s = s.
Proof.
  induction 1 as [|c s Hc _ IH]; simpl; [reflexivity|].
  rewrite IH. f_equal. now apply space_char_facts.
Qed.

Lemma blank_dropWhile (s : str) : blank s -> dropWhile isSpace s = [].
Proof.
  induction 1 as [|c s Hc _ IH]; simpl; [reflexivity|]. now rewrite Hc.
Qed.

Lemma blank_trim (s : str) : blank s -> trim s = [].
Proof.
  intro H. unfold trim, trimStart. rewrite (blank_dropWhile s H). reflexivity.
Qed.

Lemma blank_replaceSpaceRuns (s : str) (inRun : bool) :
  blank s -> blank (replaceSpaceRuns inRun s).
Proof.
  intro H. revert inRun.
  induction H as [|c s Hc _ IH]; intro inRun; simpl; [constructor|].
  rewrite Hc. destruct inRun; [apply IH|].
  constructor; [reflexivity | apply IH].
Qed.

Lemma blank_cleaned (punctuation s : str) :
  (forall c, isSpace c = true -> oneOf punctuation c = false) ->
  blank s ->
  trim
    (replaceSpaceRuns false
       (filter (fun c => negb (oneOf punctuation c)) (toLowerCase s))) = [].
Proof.
  intros P H. apply blank_trim, blank_replaceSpaceRuns.
  rewrite (blank_toLowerCase s H). rewrite filter_all; [exact H|].
  intros c Hc. unfold blank in H. rewrite Forall_forall in H.
  rewrite (P c (H c Hc)). reflexivity.
Qed.

Lemma server_words_blank (s : str) : blank s -> Server.normalizeToWords s = [].
Proof.
  intro H. rewrite server_words_eq. unfold wordsWith.
  rewrite blank_cleaned; [reflexivity | | exact H].
  intros c Hc. now apply space_char_facts.
Qed.

Lemma client_words_blank (s : str) : blank s -> Client.normalizeToWords s = [].
Proof.
  intro H. rewrite client_words_eq. unfold wordsWith.
  rewrite blank_cleaned; [reflexivity | | exact H].
  intros c Hc. now apply space_char_facts.
Qed.

Lemma indexOf_none (p : ascii -> bool) (s : str) :
  Forall (fun c => p c = false) s -> indexOf p s = None.
Proof.
  induction 1 as [|c s Hc _ IH]; simpl; [reflexivity|].
  rewrite Hc, IH. reflexivity.
Qed.

Lemma blank_skipn (s : str) (n : nat) : blank s -> blank (skipn n s).
Proof.
  intro H. revert n. induction H as [|c s Hc Hs IH]; intro n.
  - destruct n; constructor.
  - destruct n; simpl; [constructor; assumption | apply IH].
Qed.

Lemma exec_blank (s : str) (lastIndex : nat) :
  blank s -> execAt Server.sentenceEndRegex s lastIndex = None.
Proof.
  intro H. unfold execAt, Server.sentenceEndRegex.
  rewrite search_plus, indexOf_none; [reflexivity|].
  pose proof (blank_skipn s lastIndex H) as B.
  eapply Forall_impl; [|exact B]. intros c Hc. now apply space_char_facts.
Qed.

Lemma server_split_blank (s : str) :
  blank s -> Server.splitSentencesWithPosition s = Some [].
Proof.
  intro H. unfold Server.splitSentencesWithPosition.
  cbn [Server.splitLoop]. rewrite (exec_blank s 0 H).
  cbn [skipn]. rewrite (blank_trim s H).
  destruct (0 <? length s); reflexivity.
Qed.

Lemma splitScan_pieces (P : ascii -> Prop) (r : re) (s : str) :
  Forall P s ->
  forall prev skip cur,
    Forall P cur -> Forall (Forall P) (splitScan r prev s skip cur).
Proof.
  induction 1 as [|c s Hc Hs IH]; intros prev skip cur Hcur; simpl.
  - constructor; [|constructor]. apply Forall_rev. exact Hcur.
  - destruct skip as [|n]; [|apply IH; exact Hcur].
    destruct (matchAt r prev (c :: s)) as [[|x m]|].
    + apply IH. constructor; assumption.
    + constructor; [apply Forall_rev; exact Hcur | apply IH; constructor].
    + apply IH. constructor; assumption.
Qed.

Lemma join_chars (P : ascii -> Prop) (sep : str) (l : list str) :
  Forall P sep -> Forall (Forall P) l -> Forall P (join sep l).
Proof.
  intros Hsep H. induction H as [|w l Hw Hl IH]; [constructor|].
  simpl. destruct l as [|w' l']; [exact Hw|].
  apply Forall_app. split; [exact Hw|].
  apply Forall_app. split; [exact Hsep | exact IH].
Qed.

Lemma blank_pieces_trimmed (l : list str) :
  Forall blank l -> filter truthy (map trim l) = [].
Proof.
  induction 1 as [|w l Hw _ IH]; simpl; [reflexivity|].
  rewrite (blank_trim w Hw). simpl. exact IH.
Qed.

Lemma client_sentences_blank (s : str) :
  blank s -> Client.splitToSentences s = [].
Proof.
  intro H. unfold Client.splitToSentences.
  apply blank_pieces_trimmed. unfold splitRe.
  apply splitScan_pieces; [|constructor].
  unfold replaceAll. apply join_chars.
  - constructor; [reflexivity | constructor].
  - unfold splitRe. apply splitScan_pieces; [exact H | constructor].
Qed.

Lemma rejectsBlank_matchAt (r : re) (prev : option ascii) (s : str) :
  rejectsBlank r = true -> blank s -> matchAt r prev s = None.
Proof.
  intros R H. destruct r as [| |a b| | | | |]; try discriminate R.
  destruct a as [|q| | | | | |]; try discriminate R.
  unfold matchAt. simpl. destruct H as [|c s Hc _]; [reflexivity|].
  cbn [rejectsBlank] in R. rewrite forallb_forall in R.
  assert (Q : q c = false).
  { apply negb_true_iff. apply R. now apply space_char_facts. }
  rewrite Q. reflexivity.
Qed.

Lemma rejectsBlank_scan (r : re) (s : str) :
  rejectsBlank r = true -> blank s ->
  forall prev skip, scan r prev s skip = [].
Proof.
  intros R H. induction H as [|c s Hc Hs IH]; intros prev skip; simpl.
  - destruct skip; [|reflexivity].
    rewrite (rejectsBlank_matchAt r prev [] R); [reflexivity | constructor].
  - destruct skip; [|apply IH].
    rewrite (rejectsBlank_matchAt r prev (c :: s) R);
      [apply IH | constructor; assumption].
Qed.

Lemma subject_patterns_reject_blank :
  forallb
    (fun p =>
       match Client.compile p with
       | Some r => rejectsBlank r
       | None => true
       end)
    (concat (map snd Client.subjectMap)) = true.
Proof. vm_compute. reflexivity. Qed.

Lemma sumNat_zero (l : list nat) : Forall (fun n => n = 0) l -> sumNat l = 0.
Proof.
  unfold sumNat. induction 1 as [|n l Hn _ IH]; simpl; [reflexivity|].
  subst n. exact IH.
Qed.

Lemma subjectCount_blank (lowered : str) (subject : str) (patterns : list str) :
  blank lowered -> In (subject, patterns) Client.subjectMap ->
  Client.subjectCount lowered patterns = 0.
Proof.
  intros H Hin. unfold Client.subjectCount. apply sumNat_zero.
  apply Forall_map, Forall_forall. intros p Hp.
  pose proof subject_patterns_reject_blank as A.
  rewrite forallb_forall in A. specialize (A p).
  assert (I : In p (concat (map snd Client.subjectMap))).
  { apply in_concat. exists patterns. split; [|exact Hp].
    apply in_map_iff. exists (subject, patterns). split; [reflexivity | exact Hin]. }
  specialize (A I). unfold Client.patternHits.
  destruct (Client.compile p) as [r|]; [|reflexivity].
  unfold matchAll. rewrite rejectsBlank_scan; [reflexivity | exact A | exact H].
Qed.

Lemma client_subjects_blank (s : str) :
  blank s -> Client.detectSubjects s = [lit "General"].
Proof.
  intro H. unfold Client.detectSubjects.
  assert (E : Client.subjectScores s = []).
  { unfold Client.subjectScores. rewrite (blank_toLowerCase s H).
    apply filter_none. intros [k n] Hin. apply in_map_iff in Hin.
    destruct Hin as [[subject patterns] [E Hin]]. simpl in E.
    injection E as <- <-. simpl.
    rewrite (subjectCount_blank s subject patterns H Hin). reflexivity. }
  rewrite E. reflexivity.
Qed.

(** C5.  For an empty or white-space-only text the server answers with
    0 words, 0 sentences and likelihood 0, and the client gives the
    document 0 words, 0 sentences, likelihood 0, mark 0, best-match
    percentage 0 against any words and the subjects General alone; the
    mark and the sentence score are 0 whatever the other fields are. *)
Theorem C5_blank_text_neutral
    (Math_sqrt : Q -> Q) (referenceText text : str)
    (processed : list Client.Doc) (i : nat) (name : str) (size : nat)
    (topRepeatedWords : str) (others docWords : list str)
    (fileData : Client.FileData)
    (whitespace_only : blank text)
    (same_text : Client.text fileData = text) :
  Server.analyze Math_sqrt referenceText text
  = Some (Server.mkResponse 0 0 0 (lit "Human-written") (slice text 0 300) [])
  /\ (let r :=
        Client.processDocument Math_sqrt processed i
          (Client.mkDoc name size text) topRepeatedWords in
      Client.r_wordCount r = 0
      /\ Client.r_sentenceCount r = 0
      /\ Client.r_aiLikelihood r = 0%Z
      /\ Client.r_aiContentScore r = 0%Z
      /\ Client.r_subjects r = [lit "General"])
  /\ Client.computeAiContentScore Math_sqrt fileData = 0%Z
  /\ Client.computeSentenceAiScore text docWords = 0%Z
  /\ Client.computeSimilarityPercentage (Client.normalizeToWords text) others
     = 0%Q.
Proof.
  pose proof (server_words_blank text whitespace_only) as SW.
  pose proof (client_words_blank text whitespace_only) as CW.
  split; [|split; [|split; [|split]]].
  - unfold Server.analyze, Server.analyzeSentences.
    rewrite (server_split_blank text whitespace_only), SW. reflexivity.
  - unfold Client.processDocument. cbn [Client.docText Client.r_wordCount
      Client.r_sentenceCount Client.r_aiLikelihood Client.r_aiContentScore
      Client.r_subjects].
    rewrite CW, (client_sentences_blank text whitespace_only),
      (client_subjects_blank text whitespace_only).
    unfold Client.computeAiContentScore, Client.fileDataOf.
    cbn [Client.text Client.docText]. rewrite CW.
    repeat split; reflexivity.
  - unfold Client.computeAiContentScore. rewrite same_text, CW. reflexivity.
  - unfold Client.computeSentenceAiScore.
    rewrite (blank_trim text whitespace_only). reflexivity.
  - rewrite CW. reflexivity.
Qed.

Lemma C5_blank_text_witness :
  let text := [" "; chr 9; chr 10; " "]%char in
  let fileData :=
    Client.mkFileData text [text] [0%Z] 0%Z [] 0 None None in
  blank text
  /\ Client.text fileData = text
  /\ Server.analyze (fun x => x) [] text
     = Some (Server.mkResponse 0 0 0 (lit "Human-written") text [])
  /\ Client.computeAiContentScore (fun x => x) fileData = 0%Z.
Proof.
  intros text fileData.
  assert (B : blank text) by (repeat constructor).
  assert (T : Client.text fileData = text) by reflexivity.
  pose proof (C5_blank_text_neutral (fun x => x) [] text [] 0 [] 0 [] [] []
                fileData B T) as [A [_ [M _]]].
  split; [exact B|]. split; [exact T|]. split; [exact A | exact M].
Defined.

(** ** Ranges of the scores *)

Lemma Qle_bool_false (a b : Q) : Qle_bool a b = false -> (b <= a)%Q.
Proof.
  intro H. apply Qlt_le_weak. apply Qnot_le_lt. intro L.
  apply Qle_bool_iff in L. congruence.
Qed.

Lemma clamp_range (lo hi x : Q) :
  (lo <= hi)%Q -> (lo <= Qmax lo (Qmin hi x) <= hi)%Q.
Proof.
  intro H. unfold Qmax.
  destruct (Qle_bool lo (Qmin hi x)) eqn:A.
  - apply Qle_bool_iff in A. split; [exact A|].
    unfold Qmin. destruct (Qle_bool hi x) eqn:B.
    + apply Qle_refl.
    + apply Qle_bool_false. exact B.
  - split; [apply Qle_refl | exact H].
Qed.

Lemma round_percent (c : Q) :
  (0 <= c <= 1)%Q -> (0 <= Math_round (c * 100) <= 100)%Z.
Proof.
  intros [L U]. split.
  - apply Math_round_nonneg. apply Qmult_le_0_compat; [exact L | discriminate].
  - apply Math_round_le. change (inject_Z 100) with (1 * 100)%Q.
    apply Qmult_le_compat_r; [exact U | discriminate].
Qed.

Lemma Qdiv_nonneg (a b : Q) : (0 <= a)%Q -> (0 <= b)%Q -> (0 <= a / b)%Q.
Proof.
  intros A B. unfold Qdiv. apply Qmult_le_0_compat; [exact A|].
  apply Qinv_le_0_compat. exact B.
Qed.

Lemma Qsum_nonneg (a b : Q) : (0 <= a)%Q -> (0 <= b)%Q -> (0 <= a + b)%Q.
Proof.
  intros A B. change 0%Q with (0 + 0)%Q. apply Qplus_le_compat; assumption.
Qed.

Ltac split_ifs :=
  repeat match goal with
         | |- context [if ?c then _ else _] => destruct c
         | |- context [match ?c with Some _ => _ | None => _ end] => destruct c
         end.

Lemma server_score_nonneg
    (Math_sqrt : Q -> Q) (referenceText text : str) (sentences words : list str) :
  (0 <= Server.score Math_sqrt referenceText text sentences words)%Q.
Proof.
  unfold Server.score.
  assert (P1 : (0 <= Server.consistencyPoints Math_sqrt
                       (Server.sentenceLengths sentences))%Q).
  { unfold Server.consistencyPoints. split_ifs; discriminate. }
  assert (P2 : (0 <= Server.variationPoints
                       (Server.sentenceLengths sentences))%Q).
  { unfold Server.variationPoints. split_ifs; discriminate. }
  assert (P3 : (0 <= Server.uniquePoints words)%Q).
  { unfold Server.uniquePoints. split_ifs; discriminate. }
  assert (P4 : (0 <= Server.starterPoints sentences)%Q).
  { unfold Server.starterPoints.
    destruct (Server.starters sentences); split_ifs; discriminate. }
  assert (P5 : (0 <= Server.phrasePoints text)%Q).
  { unfold Server.phrasePoints. change 0%Q with (inject_Z 0).
    rewrite <- Zle_Qle. lia. }
  assert (P6 : (0 <= Server.errorPoints text)%Q).
  { unfold Server.errorPoints. split_ifs; discriminate. }
  assert (P7 : (0 <= Server.repeatedPoints words)%Q).
  { unfold Server.repeatedPoints. split_ifs; discriminate. }
  assert (P8 : (0 <= Server.referencePoints referenceText words)%Q).
  { unfold Server.referencePoints.
    destruct (truthy referenceText); [|discriminate].
    destruct (Qltb (5 # 100) (Server.refRatio referenceText words));
      [|discriminate].
    apply Qmult_le_0_compat; [|discriminate].
    unfold Server.refRatio. apply Qdiv_nonneg; apply ofNat_nonneg. }
  assert (P9 : (0 <= Server.longPoints sentences)%Q).
  { unfold Server.longPoints. split_ifs; discriminate. }
  repeat apply Qsum_nonneg; assumption.
Qed.

Lemma server_likelihood_range
    (Math_sqrt : Q -> Q) (referenceText text : str) (sentences words : list str) :
  (0 <= Server.computeAiLikelihood Math_sqrt referenceText text sentences words
   <= 100)%Z.
Proof.
  unfold Server.computeAiLikelihood. destruct words as [|w ws]; [lia|].
  pose proof (Math_round_nonneg _
                (server_score_nonneg Math_sqrt referenceText text sentences
                   (w :: ws))).
  lia.
Qed.

Lemma client_likelihood_range
    (Math_sqrt : Q -> Q) (text : str) (sentences words : list str) :
  (0 <= Client.computeAiLikelihood Math_sqrt text sentences words <= 100)%Z.
Proof.
  unfold Client.computeAiLikelihood. destruct words as [|w ws]; [lia|].
  apply round_percent. unfold Client.clamp01. apply clamp_range. discriminate.
Qed.

Lemma content_score_range (Math_sqrt : Q -> Q) (fileData : Client.FileData) :
  (0 <= Client.computeAiContentScore Math_sqrt fileData <= 100)%Z.
Proof.
  unfold Client.computeAiContentScore.
  destruct (Client.normalizeToWords (Client.text fileData)); [lia|].
  destruct (clamp_range 0 100 (Client.finalScore Math_sqrt fileData))
    as [L U]; [discriminate|].
  split; [apply Math_round_nonneg; exact L | apply Math_round_le; exact U].
Qed.

Create HintDb ranges.

#[local] Hint Resolve server_likelihood_range client_likelihood_range
  content_score_range : ranges.

Lemma server_highlights_range
    (Math_sqrt : Q -> Q) (referenceText text : str)
    (highlights : list Server.Highlight) :
  Server.analyzeSentences Math_sqrt referenceText text = Some highlights ->
  Forall (fun h => (0 <= Server.h_score h <= 100)%Z) highlights.
Proof.
  unfold Server.analyzeSentences.
  destruct (Server.splitSentencesWithPosition text) as [ss|]; [|discriminate].
  intro H. injection H as <-. apply Forall_map, Forall_forall.
  intros s _. cbn [Server.h_score]. auto with ranges.
Qed.

(** C2.  For every text, reference text, square-root function and
    arguments, the likelihood computed by the server, the likelihood
    computed by the client and the content-quality mark are integers
    between 0 and 100; so are the likelihood and the sentence scores of
    the response of the server, which always exists, and the likelihood
    and the mark of a document processed by the client. *)
Theorem C2_scores_in_range
    (Math_sqrt : Q -> Q) (referenceText text : str)
    (sentences words : list str) (fileData : Client.FileData)
    (processed : list Client.Doc) (i : nat) (base : Client.Doc)
    (topRepeatedWords : str) :
  (0 <= Server.computeAiLikelihood Math_sqrt referenceText text sentences words
   <= 100)%Z
  /\ (exists r,
        Server.analyze Math_sqrt referenceText text = Some r
        /\ (0 <= Server.aiLikelihood r <= 100)%Z
        /\ Forall (fun h => (0 <= Server.h_score h <= 100)%Z)
             (Server.highlights r))
  /\ (0 <= Client.computeAiLikelihood Math_sqrt text sentences words <= 100)%Z
  /\ (0 <= Client.computeAiContentScore Math_sqrt fileData <= 100)%Z
  /\ (let r :=
        Client.processDocument Math_sqrt processed i base topRepeatedWords in
      (0 <= Client.r_aiLikelihood r <= 100)%Z
      /\ (0 <= Client.r_aiContentScore r <= 100)%Z).
Proof.
  split; [solve [auto with ranges]|].
  split.
  { unfold Server.analyze.
    destruct (split_total text) as [ss E]. rewrite E.
    destruct (Server.analyzeSentences Math_sqrt referenceText text)
      as [hs|] eqn:A.
    - eexists. split; [reflexivity|].
      cbn [Server.aiLikelihood Server.highlights].
      split; [solve [auto with ranges]|].
      exact (server_highlights_range _ _ _ _ A).
    - unfold Server.analyzeSentences in A. rewrite E in A. discriminate A. }
  split; [solve [auto with ranges]|].
  split; [solve [auto with ranges]|].
  split; cbn [Client.processDocument Client.r_aiLikelihood
              Client.r_aiContentScore]; solve [auto with ranges].
Qed.

(** ** Highlight selection *)

Lemma select_within_cap (cap : nat) (candidates : list Client.Candidate) :
  forall acc, fst acc <= cap ->
    fst (fold_left (Client.accept cap) candidates acc) <= cap.
Proof.
  induction candidates as [|c l IH]; intros [sum indices] H; simpl; [exact H|].
  apply IH. destruct (sum + Client.c_len c <=? cap) eqn:E; simpl.
  - apply Nat.leb_le in E. exact E.
  - exact H.
Qed.

Lemma fold_add_shift (l : list nat) (a : nat) :
  fold_left Nat.add l a = a + fold_left Nat.add l 0.
Proof.
  revert a. induction l as [|m l IH]; intro a; simpl; [lia|].
  rewrite (IH (a + m)), (IH m). lia.
Qed.

Lemma sumNat_cons (n : nat) (l : list nat) : sumNat (n :: l) = n + sumNat l.
Proof.
  unfold sumNat. simpl. apply fold_add_shift.
Qed.

Lemma sumNat_snoc (l : list nat) (n : nat) : sumNat (l ++ [n]) = sumNat l + n.
Proof.
  induction l as [|m l IH]; [reflexivity|].
  simpl app. rewrite !sumNat_cons, IH. lia.
Qed.

(** The sum kept by the loop is the total length of the accepted
    sentences. *)
Lemma select_sum (cap : nat) (len : nat -> nat)
    (candidates : list Client.Candidate) :
  Forall (fun c => Client.c_len c = len (Client.c_i c)) candidates ->
  forall acc, fst acc = sumNat (map len (snd acc)) ->
    let r := fold_left (Client.accept cap) candidates acc in
    fst r = sumNat (map len (snd r)).
Proof.
  induction 1 as [|c l Hc _ IH]; intros [sum indices] H; [exact H|].
  cbn [fold_left]. apply IH. unfold Client.accept.
  destruct (sum + Client.c_len c <=? cap); [|exact H].
  cbn [fst snd] in *. rewrite map_app. cbn [map]. rewrite sumNat_snoc. lia.
Qed.

Lemma insertBy_Forall {A : Type} (P : A -> Prop) (cmp : A -> A -> Z)
    (x : A) (l : list A) :
  P x -> Forall P l -> Forall P (Client.insertBy cmp x l).
Proof.
  intros Hx H. induction H as [|y l Hy Hl IH]; simpl.
  - constructor; [exact Hx | constructor].
  - destruct (cmp x y <=? 0)%Z.
    + constructor; [exact Hx | constructor; assumption].
    + constructor; assumption.
Qed.

Lemma sortBy_Forall {A : Type} (P : A -> Prop) (cmp : A -> A -> Z)
    (l : list A) :
  Forall P l -> Forall P (Client.sortBy cmp l).
Proof.
  induction 1 as [|x l Hx _ IH]; simpl; [constructor|].
  apply insertBy_Forall; assumption.
Qed.

Lemma combine_seq_nth {A : Type} (d : A) (l : list A) :
  forall start i x,
    In (i, x) (combine (seq start (length l)) l) ->
    start <= i /\ nth (i - start) l d = x.
Proof.
  induction l as [|y l IH]; intros start i x H; simpl in H; [contradiction|].
  destruct H as [H | H].
  - injection H as <- <-. rewrite Nat.sub_diag. split; [lia | reflexivity].
  - apply IH in H. destruct H as [L E]. split; [lia|].
    replace (i - start) with (S (i - S start)) by lia. exact E.
Qed.

Lemma candidates_lengths (sentences : list str) :
  Forall (fun c => Client.c_len c = length (nth (Client.c_i c) sentences []))
    (Client.candidatesOf sentences).
Proof.
  unfold Client.candidatesOf. apply Forall_forall. intros c Hc.
  apply filter_In in Hc. destruct Hc as [Hc _].
  apply in_map_iff in Hc. destruct Hc as [[i s] [E Hin]]. subst c. simpl.
  apply (combine_seq_nth []) in Hin. destruct Hin as [_ Hn].
  rewrite Nat.sub_0_r in Hn. f_equal. symmetry. exact Hn.
Qed.

Lemma floor_le_ceil30 (n : nat) : Client.coverageCap n <= ceil30 n.
Proof.
  unfold Client.coverageCap, ceil30. apply Z2Nat.inj_le.
  - rewrite <- (Qfloor_Z 0). apply Qfloor_resp_le.
    apply Qmult_le_0_compat; [apply ofNat_nonneg | discriminate].
  - rewrite <- (Qceiling_Z 0). apply Qceiling_resp_le.
    apply Qmult_le_0_compat; [apply ofNat_nonneg | discriminate].
  - rewrite Zle_Qle. eapply Qle_trans; [apply Qfloor_le | apply Qle_ceiling].
Qed.

(** C3.  For every text, the number of highlighted characters is the
    total length of the accepted sentences, it is at most the cap
    [floor (0.30 * totalLen)] of the selection loop and at most
    [ceil (0.30 * length text)]. *)
Theorem C3_highlight_coverage (text : str) :
  let sentences :=
    Client.delimitedSentences text (Client.splitToSentences text) in
  let h := Client.highlight text (Client.splitToSentences text) in
  Client.highlightedCharCount h
  = sumNat
      (map (fun i => length (nth i sentences [])) (Client.highlightedIndices h))
  /\ Client.highlightedCharCount h
     <= Client.coverageCap (Client.totalLength text sentences)
  /\ Client.highlightedCharCount h <= ceil30 (length text).
Proof.
  intros sentences h. unfold h, Client.highlight. fold sentences.
  set (cap := Client.coverageCap (Client.totalLength text sentences)).
  set (cands := Client.sortBy Client.compareCandidates
                  (Client.candidatesOf sentences)).
  pose proof (select_within_cap cap cands (0, []) (Nat.le_0_l _)) as W.
  pose proof (select_sum cap (fun i => length (nth i sentences [])) cands
                (sortBy_Forall _ _ _ (candidates_lengths sentences))
                (0, []) eq_refl) as S.
  unfold Client.select. simpl in S.
  destruct (fold_left (Client.accept cap) cands (0, [])) as [sum indices].
  simpl in *. split; [exact S|]. split; [exact W|].
  destruct text as [|c t].
  - subst cap sentences. vm_compute in W. lia.
  - eapply Nat.le_trans; [exact W|]. subst cap. apply floor_le_ceil30.
Qed.

(** ** Idempotence of the normalisation *)

Lemma toLowerChar_idem (c : ascii) : toLowerChar (toLowerChar c) = toLowerChar c.
Proof. each_char c; reflexivity. Qed.

Lemma space_is_space (c : ascii) : c = " "%char -> isSpace c = true.
Proof. intros ->. reflexivity. Qed.

Lemma dropWhile_Forall (P : ascii -> Prop) (p : ascii -> bool) (s : str) :
  Forall P s -> Forall P (dropWhile p s).
Proof.
  induction 1 as [|c s Hc Hs IH]; simpl; [constructor|].
  destruct (p c); [exact IH | constructor; assumption].
Qed.

Lemma trim_Forall (P : ascii -> Prop) (s : str) :
  Forall P s -> Forall P (trim s).
Proof.
  intro H. unfold trim, trimEnd, trimStart.
  apply Forall_rev, dropWhile_Forall, Forall_rev, dropWhile_Forall. exact H.
Qed.

Lemma replaceSpaceRuns_Forall (P : ascii -> Prop) (s : str) :
  Forall P s ->
  forall inRun,
    Forall (fun c => c = " "%char \/ (isSpace c = false /\ P c))
      (replaceSpaceRuns inRun s).
Proof.
  induction 1 as [|c s Hc Hs IH]; intro inRun; simpl; [constructor|].
  destruct (isSpace c) eqn:E.
  - destruct inRun; [apply IH|]. constructor; [now left | apply IH].
  - constructor; [right; split; assumption | apply IH].
Qed.

Lemma split_Forall (P : ascii -> Prop) (sep : ascii) (s : str) :
  Forall P s -> Forall (Forall (fun c => c <> sep /\ P c)) (split sep s).
Proof.
  induction 1 as [|c s Hc Hs IH]; simpl.
  - constructor; constructor.
  - destruct (Ascii.eqb c sep) eqn:E.
    + constructor; [constructor | exact IH].
    + apply Ascii.eqb_neq in E.
      destruct (split sep s) as [|h t].
      * constructor; [|constructor]. constructor; [split; assumption | constructor].
      * inversion IH as [|? ? Hh Ht]; subst.
        constructor; [|exact Ht]. constructor; [split; assumption | exact Hh].
Qed.

Lemma words_good (punctuation text : str) :
  Forall (goodWord punctuation) (wordsWith punctuation text).
Proof.
  unfold wordsWith.
  set (t1 := filter (fun c => negb (oneOf punctuation c)) (toLowerCase text)).
  assert (H1 : Forall (fun c => toLowerChar c = c
                                /\ oneOf punctuation c = false) t1).
  { apply Forall_forall. intros c Hc. apply filter_In in Hc.
    destruct Hc as [Hin Hp]. apply negb_true_iff in Hp. split; [|exact Hp].
    unfold toLowerCase in Hin. apply in_map_iff in Hin.
    destruct Hin as [c0 [<- _]]. apply toLowerChar_idem. }
  pose proof (split_Forall _ " "%char _
                (trim_Forall _ _ (replaceSpaceRuns_Forall _ t1 H1 false))) as H2.
  apply Forall_forall. intros w Hw. apply filter_In in Hw.
  destruct Hw as [Hin Ht]. apply truthy_true in Ht. split; [exact Ht|].
  rewrite Forall_forall in H2. specialize (H2 w Hin).
  eapply Forall_impl; [|exact H2]. simpl.
  intros c [Hn [He | [Hs [Hl Hp]]]]; [contradiction|].
  unfold wordChar. tauto.
Qed.

Lemma map_fixed (f : ascii -> ascii) (s : str) :
  Forall (fun c => f c = c) s -> map f s = s.
Proof.
  induction 1 as [|c s Hc _ IH]; simpl; [reflexivity|]. now rewrite Hc, IH.
Qed.

Lemma replaceSpaceRuns_word (w rest : str) (inRun : bool) :
  w <> [] -> Forall (fun c => isSpace c = false) w ->
  replaceSpaceRuns inRun (w ++ rest) = w ++ replaceSpaceRuns false rest.
Proof.
  intros Hne H. revert inRun.
  induction H as [|c w Hc Hw IH]; intro inRun; [contradiction|].
  simpl. rewrite Hc. f_equal.
  destruct w as [|c' w']; [reflexivity|]. apply IH. discriminate.
Qed.

Lemma replaceSpaceRuns_nospace (w : str) (inRun : bool) :
  Forall (fun c => isSpace c = false) w -> replaceSpaceRuns inRun w = w.
Proof.
  intro H. revert inRun.
  induction H as [|c w Hc _ IH]; intro inRun; simpl; [reflexivity|].
  rewrite Hc. f_equal. apply IH.
Qed.

Lemma good_nospace (punctuation w : str) :
  goodWord punctuation w -> Forall (fun c => isSpace c = false) w.
Proof.
  intros [_ H]. eapply Forall_impl; [|exact H]. unfold wordChar. tauto.
Qed.

Lemma replaceSpaceRuns_join (punctuation : str) (ws : list str) :
  Forall (goodWord punctuation) ws ->
  forall inRun, replaceSpaceRuns inRun (join (lit " ") ws) = join (lit " ") ws.
Proof.
  induction 1 as [|w ws Hw Hws IH]; intro inRun; [reflexivity|].
  simpl join. destruct ws as [|w' ws'].
  - apply replaceSpaceRuns_nospace. exact (good_nospace _ _ Hw).
  - rewrite replaceSpaceRuns_word;
      [| exact (proj1 Hw) | exact (good_nospace _ _ Hw)].
    f_equal. change (lit " " ++ join (lit " ") (w' :: ws'))
      with (" "%char :: join (lit " ") (w' :: ws')).
    cbn [replaceSpaceRuns]. change (isSpace " ") with true. cbn iota.
    f_equal. apply IH.
Qed.

Lemma join_first (punctuation : str) (ws : list str) :
  Forall (goodWord punctuation) ws -> ws <> [] ->
  exists c r, join (lit " ") ws = c :: r /\ isSpace c = false.
Proof.
  intros H Hne. destruct H as [|w ws [Hw Hc] _]; [contradiction|].
  destruct Hc as [|c w' Hc _]; [contradiction|].
  exists c. destruct ws.
  - exists w'. split; [reflexivity | apply Hc].
  - eexists. split; [reflexivity | apply Hc].
Qed.

Lemma join_last (punctuation : str) (ws : list str) :
  Forall (goodWord punctuation) ws -> ws <> [] ->
  exists r c, join (lit " ") ws = r ++ [c] /\ isSpace c = false.
Proof.
  induction 1 as [|w ws Hw Hws IH]; intro Hne; [contradiction|].
  destruct ws as [|w' ws'].
  - destruct Hw as [Hn Hc]. destruct (exists_last Hn) as [r [c E]].
    exists r, c. split; [exact E|]. subst w. apply Forall_app in Hc.
    destruct Hc as [_ Hc]. inversion Hc as [|? ? Hx _]; subst. apply Hx.
  - destruct IH as [r [c [E Hc]]]; [discriminate|].
    exists (w ++ lit " " ++ r), c. split; [|exact Hc].
    simpl join in *. rewrite E. now rewrite <- !app_assoc.
Qed.

Lemma trim_fixed (s : str) :
  (exists c r, s = c :: r /\ isSpace c = false) ->
  (exists r c, s = r ++ [c] /\ isSpace c = false) ->
  trim s = s.
Proof.
  intros [c [r [E1 H1]]] [r' [c' [E2 H2]]].
  unfold trim, trimStart, trimEnd.
  assert (A : dropWhile isSpace s = s).
  { rewrite E1. simpl. now rewrite H1. }
  rewrite A, E2, rev_app_distr. simpl. rewrite H2.
  change (c' :: rev r') with (rev [c'] ++ rev r').
  now rewrite <- rev_app_distr, rev_involutive.
Qed.

Lemma split_nosep (sep : ascii) (w : str) :
  Forall (fun c => c <> sep) w -> split sep w = [w].
Proof.
  induction 1 as [|c w Hc _ IH]; simpl; [reflexivity|].
  apply Ascii.eqb_neq in Hc. now rewrite Hc, IH.
Qed.

Lemma split_word (sep : ascii) (w rest : str) :
  Forall (fun c => c <> sep) w ->
  split sep (w ++ sep :: rest) = w :: split sep rest.
Proof.
  induction 1 as [|c w Hc _ IH]; simpl.
  - now rewrite Ascii.eqb_refl.
  - apply Ascii.eqb_neq in Hc. now rewrite Hc, IH.
Qed.

Lemma good_nosep (punctuation w : str) :
  goodWord punctuation w -> Forall (fun c => c <> " "%char) w.
Proof.
  intro H. eapply Forall_impl; [|exact (good_nospace _ _ H)].
  simpl. intros c Hc E. rewrite (space_is_space c E) in Hc. discriminate.
Qed.

Lemma split_join (punctuation : str) (ws : list str) :
  Forall (goodWord punctuation) ws -> ws <> [] ->
  split " " (join (lit " ") ws) = ws.
Proof.
  induction 1 as [|w ws Hw Hws IH]; intro Hne; [contradiction|].
  simpl join. destruct ws as [|w' ws'].
  - apply split_nosep. exact (good_nosep _ _ Hw).
  - change (w ++ lit " " ++ join (lit " ") (w' :: ws'))
      with (w ++ " "%char :: join (lit " ") (w' :: ws')).
    rewrite split_word by exact (good_nosep _ _ Hw).
    f_equal. apply IH. discriminate.
Qed.

Lemma words_of_join (punctuation : str) (ws : list str) :
  oneOf punctuation " " = false ->
  Forall (goodWord punctuation) ws ->
  wordsWith punctuation (join (lit " ") ws) = ws.
Proof.
  intros Hsp H. destruct ws as [|w ws']; [reflexivity|].
  set (ws := w :: ws') in *.
  assert (Hc : Forall (fun c => toLowerChar c = c
                                /\ oneOf punctuation c = false)
                 (join (lit " ") ws)).
  { apply join_chars.
    - constructor; [split; [reflexivity | exact Hsp] | constructor].
    - eapply Forall_impl; [|exact H]. intros x [_ Hx].
      eapply Forall_impl; [|exact Hx]. unfold wordChar. tauto. }
  unfold wordsWith, toLowerCase.
  rewrite map_fixed by (eapply Forall_impl; [|exact Hc]; simpl; tauto).
  rewrite (filter_all (fun c => negb (oneOf punctuation c))).
  2:{ intros c Hin. pose proof (proj1 (Forall_forall _ _) Hc c Hin) as [_ Hp].
      now rewrite Hp. }
  rewrite (replaceSpaceRuns_join punctuation ws H).
  rewrite trim_fixed.
  - rewrite (split_join punctuation ws H) by discriminate.
    apply filter_all. intros x Hx. rewrite Forall_forall in H.
    apply truthy_true. exact (proj1 (H x Hx)).
  - apply (join_first punctuation); [exact H | discriminate].
  - apply (join_last punctuation); [exact H | discriminate].
Qed.

Lemma wordsWith_idempotent (punctuation text : str) :
  oneOf punctuation " " = false ->
  wordsWith punctuation (join (lit " ") (wordsWith punctuation text))
  = wordsWith punctuation text.
Proof.
  intro H. apply words_of_join; [exact H | apply words_good].
Qed.

(** C9.  [normalizeToWords] is idempotent, on the server and on the
    client: normalising the words of a text joined by single spaces
    gives back the same words. *)
Theorem C9_normalizeToWords_idempotent (text : str) :
  Server.normalizeToWords (join (lit " ") (Server.normalizeToWords text))
  = Server.normalizeToWords text
  /\ Client.normalizeToWords (join (lit " ") (Client.normalizeToWords text))
     = Client.normalizeToWords text.
Proof.
  rewrite !server_words_eq, !client_words_eq.
  split; apply wordsWith_idempotent; reflexivity.
Qed.

(** ** Worked evaluations *)

Example server_words_example :
  Server.normalizeToWords (lit "  Hello, World!  it's  a_b\c ")
  = map lit ["hello"; "world"; "its"; "abc"]%string.
Proof. vm_compute. reflexivity. Qed.

Example client_words_example :
  Client.normalizeToWords (lit "  Hello, World!  it's  a_b\c ")
  = map lit ["hello"; "world"; "its"; "ab\c"]%string.
Proof. vm_compute. reflexivity. Qed.

Example server_split_example :
  Server.splitSentencesWithPosition (lit "Hi there! How are you?? fine")
  = Some [ Server.mkSentence (lit "Hi there!") 0 9;
           Server.mkSentence (lit "How are you??") 9 23;
           Server.mkSentence (lit "fine") 23 28 ].
Proof. vm_compute. reflexivity. Qed.

Example server_split_marks_example :
  Server.splitSentencesWithPosition (lit "...  ! a")
  = Some [ Server.mkSentence (lit "...") 0 3;
           Server.mkSentence (lit "!") 3 6;
           Server.mkSentence (lit "a") 6 8 ].
Proof. vm_compute. reflexivity. Qed.

Example client_split_example :
  Client.splitToSentences (lit "One.  Two!Three? Four")
  = map lit ["One."; "Two!Three?"; "Four"]%string.
Proof. vm_compute. reflexivity. Qed.

(** Three phrases (18 points) and a variation of 6 (15 points); the two
    irregularities, a double space and a double exclamation mark, keep
    the 10 points away. *)
Example server_analyze_example (Math_sqrt : Q -> Q) :
  let text :=
    lit "It is important to note that, overall, results vary.  Moreover, see this!!" in
  option_map
    (fun r =>
       (Server.wordCount r, Server.sentenceCount r, Server.aiLikelihood r,
        map Server.h_score (Server.highlights r)))
    (Server.analyze Math_sqrt [] text)
  = Some (12, 2, 33%Z, [37%Z; 21%Z]).
Proof. vm_compute. reflexivity. Qed.

Example error_regex_example :
  matchAll Server.errorRegex (lit "a,,b  c   d!!!! ??")
  = map lit [",,"; "  "; "   "; "!!"; "!!"; "??"]%string.
Proof. vm_compute. reflexivity. Qed.

Example passive_regex_example :
  matchAll Client.passiveRegex
    (lit "the data is processed and it was  handled ok")
  = map lit ["is processed"; "was  handled"]%string.
Proof. vm_compute. reflexivity. Qed.

Example proper_regex_example :
  matchAll Client.properRegex (lit "In Paris we met Al and Bob9 and Carl.")
  = map lit ["Paris"; "Carl"]%string.
Proof. vm_compute. reflexivity. Qed.

Example template_regex_example :
  map (test Client.templateRegex)
    (map lit ["  Finally we stop"; "step 2. mix"; "I like ii"; "twice"]%string)
  = [true; true; true; false].
Proof. vm_compute. reflexivity. Qed.

(** The pattern as the table writes it, and as lines 42 and 193 write
    theirs, with the backslash doubled. *)
Example pattern_escape_example :
  let lowered := lit "select * from users where id=1" in
  Client.patternHits lowered (Client.jsString (lit "\bselect\b")) = 0
  /\ Client.patternHits lowered (Client.jsString (lit "\\bselect\\b")) = 1.
Proof. vm_compute. split; reflexivity. Qed.

Example subjects_example :
  Client.detectSubjects (lit "body { color: red } /* css */ #include <html>")
  = map lit ["Web Development"; "Programming"]%string.
Proof. vm_compute. reflexivity. Qed.

Example word_counter_example :
  countWords (map lit ["a"; "constructor"; "a"; "constructor"]%string)
  = [ (lit "a", Count 2); (lit "constructor", Text) ].
Proof. vm_compute. reflexivity. Qed.

(* ================================================================== *)
(** * Further properties *)
(* ================================================================== *)

Import Further.

(** ** The sentences of the server tile the text *)

Lemma tiles_snoc (a b : nat) (l : list Server.Sentence) (s : Server.Sentence) :
  tiles a l b -> Server.s_start s = b -> tiles a (l ++ [s]) (Server.s_end s).
Proof.
  induction 1 as [a | a x l b Hx Hl IH]; intro Hs; simpl.
  - constructor; [exact Hs | constructor].
  - constructor; [exact Hx | apply IH; exact Hs].
Qed.

Lemma firstn_plus {A : Type} (a b : nat) (l : list A) :
  firstn (a + b) l = firstn a l ++ firstn b (skipn a l).
Proof.
  revert l. induction a as [|a IH]; intro l; [reflexivity|].
  destruct l as [|x l]; simpl; [now rewrite firstn_nil | now rewrite IH].
Qed.

Lemma firstn_length_firstn {A : Type} (k : nat) (l : list A) :
  firstn (length (firstn k l)) l = firstn k l.
Proof.
  revert l. induction k as [|k IH]; intro l; [reflexivity|].
  destruct l as [|x l]; simpl; [reflexivity | now rewrite IH].
Qed.

Lemma indexOf_prefix (p : ascii -> bool) (s : str) (d : nat) :
  indexOf p s = Some d -> Forall (fun c => p c = false) (firstn d s).
Proof.
  revert d. induction s as [|c s IH]; intros d H; simpl in H; [discriminate|].
  destruct (p c) eqn:E.
  - injection H as <-. constructor.
  - destruct (indexOf p s) as [d'|]; [|discriminate].
    injection H as <-. simpl. constructor; [exact E | apply IH; reflexivity].
Qed.

Lemma indexOf_none_all (p : ascii -> bool) (s : str) :
  indexOf p s = None -> Forall (fun c => p c = false) s.
Proof.
  induction s as [|c s IH]; intro H; simpl in H; [constructor|].
  destruct (p c) eqn:E; [discriminate|].
  destruct (indexOf p s); [discriminate|].
  constructor; [exact E | apply IH; reflexivity].
Qed.

Lemma runLength_all (p : ascii -> bool) (s : str) :
  Forall (fun c => p c = true) (firstn (runLength p s) s).
Proof.
  induction s as [|c s IH]; simpl; [constructor|].
  destruct (p c) eqn:E; simpl; constructor; assumption.
Qed.

Lemma terminator_not_space (c : ascii) :
  Server.isTerminator c = true -> isSpace c = false.
Proof.
  each_char c; intro H; try discriminate H; reflexivity.
Qed.

(** What [exec] finds: the text from [lastIndex] to the end of the match
    is a stretch without end marks followed by the match, a run of end
    marks. *)
Lemma exec_shape (text : str) (lastIndex index : nat) (match0 : str) :
  execAt Server.sentenceEndRegex text lastIndex = Some (index, match0) ->
  exists pre,
    slice text lastIndex (index + length match0) = pre ++ match0
    /\ Forall (fun c => Server.isTerminator c = false) pre
    /\ match0 <> []
    /\ Forall (fun c => Server.isTerminator c = true) match0.
Proof.
  intro H. pose proof (exec_bounds _ _ _ _ H) as [B1 [B2 B3]].
  unfold execAt, Server.sentenceEndRegex in H. rewrite search_plus in H.
  destruct (indexOf Server.isTerminator (skipn lastIndex text))
    as [d|] eqn:E; [|discriminate].
  injection H as <- <-.
  set (rest := skipn lastIndex text) in *.
  set (m := firstn (runLength Server.isTerminator (skipn d rest))
              (skipn d rest)) in *.
  exists (firstn d rest). split; [|split; [|split]].
  - unfold slice. fold rest.
    replace (lastIndex + d + length m - lastIndex) with (d + length m) by lia.
    rewrite firstn_plus. f_equal. apply firstn_length_firstn.
  - exact (indexOf_prefix _ _ _ E).
  - intro Z0. rewrite Z0 in B2. simpl in B2. lia.
  - apply runLength_all.
Qed.

Lemma exec_none_shape (text : str) (lastIndex : nat) :
  execAt Server.sentenceEndRegex text lastIndex = None ->
  Forall (fun c => Server.isTerminator c = false) (skipn lastIndex text).
Proof.
  unfold execAt, Server.sentenceEndRegex. rewrite search_plus.
  destruct (indexOf Server.isTerminator (skipn lastIndex text)) eqn:E;
    [discriminate|].
  intros _. exact (indexOf_none_all _ _ E).
Qed.

Lemma dropWhile_app_stop (p : ascii -> bool) (pre m : str) :
  (exists c r, m = c :: r /\ p c = false) ->
  dropWhile p (pre ++ m) = dropWhile p pre ++ m.
Proof.
  intros [c [r [-> Hc]]]. induction pre as [|x pre IH]; simpl.
  - now rewrite Hc.
  - destruct (p x); [exact IH | reflexivity].
Qed.

Lemma trimEnd_last (s : str) (c : ascii) :
  isSpace c = false -> trimEnd (s ++ [c]) = s ++ [c].
Proof.
  intro H. unfold trimEnd. rewrite rev_app_distr. simpl. rewrite H.
  change (c :: rev s) with (rev [c] ++ rev s).
  now rewrite <- rev_app_distr, rev_involutive.
Qed.

(** Trimming a stretch closed by end marks only removes the white space
    in front of it. *)
Lemma trim_closed (pre m : str) :
  m <> [] -> Forall (fun c => Server.isTerminator c = true) m ->
  trim (pre ++ m) = dropWhile isSpace pre ++ m.
Proof.
  intros Hne Hm. unfold trim, trimStart.
  rewrite dropWhile_app_stop.
  - destruct (exists_last Hne) as [m' [c E]]. subst m.
    rewrite app_assoc. apply trimEnd_last. apply terminator_not_space.
    apply Forall_app in Hm. destruct Hm as [_ Hc].
    now inversion Hc.
  - destruct m as [|c r]; [contradiction|]. exists c, r.
    split; [reflexivity|]. apply terminator_not_space. now inversion Hm.
Qed.

Lemma dropWhile_nil_blank (s : str) : dropWhile isSpace s = [] -> blank s.
Proof.
  induction s as [|c s IH]; intro H; [constructor|].
  simpl in H. destruct (isSpace c) eqn:E; [|discriminate].
  constructor; [exact E | apply IH; exact H].
Qed.

Lemma dropWhile_head (s : str) (c : ascii) (r : str) :
  dropWhile isSpace s = c :: r -> isSpace c = false.
Proof.
  induction s as [|x s IH]; intro H; simpl in H; [discriminate|].
  destruct (isSpace x) eqn:E; [apply IH; exact H|].
  injection H as <- _. exact E.
Qed.

Lemma trim_nil_blank (s : str) : trim s = [] -> blank s.
Proof.
  unfold trim, trimEnd, trimStart. intro H.
  apply dropWhile_nil_blank.
  destruct (dropWhile isSpace s) as [|c r] eqn:E; [reflexivity|].
  exfalso. pose proof (dropWhile_head _ _ _ E) as Hc.
  assert (B : blank (rev (c :: r))).
  { apply dropWhile_nil_blank.
    rewrite <- (rev_involutive (dropWhile isSpace (rev (c :: r)))).
    rewrite H. reflexivity. }
  apply Forall_rev in B. rewrite rev_involutive in B.
  inversion B as [|? ? Hx _]; subst. congruence.
Qed.

(** The loop again, with what it keeps true beside [collected]: the
    spans tile the text up to [lastIndex] and every sentence is closed
    by end marks. *)
Lemma splitLoop_tiles (text : str) (fuel lastIndex : nat)
    (acc : list Server.Sentence) :
  lastIndex <= length text -> length text - lastIndex < fuel ->
  tiles 0 acc lastIndex -> Forall closedSentence acc ->
  exists sentences lastIndex',
    Server.splitLoop fuel text lastIndex acc = Some (sentences, lastIndex')
    /\ lastIndex' <= length text
    /\ tiles 0 sentences lastIndex'
    /\ Forall closedSentence sentences
    /\ Forall (fun c => Server.isTerminator c = false)
         (skipn lastIndex' text).
Proof.
  revert lastIndex acc.
  induction fuel as [|fuel IH]; intros lastIndex acc Hle Hfuel Ht Hc; [lia|].
  cbn [Server.splitLoop].
  destruct (execAt Server.sentenceEndRegex text lastIndex)
    as [[index match0]|] eqn:E.
  - pose proof (exec_bounds _ _ _ _ E) as [B1 [B2 B3]].
    destruct (exec_shape _ _ _ _ E) as [pre [S1 [S2 [S3 S4]]]].
    rewrite S1, (trim_closed pre match0 S3 S4).
    assert (T : truthy (dropWhile isSpace pre ++ match0) = true).
    { apply truthy_true. intro Z0. apply app_eq_nil in Z0. tauto. }
    rewrite T. apply IH; [lia | lia | |].
    + exact (tiles_snoc 0 lastIndex acc
               (Server.mkSentence _ lastIndex (index + length match0))
               Ht eq_refl).
    + apply Forall_app. split; [exact Hc|]. constructor; [|constructor].
      exists (dropWhile isSpace pre), match0. cbn [Server.s_text].
      split; [reflexivity|]. split; [|split; assumption].
      apply dropWhile_Forall. exact S2.
  - exists acc, lastIndex. split; [reflexivity|]. split; [exact Hle|].
    split; [exact Ht|]. split; [exact Hc|]. exact (exec_none_shape _ _ E).
Qed.

(** The result of [splitSentencesWithPosition], taken apart: the
    sentences closed by end marks and, after them, at most one sentence
    without end mark, which reaches the end of the text. *)
Lemma split_anatomy (text : str) :
  exists closed rest e,
    Server.splitSentencesWithPosition text = Some (closed ++ rest)
    /\ Forall closedSentence closed
    /\ tiles 0 (closed ++ rest) e
    /\ e <= length text
    /\ blank (skipn e text)
    /\ (rest = [] \/ exists s, rest = [s] /\ openSentence s).
Proof.
  unfold Server.splitSentencesWithPosition.
  destruct (splitLoop_tiles text (S (length text)) 0 [])
    as [ss [li [E [Hle [Ht [Hc Hn]]]]]];
    [lia | lia | constructor | constructor |].
  rewrite E. destruct (li <? length text) eqn:L.
  - destruct (truthy (trim (skipn li text))) eqn:T.
    + exists ss, [Server.mkSentence (trim (skipn li text)) li (length text)],
        (length text).
      split; [reflexivity|]. split; [exact Hc|].
      split; [exact (tiles_snoc 0 li ss
                      (Server.mkSentence (trim (skipn li text)) li
                         (length text)) Ht eq_refl)|].
      split; [lia|]. split; [rewrite skipn_all; constructor|].
      right. eexists. split; [reflexivity|].
      unfold openSentence. cbn [Server.s_text].
      apply trim_Forall. exact Hn.
    + exists ss, [], li. rewrite app_nil_r.
      split; [reflexivity|]. split; [exact Hc|]. split; [exact Ht|].
      split; [exact Hle|]. split; [|now left].
      apply trim_nil_blank. destruct (trim (skipn li text)); [reflexivity|].
      discriminate T.
  - apply Nat.ltb_ge in L. exists ss, [], li. rewrite app_nil_r.
    split; [reflexivity|]. split; [exact Hc|]. split; [exact Ht|].
    split; [exact Hle|]. split; [|now left].
    rewrite skipn_all2 by exact L. constructor.
Qed.

(** X1.  The sentences returned by [splitSentencesWithPosition] tile the
    text: the first span starts at offset 0, every span starts where the
    one before ends, and what follows the last span is white space
    only. *)
Theorem X1_sentences_tile_the_text (text : str) :
  exists sentences e,
    Server.splitSentencesWithPosition text = Some sentences
    /\ tiles 0 sentences e
    /\ e <= length text
    /\ blank (skipn e text).
Proof.
  destruct (split_anatomy text) as [cl [rest [e [E [_ [T [L [B _]]]]]]]].
  exists (cl ++ rest), e. tauto.
Qed.

(** X2.  [splitSentencesWithPosition] returns no sentence exactly when
    the text is empty or made of white space only. *)
Theorem X2_no_sentence_iff_blank (text : str) :
  Server.splitSentencesWithPosition text = Some [] <-> blank text.
Proof.
  split; [|apply server_split_blank].
  intro H. destruct (split_anatomy text) as [cl [rest [e [E [_ [T [_ [B _]]]]]]]].
  rewrite H in E. injection E as E. rewrite <- E in T.
  inversion T; subst. exact B.
Qed.

(** X3.  Every sentence returned by [splitSentencesWithPosition] but
    possibly the last is a body without end marks followed by at least
    one end mark; the last one may instead contain no end mark at
    all. *)
Theorem X3_only_the_last_sentence_is_open (text : str) :
  exists closed rest,
    Server.splitSentencesWithPosition text = Some (closed ++ rest)
    /\ Forall closedSentence closed
    /\ (rest = [] \/ exists s, rest = [s] /\ openSentence s).
Proof.
  destruct (split_anatomy text) as [cl [rest [e [E [C [_ [_ [_ R]]]]]]]].
  exists cl, rest. tauto.
Qed.

(** ** The words of a text *)

(** X4.  Every word returned by [normalizeToWords], on the server and on
    the client, is non-empty and made of characters that are no white
    space, no punctuation of the stripped class and unchanged by
    [toLowerCase]. *)
Theorem X4_words_are_clean (text : str) :
  Forall (goodWord Server.punctuation) (Server.normalizeToWords text)
  /\ Forall (goodWord Client.punctuation) (Client.normalizeToWords text).
Proof.
  rewrite server_words_eq, client_words_eq. split; apply words_good.
Qed.

Lemma punctuation_agree (c : ascii) :
  c <> Client.backslash ->
  oneOf Server.punctuation (toLowerChar c)
  = oneOf Client.punctuation (toLowerChar c).
Proof.
  each_char c; intro H; try reflexivity. exfalso. apply H. reflexivity.
Qed.

(** X5.  On a text without backslash the two [normalizeToWords] return
    the same words: the backslash, stripped by the server only, is their
    one difference. *)
Theorem X5_server_and_client_words_agree (text : str)
    (no_backslash : Forall (fun c => c <> Client.backslash) text) :
  Server.normalizeToWords text = Client.normalizeToWords text.
Proof.
  rewrite server_words_eq, client_words_eq. unfold wordsWith.
  do 4 f_equal. apply filter_ext_in. intros c Hc.
  unfold toLowerCase in Hc. apply in_map_iff in Hc.
  destruct Hc as [c0 [<- Hin]]. f_equal. apply punctuation_agree.
  rewrite Forall_forall in no_backslash. exact (no_backslash c0 Hin).
Qed.

Lemma X5_words_agree_witness :
  let text := lit "Hello, World! it's a_b/c" in
  Forall (fun c => c <> Client.backslash) text
  /\ Server.normalizeToWords text = Client.normalizeToWords text.
Proof.
  intro text.
  assert (N : Forall (fun c => c <> Client.backslash) text).
  { unfold text. repeat constructor; discriminate. }
  split; [exact N | exact (X5_server_and_client_words_agree text N)].
Defined.

Lemma split_nonempty (sep : ascii) (s : str) : split sep s <> [].
Proof.
  destruct s as [|c s]; simpl; [discriminate|].
  destruct (Ascii.eqb c sep); [discriminate|].
  destruct (split sep s); discriminate.
Qed.

Lemma split_snoc_sep (sep : ascii) (s : str) :
  split sep (s ++ [sep]) = split sep s ++ [[]].
Proof.
  induction s as [|c s IH]; simpl.
  - now rewrite Ascii.eqb_refl.
  - destruct (Ascii.eqb c sep); [now rewrite IH|].
    rewrite IH. pose proof (split_nonempty sep s) as N.
    destruct (split sep s); [contradiction | reflexivity].
Qed.

Lemma replaceSpaceRuns_onlySpaces (s : str) (inRun : bool) :
  onlySpaces (replaceSpaceRuns inRun s).
Proof.
  pose proof (replaceSpaceRuns_Forall (fun _ => True) s
                (proj2 (Forall_forall _ _) (fun _ _ => I)) inRun) as H.
  eapply Forall_impl; [|exact H]. simpl.
  intros c [E | [E _]] Hc; [exact E | congruence].
Qed.

Lemma pieces_trimStart (s : str) :
  onlySpaces s ->
  filter truthy (split " " (trimStart s)) = filter truthy (split " " s).
Proof.
  unfold trimStart. induction 1 as [|c s Hc _ IH]; [reflexivity|].
  simpl dropWhile. destruct (isSpace c) eqn:E; [|reflexivity].
  rewrite (Hc eq_refl). simpl. exact IH.
Qed.

Lemma pieces_trimEnd (s : str) :
  onlySpaces s ->
  filter truthy (split " " (trimEnd s)) = filter truthy (split " " s).
Proof.
  induction s as [|c s IH] using rev_ind; intro H; [reflexivity|].
  apply Forall_app in H. destruct H as [Hs Hc].
  destruct (isSpace c) eqn:E.
  - inversion Hc as [|? ? Hx _]; subst. rewrite (Hx E) in *.
    rewrite split_snoc_sep, filter_app. simpl. rewrite app_nil_r.
    rewrite <- (IH Hs). f_equal. f_equal.
    unfold trimEnd. rewrite rev_app_distr. reflexivity.
  - now rewrite trimEnd_last.
Qed.

Lemma pieces_trim (s : str) :
  onlySpaces s ->
  filter truthy (split " " (trim s)) = filter truthy (split " " s).
Proof.
  intro H. unfold trim. rewrite pieces_trimEnd.
  - now apply pieces_trimStart.
  - unfold trimStart. apply dropWhile_Forall. exact H.
Qed.

Lemma emit_pieces (cur : str) :
  Forall (fun c => c <> " "%char) cur ->
  filter truthy (split " " cur) = emit cur.
Proof.
  intro H. rewrite split_nosep by exact H. destruct cur; reflexivity.
Qed.

Lemma nonspace_not_sep (c : ascii) : isSpace c = false -> c <> " "%char.
Proof. intros H E. subst c. discriminate H. Qed.

Lemma pieces_tokens (s : str) :
  (forall cur, Forall (fun c => c <> " "%char) cur ->
     filter truthy (split " " (cur ++ replaceSpaceRuns false s))
     = tokens cur s)
  /\ filter truthy (split " " (replaceSpaceRuns true s)) = tokens [] s.
Proof.
  induction s as [|c s [IH1 IH2]].
  - split; [|reflexivity]. intros cur H. simpl. rewrite app_nil_r.
    now apply emit_pieces.
  - cbn [replaceSpaceRuns tokens]. destruct (isSpace c) eqn:E.
    + split; [|exact IH2]. intros cur H.
      rewrite split_word by exact H. simpl filter.
      rewrite IH2. destruct cur; reflexivity.
    + assert (A : forall cur, Forall (fun x => x <> " "%char) cur ->
                filter truthy
                  (split " " (cur ++ c :: replaceSpaceRuns false s))
                = tokens (cur ++ [c]) s).
      { intros cur H.
        change (cur ++ c :: replaceSpaceRuns false s)
          with (cur ++ [c] ++ replaceSpaceRuns false s).
        rewrite app_assoc. apply IH1. apply Forall_app. split; [exact H|].
        constructor; [now apply nonspace_not_sep | constructor]. }
      split; [exact A|]. exact (A [] (Forall_nil _)).
Qed.

(** The words are the maximal runs of characters that are no white
    space in the text in lower case without its punctuation. *)
Lemma wordsWith_tokens (punctuation text : str) :
  wordsWith punctuation text
  = tokens []
      (filter (fun c => negb (oneOf punctuation c)) (toLowerCase text)).
Proof.
  unfold wordsWith.
  rewrite pieces_trim by apply replaceSpaceRuns_onlySpaces.
  exact (proj1 (pieces_tokens _) [] (Forall_nil _)).
Qed.





(** ** Similarity and best match *)

Lemma similarity_range (a b : list str) :
  (0 <= Client.computeSimilarityPercentage a b <= 100)%Q.
Proof.
  unfold Client.computeSimilarityPercentage.
  destruct a as [|w a']; [split; discriminate|].
  set (a := w :: a').
  assert (P : (0 < ofNat (length a))%Q) by (apply ofNat_pos; discriminate).
  assert (C : (ofNat (Client.common a b) <= ofNat (length a))%Q).
  { unfold ofNat. rewrite <- Zle_Qle. apply Nat2Z.inj_le.
    apply filter_length_le. }
  pose proof (ofNat_nonneg (Client.common a b)) as N.
  split.
  - apply Qmult_le_0_compat; [|discriminate].
    apply Qdiv_nonneg; [exact N | apply ofNat_nonneg].
  - assert (D : (ofNat (Client.common a b) / ofNat (length a) <= 1)%Q).
    { apply Qle_shift_div_r; [exact P | lra]. }
    lra.
Qed.

Lemma combine_seq_nth_error {A : Type} (l : list A) :
  forall start j x,
    In (j, x) (combine (seq start (length l)) l)
    <-> start <= j /\ nth_error l (j - start) = Some x.
Proof.
  induction l as [|y l IH]; intros start j x; simpl.
  - split; [contradiction|]. intros [_ H].
    destruct (j - start); discriminate H.
  - rewrite IH. split.
    + intros [H | [L H]].
      * injection H as <- <-. rewrite Nat.sub_diag. split; [lia | reflexivity].
      * split; [lia|]. replace (j - start) with (S (j - S start)) by lia.
        exact H.
    + intros [L H]. destruct (j - start) as [|k] eqn:E.
      * left. simpl in H. injection H as <-. f_equal. lia.
      * right. split; [lia|]. simpl in H.
        replace (j - S start) with k by lia. exact H.
Qed.

Lemma bestMatch_fold (processed : list Client.Doc) (i : nat)
    (base : Client.Doc) :
  Client.bestMatch processed i base
  = fold_left (bestStep i base)
      (combine (seq 0 (length processed)) processed) (Client.mkMatch [] 0).
Proof. reflexivity. Qed.

Lemma best_fold_invariant (i : nat) (base : Client.Doc)
    (l : list (nat * Client.Doc)) :
  forall best,
    let r := fold_left (bestStep i base) l best in
    (Client.pct best <= Client.pct r)%Q
    /\ (forall j other, In (j, other) l -> j <> i ->
          (similarityTo base other <= Client.pct r)%Q)
    /\ (r = best
        \/ exists j other,
             In (j, other) l /\ j <> i
             /\ Client.matchName r = Client.name other
             /\ Client.pct r = similarityTo base other
             /\ (Client.pct best < Client.pct r)%Q).
Proof.
  induction l as [|[j other] l IH]; intro best; cbn [fold_left].
  - split; [apply Qle_refl|]. split; [intros ? ? []|]. now left.
  - specialize (IH (bestStep i base best (j, other))).
    cbv zeta in IH. destruct IH as [I1 [I2 I3]].
    set (r := fold_left (bestStep i base) l (bestStep i base best (j, other)))
      in *.
    assert (S : (Client.pct best
                 <= Client.pct (bestStep i base best (j, other)))%Q
                /\ (j <> i ->
                    (similarityTo base other
                     <= Client.pct (bestStep i base best (j, other)))%Q)
                /\ (bestStep i base best (j, other) = best
                    \/ (j <> i
                        /\ bestStep i base best (j, other)
                           = Client.mkMatch (Client.name other)
                               (similarityTo base other)
                        /\ (Client.pct best < similarityTo base other)%Q))).
    { unfold bestStep. fold (similarityTo base other).
      destruct (j =? i) eqn:E.
      - apply Nat.eqb_eq in E. split; [apply Qle_refl|].
        split; [intro; contradiction | now left].
      - apply Nat.eqb_neq in E.
        destruct (Qltb (Client.pct best) (similarityTo base other)) eqn:Q1.
        + apply Qltb_lt in Q1. split; [apply Qlt_le_weak; exact Q1|].
          split; [intros _; apply Qle_refl|]. right. tauto.
        + split; [apply Qle_refl|]. split; [|now left]. intros _.
          apply Qnot_lt_le. intro L. apply Qltb_lt in L. congruence. }
    destruct S as [S1 [S2 S3]].
    split; [eapply Qle_trans; eassumption|]. split.
    + intros j' other' [H | H] Hj.
      * injection H as <- <-. eapply Qle_trans; [apply S2; exact Hj | exact I1].
      * exact (I2 j' other' H Hj).
    + destruct I3 as [I3 | [j' [other' [H1 [H2 [H3 [H4 H5]]]]]]].
      * rewrite I3. destruct S3 as [S3 | [Hj [S3 S4]]]; [now left|].
        right. exists j, other. rewrite S3. cbn [Client.matchName Client.pct].
        split; [now left|]. tauto.
      * right. exists j', other'. split; [now right|].
        split; [exact H2|]. split; [exact H3|]. split; [exact H4|].
        eapply Qle_lt_trans; eassumption.
Qed.

(** X7.  The similarity percentage lies between 0 and 100 for all lists
    of words. *)
Theorem X7_similarity_in_range (inputWords referenceWords : list str) :
  (0 <= Client.computeSimilarityPercentage inputWords referenceWords
   <= 100)%Q.
Proof. apply similarity_range. Qed.

Lemma bestMatch_facts (processed : list Client.Doc) (i : nat)
    (base : Client.Doc) :
  let best := Client.bestMatch processed i base in
  (forall j other, nth_error processed j = Some other -> j <> i ->
     (similarityTo base other <= Client.pct best)%Q)
  /\ (best = Client.mkMatch [] 0
      \/ exists j other,
           nth_error processed j = Some other /\ j <> i
           /\ Client.matchName best = Client.name other
           /\ Client.pct best = similarityTo base other
           /\ (0 < Client.pct best)%Q).
Proof.
  cbv zeta. rewrite bestMatch_fold.
  destruct (best_fold_invariant i base
              (combine (seq 0 (length processed)) processed)
              (Client.mkMatch [] 0)) as [_ [I2 I3]].
  split.
  - intros j other H Hj. apply (I2 j other); [|exact Hj].
    apply combine_seq_nth_error. rewrite Nat.sub_0_r. split; [lia | exact H].
  - destruct I3 as [I3 | [j [other [H1 [H2 [H3 [H4 H5]]]]]]]; [now left|].
    right. exists j, other. apply combine_seq_nth_error in H1.
    rewrite Nat.sub_0_r in H1. cbn [Client.pct] in H5. tauto.
Qed.

(** X8.  The best match of a document is a maximum over the other
    documents of the batch: no other document is more similar to it
    than the reported percentage, which lies between 0 and 100, and the
    report is either the default (empty name, 0) or the name and the
    similarity of another document of the batch, with a percentage
    above 0. *)
Theorem X8_best_match_is_a_maximum
    (processed : list Client.Doc) (i j : nat) (base other : Client.Doc)
    (in_batch : nth_error processed j = Some other)
    (another : j <> i) :
  let best := Client.bestMatch processed i base in
  (similarityTo base other <= Client.pct best)%Q
  /\ (0 <= Client.pct best <= 100)%Q
  /\ (best = Client.mkMatch [] 0
      \/ exists j' other',
           nth_error processed j' = Some other' /\ j' <> i
           /\ Client.matchName best = Client.name other'
           /\ Client.pct best = similarityTo base other'
           /\ (0 < Client.pct best)%Q).
Proof.
  cbv zeta. destruct (bestMatch_facts processed i base) as [M D].
  split; [exact (M j other in_batch another)|]. split; [|exact D].
  destruct D as [D | [j' [o' [_ [_ [_ [D _]]]]]]].
  - rewrite D. split; discriminate.
  - rewrite D. apply similarity_range.
Qed.

Lemma X8_best_match_witness :
  let d1 := Client.mkDoc (lit "a.txt") 10 (lit "the cat sat") in
  let d2 := Client.mkDoc (lit "b.txt") 10 (lit "the dog sat") in
  nth_error [d1; d2] 1 = Some d2
  /\ 1 <> 0
  /\ (similarityTo d1 d2 <= Client.pct (Client.bestMatch [d1; d2] 0 d1))%Q
  /\ Client.matchName (Client.bestMatch [d1; d2] 0 d1) = lit "b.txt".
Proof.
  intros d1 d2.
  assert (N : nth_error [d1; d2] 1 = Some d2) by reflexivity.
  assert (D : 1 <> 0) by discriminate.
  destruct (X8_best_match_is_a_maximum [d1; d2] 0 1 d1 d2 N D) as [M _].
  split; [exact N|]. split; [exact D|]. split; [exact M | reflexivity].
Defined.

(** X9.  When another document of the batch has the same words as a
    document that has at least one word, the best match of that
    document is reported with 100 percent and the name of a document
    whose similarity is 100. *)
Theorem X9_copy_is_matched_at_100
    (processed : list Client.Doc) (i j : nat) (base other : Client.Doc)
    (in_batch : nth_error processed j = Some other)
    (another : j <> i)
    (same_words :
       Client.normalizeToWords (Client.docText other)
       = Client.normalizeToWords (Client.docText base))
    (has_words : Client.normalizeToWords (Client.docText base) <> []) :
  let best := Client.bestMatch processed i base in
  (Client.pct best == 100)%Q
  /\ exists j' other',
       nth_error processed j' = Some other' /\ j' <> i
       /\ Client.matchName best = Client.name other'
       /\ (similarityTo base other' == 100)%Q.
Proof.
  cbv zeta. destruct (bestMatch_facts processed i base) as [M D].
  pose proof (M j other in_batch another) as L.
  assert (S : (similarityTo base other == 100)%Q).
  { unfold similarityTo. rewrite same_words.
    unfold Client.computeSimilarityPercentage.
    destruct (Client.normalizeToWords (Client.docText base)) as [|w ws] eqn:E;
      [contradiction|].
    rewrite common_self.
    assert (P : (0 < ofNat (length (w :: ws)))%Q)
      by (apply ofNat_pos; discriminate).
    field. intro Z0. rewrite Z0 in P. discriminate P. }
  rewrite S in L.
  destruct D as [D | [j' [o' [D1 [D2 [D3 [D4 D5]]]]]]].
  - rewrite D in L. cbn [Client.pct] in L. lra.
  - pose proof (similarity_range
                  (Client.normalizeToWords (Client.docText base))
                  (Client.normalizeToWords (Client.docText o'))) as [_ U].
    fold (similarityTo base o') in U.
    assert (Q100 : (Client.pct (Client.bestMatch processed i base) == 100)%Q).
    { apply Qle_antisym; [rewrite D4; exact U | exact L]. }
    split; [exact Q100|]. exists j', o'.
    split; [exact D1|]. split; [exact D2|]. split; [exact D3|].
    rewrite <- D4. exact Q100.
Qed.

Lemma X9_copy_witness :
  let d1 := Client.mkDoc (lit "a.txt") 10 (lit "The cat sat.") in
  let d2 := Client.mkDoc (lit "c.txt") 10 (lit "no words shared") in
  let d3 := Client.mkDoc (lit "b.txt") 12 (lit "the CAT sat!") in
  nth_error [d1; d2; d3] 2 = Some d3
  /\ 2 <> 0
  /\ Client.normalizeToWords (Client.docText d3)
     = Client.normalizeToWords (Client.docText d1)
  /\ Client.normalizeToWords (Client.docText d1) <> []
  /\ (Client.pct (Client.bestMatch [d1; d2; d3] 0 d1) == 100)%Q
  /\ Client.matchName (Client.bestMatch [d1; d2; d3] 0 d1) = lit "b.txt".
Proof.
  intros d1 d2 d3.
  assert (N : nth_error [d1; d2; d3] 2 = Some d3) by reflexivity.
  assert (D : 2 <> 0) by discriminate.
  assert (W : Client.normalizeToWords (Client.docText d3)
              = Client.normalizeToWords (Client.docText d1))
    by reflexivity.
  assert (H : Client.normalizeToWords (Client.docText d1) <> [])
    by discriminate.
  destruct (X9_copy_is_matched_at_100 [d1; d2; d3] 0 2 d1 d3 N D W H)
    as [Q100 _].
  split; [exact N|]. split; [exact D|]. split; [exact W|].
  split; [exact H|]. split; [exact Q100 | reflexivity].
Defined.

(** ** Sorting *)

Section SortFacts.

Variable A : Type.
Variable cmp : A -> A -> Z.

Let before (a b : A) : Prop := (cmp a b <= 0)%Z.

Hypothesis before_total : forall a b, before a b \/ before b a.
Hypothesis before_trans : forall a b c, before a b -> before b c -> before a c.

Lemma insertBy_perm (x : A) (l : list A) :
  Permutation (Client.insertBy cmp x l) (x :: l).
Proof.
  induction l as [|y l IH]; simpl; [apply Permutation_refl|].
  destruct (cmp x y <=? 0)%Z; [apply Permutation_refl|].
  eapply perm_trans; [apply perm_skip; exact IH | apply perm_swap].
Qed.

Lemma sortBy_perm (l : list A) : Permutation (Client.sortBy cmp l) l.
Proof.
  induction l as [|x l IH]; simpl; [apply perm_nil|].
  eapply perm_trans; [apply insertBy_perm | apply perm_skip; exact IH].
Qed.

Lemma insertBy_sorted (x : A) (l : list A) :
  StronglySorted before l -> StronglySorted before (Client.insertBy cmp x l).
Proof.
  induction 1 as [|y l S IH F]; simpl.
  - constructor; constructor.
  - destruct (cmp x y <=? 0)%Z eqn:E.
    + apply Z.leb_le in E. constructor; [constructor; assumption|].
      constructor; [exact E|].
      eapply Forall_impl; [|exact F]. intros z Hz.
      exact (before_trans x y z E Hz).
    + apply Z.leb_gt in E. constructor; [exact IH|].
      apply insertBy_Forall; [|exact F].
      destruct (before_total x y) as [H | H]; [unfold before in H; lia|].
      exact H.
Qed.

Lemma sortBy_sorted (l : list A) : StronglySorted before (Client.sortBy cmp l).
Proof.
  induction l as [|x l IH]; simpl; [constructor|].
  apply insertBy_sorted. exact IH.
Qed.

End SortFacts.

Lemma sorted_app_inv {A : Type} (R : A -> A -> Prop) (l1 l2 : list A) :
  StronglySorted R (l1 ++ l2) ->
  StronglySorted R l1
  /\ forall a b, In a l1 -> In b l2 -> R a b.
Proof.
  induction l1 as [|x l1 IH]; simpl; intro H.
  - split; [constructor | intros ? ? []].
  - apply StronglySorted_inv in H. destruct H as [S F].
    destruct (IH S) as [S1 C]. split.
    + constructor; [exact S1|]. apply Forall_app in F. tauto.
    + intros a b [<- | Ha] Hb.
      * rewrite Forall_forall in F. apply F. apply in_or_app. now right.
      * exact (C a b Ha Hb).
Qed.

Lemma sorted_map {A B : Type} (f : A -> B) (R : B -> B -> Prop) (l : list A) :
  StronglySorted (fun a b => R (f a) (f b)) l -> StronglySorted R (map f l).
Proof.
  induction 1 as [|x l S IH F]; simpl; constructor; [exact IH|].
  apply Forall_map. exact F.
Qed.

Lemma sorted_weaken {A : Type} (R R' : A -> A -> Prop) (l : list A) :
  (forall a b, In a l -> In b l -> R a b -> R' a b) ->
  StronglySorted R l -> StronglySorted R' l.
Proof.
  intros W S. induction S as [|x l S IH F]; constructor.
  - apply IH. intros a b Ha Hb. apply W; now right.
  - rewrite Forall_forall in *. intros b Hb.
    apply W; [now left | now right | exact (F b Hb)].
Qed.

Lemma NoDup_firstn {A : Type} (n : nat) (l : list A) :
  NoDup l -> NoDup (firstn n l).
Proof.
  intro H. rewrite <- (firstn_skipn n l) in H.
  exact (NoDup_app_remove_r _ _ H).
Qed.

(** ** The subject classifier *)

Lemma subject_keys_distinct : NoDup subjectKeys.
Proof.
  assert (E : nodup (list_eq_dec ascii_dec) subjectKeys = subjectKeys)
    by (vm_compute; reflexivity).
  rewrite <- E. apply NoDup_nodup.
Qed.

Lemma find_key {B : Type} (l : list (str * B)) (kv : str * B) :
  NoDup (map fst l) -> In kv l ->
  find (fun x => str_eqb (fst x) (fst kv)) l = Some kv.
Proof.
  induction l as [|x l IH]; intros N H; [contradiction|].
  simpl in N. inversion N as [|? ? Nx Nl]; subst. simpl.
  destruct H as [-> | H].
  - now rewrite str_eqb_refl.
  - destruct (str_eqb (fst x) (fst kv)) eqn:E.
    + apply str_eqb_eq in E. exfalso. apply Nx. rewrite E.
      apply in_map. exact H.
    + apply IH; assumption.
Qed.

Lemma scores_spec (text k : str) (n : nat) :
  In (k, n) (Client.subjectScores text)
  <-> In k subjectKeys /\ n = subjectHits text k /\ 0 < n.
Proof.
  unfold Client.subjectScores. rewrite filter_In, in_map_iff. cbn [snd].
  rewrite Nat.ltb_lt. split.
  - intros [[kv [E Hin]] Hn]. injection E as <- <-.
    split; [apply in_map; exact Hin|]. split; [|exact Hn].
    unfold subjectHits.
    rewrite (find_key Client.subjectMap kv subject_keys_distinct Hin).
    reflexivity.
  - intros [Hk [-> Hn]]. split; [|exact Hn].
    unfold subjectKeys in Hk. apply in_map_iff in Hk.
    destruct Hk as [kv [<- Hin]]. exists kv. split; [|exact Hin].
    unfold subjectHits.
    rewrite (find_key Client.subjectMap kv subject_keys_distinct Hin).
    reflexivity.
Qed.

Lemma NoDup_keys_filter {B : Type} (f : str * B -> bool) (l : list (str * B)) :
  NoDup (map fst l) -> NoDup (map fst (filter f l)).
Proof.
  induction l as [|x l IH]; simpl; intro N; [constructor|].
  inversion N as [|? ? Nx Nl]; subst.
  destruct (f x); [|apply IH; exact Nl].
  simpl. constructor; [|apply IH; exact Nl].
  intro H. apply Nx. apply in_map_iff in H. destruct H as [y [E Hy]].
  apply filter_In in Hy. rewrite <- E. apply in_map. tauto.
Qed.

Lemma scores_keys_distinct (text : str) :
  NoDup (map fst (Client.subjectScores text)).
Proof.
  unfold Client.subjectScores. apply NoDup_keys_filter.
  rewrite map_map. cbn [fst]. exact subject_keys_distinct.
Qed.

Lemma sortedScores_facts (text : str) :
  Permutation (sortedScores text) (Client.subjectScores text)
  /\ StronglySorted
       (fun a b => subjectHits text b <= subjectHits text a)
       (map fst (sortedScores text))
  /\ NoDup (map fst (sortedScores text))
  /\ Forall (fun k => In k subjectKeys /\ 0 < subjectHits text k)
       (map fst (sortedScores text)).
Proof.
  assert (P : Permutation (sortedScores text) (Client.subjectScores text))
    by apply sortBy_perm.
  assert (M : forall kv, In kv (sortedScores text) ->
                In (fst kv) subjectKeys
                /\ snd kv = subjectHits text (fst kv) /\ 0 < snd kv).
  { intros [k n] H. cbn [fst snd].
    exact (proj1 (scores_spec text k n) (Permutation_in _ P H)). }
  split; [exact P|]. split; [|split].
  - apply sorted_map.
    apply sorted_weaken
      with (R := fun a b : str * nat =>
                   (Z.of_nat (snd b) - Z.of_nat (snd a) <= 0)%Z).
    + intros a b Ha Hb H.
      destruct (M a Ha) as [_ [<- _]]. destruct (M b Hb) as [_ [<- _]]. lia.
    + apply sortBy_sorted; intros; lia.
  - eapply Permutation_NoDup;
      [apply Permutation_sym, Permutation_map; exact P|].
    apply scores_keys_distinct.
  - apply Forall_map, Forall_forall. intros kv H.
    destruct (M kv H) as [H1 [H2 H3]]. split; [exact H1|].
    rewrite <- H2. exact H3.
Qed.

Lemma detectSubjects_sorted (text : str) :
  Client.detectSubjects text
  = match map fst (sortedScores text) with
    | [] => [lit "General"]
    | l => firstn 3 l
    end.
Proof.
  unfold Client.detectSubjects, sortedScores. cbv zeta.
  destruct (map fst _); reflexivity.
Qed.

Lemma firstn_sorted {A : Type} (R : A -> A -> Prop) (n : nat) (l : list A) :
  StronglySorted R l -> StronglySorted R (firstn n l).
Proof.
  intro H. rewrite <- (firstn_skipn n l) in H.
  exact (proj1 (sorted_app_inv R _ _ H)).
Qed.

Lemma firstn_Forall {A : Type} (P : A -> Prop) (n : nat) (l : list A) :
  Forall P l -> Forall P (firstn n l).
Proof.
  intro H. rewrite <- (firstn_skipn n l) in H.
  apply Forall_app in H. tauto.
Qed.

Lemma subjects_shape_facts (text : str) :
  (Client.detectSubjects text = [lit "General"]
   /\ Forall (fun k => subjectHits text k = 0) subjectKeys)
  \/ (Forall (fun k => In k subjectKeys /\ 0 < subjectHits text k)
        (Client.detectSubjects text)
      /\ StronglySorted
           (fun a b => subjectHits text b <= subjectHits text a)
           (Client.detectSubjects text)).
Proof.
  rewrite detectSubjects_sorted.
  destruct (sortedScores_facts text) as [P [Srt [N F]]].
  destruct (map fst (sortedScores text)) as [|k l] eqn:E.
  - left. split; [reflexivity|].
    destruct (sortedScores text) as [|x xs]; [|discriminate E].
    apply Permutation_nil in P.
    apply Forall_forall. intros key Hk.
    destruct (subjectHits text key) as [|n] eqn:H; [reflexivity|].
    exfalso. assert (I : In (key, S n) (Client.subjectScores text)).
    { apply (proj2 (scores_spec text key (S n))).
      split; [exact Hk|]. split; [now rewrite H | lia]. }
    rewrite P in I. exact I.
  - right.
    split; [apply firstn_Forall; exact F | apply firstn_sorted; exact Srt].
Qed.

(** X10.  [detectSubjects] returns between one and three distinct
    labels.  Either no subject of the table has a hit and the result is
    General alone, or every label returned is a subject of the table
    with at least one hit and the labels come in order of decreasing
    hits. *)
Theorem X10_subjects_shape (text : str) :
  let result := Client.detectSubjects text in
  1 <= length result <= 3
  /\ NoDup result
  /\ ((result = [lit "General"]
       /\ Forall (fun k => subjectHits text k = 0) subjectKeys)
      \/ (Forall (fun k => In k subjectKeys /\ 0 < subjectHits text k) result
          /\ StronglySorted
               (fun a b => subjectHits text b <= subjectHits text a)
               result)).
Proof.
  cbv zeta. split; [|split; [|apply subjects_shape_facts]].
  - rewrite detectSubjects_sorted.
    destruct (map fst (sortedScores text)) as [|k [|k2 [|k3 l]]];
      simpl; lia.
  - rewrite detectSubjects_sorted.
    destruct (sortedScores_facts text) as [_ [_ [N _]]].
    destruct (map fst (sortedScores text)) as [|k l].
    + repeat constructor. intros [].
    + apply NoDup_firstn. exact N.
Qed.

(** X11.  The labels returned are the best three: a subject of the
    table that has a hit and is not returned is left out of a result of
    three labels, each with at least as many hits. *)
Theorem X11_subjects_are_the_top_three (text subject : str)
    (known : In subject subjectKeys)
    (hit : 0 < subjectHits text subject)
    (left_out : ~ In subject (Client.detectSubjects text)) :
  length (Client.detectSubjects text) = 3
  /\ Forall (fun k => subjectHits text subject <= subjectHits text k)
       (Client.detectSubjects text).
Proof.
  rewrite detectSubjects_sorted in *.
  destruct (sortedScores_facts text) as [P [S _]].
  assert (I : In subject (map fst (sortedScores text))).
  { apply in_map_iff. exists (subject, subjectHits text subject).
    split; [reflexivity|]. apply (Permutation_in _ (Permutation_sym P)).
    apply (proj2 (scores_spec text subject (subjectHits text subject))).
    tauto. }
  destruct (map fst (sortedScores text)) as [|k l] eqn:E; [contradiction|].
  set (all := k :: l) in *.
  rewrite <- (firstn_skipn 3 all) in I, S.
  apply in_app_or in I. destruct I as [I | I]; [contradiction|].
  split.
  - apply firstn_length_le.
    destruct (le_lt_dec 3 (length all)) as [L | L]; [exact L|].
    rewrite skipn_all2 in I by lia. contradiction.
  - apply Forall_forall. intros x Hx.
    exact (proj2 (sorted_app_inv _ _ _ S) x subject Hx I).
Qed.

Lemma X11_top_three_witness :
  let mark := fun w : string => Client.BS :: lit w ++ [Client.BS] in
  let text :=
    concat
      (map mark ["sql"; "sql"; "tcp"; "tcp"; "cache"; "cache"; "stack"]%string)
  in
  In (lit "Data Structures") subjectKeys
  /\ 0 < subjectHits text (lit "Data Structures")
  /\ ~ In (lit "Data Structures") (Client.detectSubjects text)
  /\ length (Client.detectSubjects text) = 3.
Proof.
  intros mark text.
  assert (K : In (lit "Data Structures") subjectKeys)
    by (vm_compute; auto 20).
  assert (H : 0 < subjectHits text (lit "Data Structures"))
    by (vm_compute; lia).
  assert (L : ~ In (lit "Data Structures") (Client.detectSubjects text)).
  { vm_compute. intros [E | [E | [E | []]]]; discriminate E. }
  destruct (X11_subjects_are_the_top_three text (lit "Data Structures") K H L)
    as [T _].
  split; [exact K|]. split; [exact H|]. split; [exact L | exact T].
Defined.

Lemma in_allChars (c : ascii) : In c allChars.
Proof.
  unfold allChars. apply in_map_iff. exists (code c). split.
  - apply ascii_nat_embedding.
  - apply in_seq. pose proof (nat_ascii_bounded c). unfold code. lia.
Qed.

Lemma startsWithOnly_matchAt (c : ascii) (r : re) (prev : option ascii)
    (s : str) :
  startsWithOnly c r = true -> Forall (fun x => x <> c) s ->
  matchAt r prev s = None.
Proof.
  intros R H. destruct r as [| |a b| | | | |]; try discriminate R.
  destruct a as [|q| | | | | |]; try discriminate R.
  unfold matchAt. simpl. destruct H as [|x s Hx _]; [reflexivity|].
  cbn [startsWithOnly] in R. rewrite forallb_forall in R.
  specialize (R x (in_allChars x)). apply orb_true_iff in R.
  destruct R as [R | R].
  - apply Ascii.eqb_eq in R. contradiction.
  - apply negb_true_iff in R. rewrite R. reflexivity.
Qed.

Lemma startsWithOnly_scan (c : ascii) (r : re) (s : str) :
  startsWithOnly c r = true -> Forall (fun x => x <> c) s ->
  forall prev skip, scan r prev s skip = [].
Proof.
  intros R H. induction H as [|x s Hx Hs IH]; intros prev skip; simpl.
  - destruct skip; [|reflexivity].
    rewrite (startsWithOnly_matchAt c r prev [] R); [reflexivity | constructor].
  - destruct skip; [|apply IH].
    rewrite (startsWithOnly_matchAt c r prev (x :: s) R);
      [apply IH | constructor; assumption].
Qed.

(** Apart from two subjects, every pattern of the table begins with the
    character U+0008. *)
Lemma subject_patterns_start_with_backspace :
  forallb
    (fun kv =>
       str_eqb (fst kv) (lit "Programming")
       || str_eqb (fst kv) (lit "Web Development")
       || forallb
            (fun p =>
               match Client.compile p with
               | Some r => startsWithOnly Client.BS r
               | None => true
               end)
            (snd kv))
    Client.subjectMap = true.
Proof. vm_compute. reflexivity. Qed.

Lemma toLowerChar_backspace (c : ascii) :
  c <> Client.BS -> toLowerChar c <> Client.BS.
Proof.
  each_char c; intros H E; try discriminate E. apply H. reflexivity.
Qed.

Lemma hits_without_backspace (text k : str) :
  Forall (fun c => c <> Client.BS) text ->
  k <> lit "Programming" -> k <> lit "Web Development" ->
  subjectHits text k = 0.
Proof.
  intros H N1 N2. unfold subjectHits.
  destruct (find (fun kv => str_eqb (fst kv) k) Client.subjectMap)
    as [kv|] eqn:E; [|reflexivity].
  apply find_some in E. destruct E as [Hin Hk]. apply str_eqb_eq in Hk.
  pose proof subject_patterns_start_with_backspace as A.
  rewrite forallb_forall in A. specialize (A kv Hin).
  rewrite !orb_true_iff in A. destruct A as [[A | A] | A].
  - apply str_eqb_eq in A. congruence.
  - apply str_eqb_eq in A. congruence.
  - rewrite forallb_forall in A. unfold Client.subjectCount.
    apply sumNat_zero, Forall_map, Forall_forall. intros p Hp.
    specialize (A p Hp). unfold Client.patternHits.
    destruct (Client.compile p) as [r|]; [|reflexivity].
    unfold matchAll. rewrite (startsWithOnly_scan Client.BS); [reflexivity | exact A |].
    unfold toLowerCase. apply Forall_map.
    eapply Forall_impl; [|exact H]. apply toLowerChar_backspace.
Qed.

(** X12.  On a text without the character U+0008, [detectSubjects]
    never returns a label other than General, Programming and Web
    Development: the patterns of the nine other subjects all begin with
    that character. *)
Theorem X12_subjects_without_backspace (text : str)
    (no_backspace : Forall (fun c => c <> Client.BS) text) :
  Forall
    (fun k =>
       k = lit "General" \/ k = lit "Programming"
       \/ k = lit "Web Development")
    (Client.detectSubjects text).
Proof.
  destruct (subjects_shape_facts text) as [[E _] | [F _]].
  - rewrite E. constructor; [now left | constructor].
  - eapply Forall_impl; [|exact F]. intros k [_ Hk].
    destruct (list_eq_dec ascii_dec k (lit "Programming")) as [P | P];
      [tauto|].
    destruct (list_eq_dec ascii_dec k (lit "Web Development")) as [W | W];
      [tauto|].
    rewrite (hits_without_backspace text k no_backspace P W) in Hk. lia.
Qed.

Lemma X12_without_backspace_witness :
  let text := lit "SELECT name FROM users; a stack, a queue and a kernel" in
  Forall (fun c => c <> Client.BS) text
  /\ Forall
       (fun k =>
          k = lit "General" \/ k = lit "Programming"
          \/ k = lit "Web Development")
       (Client.detectSubjects text).
Proof.
  intro text.
  assert (N : Forall (fun c => c <> Client.BS) text).
  { unfold text. repeat constructor; discriminate. }
  split; [exact N | exact (X12_subjects_without_backspace text N)].
Defined.

(** ** The highlighted sentences *)

Lemma NoDup_map_filter {A B : Type} (f : A -> B) (g : A -> bool) (l : list A) :
  NoDup (map f l) -> NoDup (map f (filter g l)).
Proof.
  induction l as [|x l IH]; simpl; intro N; [constructor|].
  inversion N as [|? ? Nx Nl]; subst.
  destruct (g x); [|apply IH; exact Nl].
  simpl. constructor; [|apply IH; exact Nl].
  intro H. apply Nx. apply in_map_iff in H. destruct H as [y [E Hy]].
  apply filter_In in Hy. rewrite <- E. apply in_map. tauto.
Qed.

Lemma combine_seq_indices {A : Type} (l : list A) (start : nat) :
  map fst (combine (seq start (length l)) l) = seq start (length l).
Proof.
  revert start. induction l as [|x l IH]; intro start; simpl; [reflexivity|].
  now rewrite IH.
Qed.

Lemma candidates_facts (sentences : list str) :
  NoDup (map Client.c_i (Client.candidatesOf sentences))
  /\ Forall
       (fun c =>
          Client.c_i c < length sentences
          /\ 3 <= Client.signalCount
                    (Client.analyzeSentenceSignals
                       (nth (Client.c_i c) sentences [])))
       (Client.candidatesOf sentences).
Proof.
  unfold Client.candidatesOf. split.
  - apply NoDup_map_filter. rewrite map_map.
    rewrite (map_ext _ fst) by (intros [i x]; reflexivity).
    rewrite combine_seq_indices. apply seq_NoDup.
  - apply Forall_forall. intros c Hc. apply filter_In in Hc.
    destruct Hc as [Hc H3]. apply in_map_iff in Hc.
    destruct Hc as [[i x] [E Hin]]. subst c. cbn [Client.c_i Client.c_count] in *.
    apply Nat.leb_le in H3.
    pose proof (in_combine_l _ _ _ _ Hin) as Hi. apply in_seq in Hi.
    apply (combine_seq_nth []) in Hin. destruct Hin as [_ Hn].
    rewrite Nat.sub_0_r in Hn.
    split; [lia|].
    replace (nth i sentences []) with x by (symmetry; exact Hn). exact H3.
Qed.

Lemma select_indices (cap : nat) (candidates : list Client.Candidate) :
  forall acc,
    NoDup (snd acc ++ map Client.c_i candidates) ->
    let r := fold_left (Client.accept cap) candidates acc in
    NoDup (snd r)
    /\ forall i, In i (snd r) ->
         In i (snd acc) \/ In i (map Client.c_i candidates).
Proof.
  induction candidates as [|c l IH]; intros [sum indices] N; cbn [fold_left].
  - cbn [map] in N. rewrite app_nil_r in N. split; [exact N | now left].
  - cbn [snd map] in N.
    assert (E : Client.accept cap (sum, indices) c
                = if sum + Client.c_len c <=? cap
                  then (sum + Client.c_len c, indices ++ [Client.c_i c])
                  else (sum, indices)) by reflexivity.
    rewrite E. clear E. destruct (sum + Client.c_len c <=? cap).
    + destruct (IH (sum + Client.c_len c, indices ++ [Client.c_i c]))
        as [I1 I2].
      { cbn [snd]. rewrite <- app_assoc. exact N. }
      split; [exact I1|]. intros i Hi. destruct (I2 i Hi) as [H | H].
      * cbn [snd] in H. apply in_app_or in H. destruct H as [H | [<- | []]];
          [now left | right; now left].
      * right. now right.
    + destruct (IH (sum, indices)) as [I1 I2].
      { cbn [snd]. exact (NoDup_remove_1 _ _ _ N). }
      split; [exact I1|]. intros i Hi. destruct (I2 i Hi) as [H | H];
        [now left | right; now right].
Qed.

Lemma totalLength_positive (text : str) (sentences : list str) :
  1 <= Client.totalLength text sentences.
Proof.
  unfold Client.totalLength. destruct (length text); lia.
Qed.

Lemma cap_le_30_percent (n : nat) :
  (ofNat (Client.coverageCap n) <= ofNat n * (30 # 100))%Q.
Proof.
  unfold Client.coverageCap, ofNat at 1.
  assert (P : (0 <= Qfloor (ofNat n * (30 # 100)))%Z).
  { rewrite <- (Qfloor_Z 0). apply Qfloor_resp_le.
    apply Qmult_le_0_compat; [apply ofNat_nonneg | discriminate]. }
  rewrite Z2Nat.id by exact P. apply Qfloor_le.
Qed.

(** X13.  The highlighted indices are distinct indices of sentences
    that show at least three signals, and the highlighted percentage is
    an integer between 0 and 30. *)
Theorem X13_highlighted_sentences (text : str) (docSentences : list str) :
  let sentences := Client.delimitedSentences text docSentences in
  let h := Client.highlight text docSentences in
  NoDup (Client.highlightedIndices h)
  /\ Forall
       (fun i =>
          i < length sentences
          /\ 3 <= Client.signalCount
                    (Client.analyzeSentenceSignals (nth i sentences [])))
       (Client.highlightedIndices h)
  /\ (0 <= Client.highlightPercent h <= 30)%Z.
Proof.
  intros sentences h. unfold h, Client.highlight. fold sentences.
  set (T := Client.totalLength text sentences).
  set (cap := Client.coverageCap T).
  set (cands := Client.sortBy Client.compareCandidates
                  (Client.candidatesOf sentences)).
  destruct (candidates_facts sentences) as [N F].
  assert (P : Permutation cands (Client.candidatesOf sentences))
    by apply sortBy_perm.
  assert (N' : NoDup (map Client.c_i cands)).
  { eapply Permutation_NoDup;
      [apply Permutation_sym, Permutation_map; exact P | exact N]. }
  pose proof (select_within_cap cap cands (0, []) (Nat.le_0_l _)) as W.
  destruct (select_indices cap cands (0, []) N') as [S1 S2].
  unfold Client.select.
  destruct (fold_left (Client.accept cap) cands (0, [])) as [sum indices].
  cbn [fst snd Client.highlightedIndices Client.highlightPercent] in *.
  split; [exact S1|]. split.
  - apply Forall_forall. intros i Hi. destruct (S2 i Hi) as [[] | H].
    apply in_map_iff in H. destruct H as [c [<- Hc]].
    rewrite Forall_forall in F. apply F. exact (Permutation_in _ P Hc).
  - pose proof (totalLength_positive text sentences) as TP. fold T in TP.
    assert (Tq : (0 < ofNat T)%Q) by (apply ofNat_pos; lia).
    pose proof (cap_le_30_percent T) as C. fold cap in C.
    assert (Sq : (ofNat sum <= ofNat cap)%Q).
    { unfold ofNat. rewrite <- Zle_Qle. lia. }
    pose proof (ofNat_nonneg sum) as S0.
    split.
    + apply Math_round_nonneg. apply Qmult_le_0_compat; [|discriminate].
      apply Qdiv_nonneg; [exact S0 | apply ofNat_nonneg].
    + apply Math_round_le.
      assert (D : (ofNat sum / ofNat T <= 30 # 100)%Q).
      { apply Qle_shift_div_r; [exact Tq | lra]. }
      change (inject_Z 30) with (30 # 1)%Q. lra.
Qed.

(** ** The range of the content-quality mark *)

Lemma Qmin_upper (a b : Q) : (Qmin a b <= a)%Q.
Proof.
  unfold Qmin. destruct (Qle_bool a b) eqn:E; [apply Qle_refl|].
  apply Qle_bool_false. exact E.
Qed.

Lemma Qmin_lower (a b c : Q) : (c <= a)%Q -> (c <= b)%Q -> (c <= Qmin a b)%Q.
Proof.
  intros A B. unfold Qmin. destruct (Qle_bool a b); assumption.
Qed.

Lemma Qmax_lower (a b : Q) : (a <= Qmax a b)%Q.
Proof.
  unfold Qmax. destruct (Qle_bool a b) eqn:E; [|apply Qle_refl].
  apply Qle_bool_iff. exact E.
Qed.

Lemma Qmax_upper (a b c : Q) : (a <= c)%Q -> (b <= c)%Q -> (Qmax a b <= c)%Q.
Proof.
  intros A B. unfold Qmax. destruct (Qle_bool a b); assumption.
Qed.

Lemma ofNat_le (a b : nat) : a <= b -> (ofNat a <= ofNat b)%Q.
Proof.
  intro H. unfold ofNat. rewrite <- Zle_Qle. lia.
Qed.

Lemma Math_round_ge (q : Q) (z : Z) :
  (inject_Z z <= q + (1 # 2))%Q -> (z <= Math_round q)%Z.
Proof.
  intro H. unfold Math_round. rewrite <- (Qfloor_Z z).
  apply Qfloor_resp_le. exact H.
Qed.

Lemma Math_round_lt (q : Q) (z : Z) :
  (q + (1 # 2) < inject_Z (z + 1))%Q -> (Math_round q <= z)%Z.
Proof.
  intro H. unfold Math_round.
  pose proof (Qfloor_le (q + (1 # 2))) as F.
  assert (L : (inject_Z (Qfloor (q + (1 # 2))) < inject_Z (z + 1))%Q)
    by (eapply Qle_lt_trans; eassumption).
  rewrite <- Zlt_Qlt in L. lia.
Qed.

Ltac closed_bound := split; vm_compute; discriminate.

Lemma structure_range (Math_sqrt : Q -> Q) (fd : Client.FileData) :
  (32 <= Client.computeStructureScore Math_sqrt fd <= 86)%Q.
Proof.
  unfold Client.computeStructureScore. cbv zeta.
  destruct (map _ (Client.sentencesWithDelimiters fd));
    split_ifs; closed_bound.
Qed.

Lemma clarity_range (Math_sqrt : Q -> Q) (fd : Client.FileData) :
  (30 <= Client.computeClarityScore Math_sqrt fd <= 83)%Q.
Proof.
  unfold Client.computeClarityScore. cbv zeta.
  split_ifs; closed_bound.
Qed.

Lemma language_range (fd : Client.FileData) :
  (16 <= Client.computeLanguageQuality fd <= 96)%Q.
Proof.
  unfold Client.computeLanguageQuality. cbv zeta.
  set (formal := (ofNat _ / ofNat _ * 30 * 100 / 30)%Q).
  set (punct := (ofNat _ / ofNat _ * 300)%Q).
  assert (F0 : (0 <= formal)%Q).
  { unfold formal. apply Qdiv_nonneg; [|discriminate].
    repeat (apply Qmult_le_0_compat; [|discriminate]).
    apply Qdiv_nonneg; apply ofNat_nonneg. }
  assert (P0 : (0 <= punct)%Q).
  { unfold punct. apply Qmult_le_0_compat; [|discriminate].
    apply Qdiv_nonneg; apply ofNat_nonneg. }
  pose proof (Qmin_upper 100 formal) as F1.
  pose proof (Qmin_lower 100 formal 0 ltac:(discriminate) F0) as F2.
  pose proof (Qmin_upper 100 punct) as P1.
  pose proof (Qmin_lower 100 punct 0 ltac:(discriminate) P0) as P2.
  split_ifs; split; lra.
Qed.

Lemma depth_range (fd : Client.FileData) :
  (25 <= Client.computeContentDepth fd <= 93)%Q.
Proof.
  unfold Client.computeContentDepth. cbv zeta.
  set (depth := (ofNat _ / ofNat _ * 20 * 100)%Q).
  assert (D0 : (0 <= depth)%Q).
  { unfold depth. repeat (apply Qmult_le_0_compat; [|discriminate]).
    apply Qdiv_nonneg; apply ofNat_nonneg. }
  pose proof (Qmin_upper 100 depth) as D1.
  pose proof (Qmin_lower 100 depth 0 ltac:(discriminate) D0) as D2.
  split_ifs; split; lra.
Qed.

Lemma originality_range (fd : Client.FileData) :
  (30 <= Client.computeOriginality fd <= 95)%Q.
Proof.
  unfold Client.computeOriginality. cbv zeta.
  set (rate := (ofNat _ / ofNat _ * 100)%Q).
  assert (R0 : (0 <= rate)%Q).
  { unfold rate. apply Qmult_le_0_compat; [|discriminate].
    apply Qdiv_nonneg; apply ofNat_nonneg. }
  pose proof (Qmax_lower 20 (100 - rate * 2)) as M1.
  assert (M2 : (Qmax 20 (100 - rate * 2) <= 100)%Q)
    by (apply Qmax_upper; lra).
  split_ifs; split; lra.
Qed.

Lemma relevance_range (fd : Client.FileData) :
  (31 <= Client.computeRelevance fd <= 825 # 10)%Q.
Proof.
  unfold Client.computeRelevance. cbv zeta.
  set (proper := Nat.min 90 (Nat.max 40 _)).
  set (number := Nat.min 85 _).
  set (question := if 0 <? _ then 70 else 50).
  pose proof (ofNat_le 40 proper ltac:(unfold proper; lia)) as A1.
  pose proof (ofNat_le proper 90 ltac:(unfold proper; lia)) as A2.
  pose proof (ofNat_nonneg number) as B1.
  pose proof (ofNat_le number 85 ltac:(unfold number; lia)) as B2.
  pose proof (ofNat_le 50 question
                ltac:(unfold question; destruct (0 <? _); lia)) as C1.
  pose proof (ofNat_le question 70
                ltac:(unfold question; destruct (0 <? _); lia)) as C2.
  change (ofNat 40) with 40%Q in A1. change (ofNat 90) with 90%Q in A2.
  change (ofNat 85) with 85%Q in B2.
  change (ofNat 50) with 50%Q in C1. change (ofNat 70) with 70%Q in C2.
  split; lra.
Qed.

Lemma consistency_range (fd : Client.FileData) :
  (50 <= Client.computeConsistency fd <= 915 # 10)%Q.
Proof.
  unfold Client.computeConsistency. cbv zeta.
  set (transition := if 0 <? _ then Nat.min 90 _ else 50).
  set (flow := if 3 <? _ then Nat.min 95 _ else 50).
  set (coherence := if 1 <? _ then Nat.min 90 _ else 50).
  pose proof (ofNat_le 50 transition
                ltac:(unfold transition; destruct (0 <? _); lia)) as A1.
  pose proof (ofNat_le transition 90
                ltac:(unfold transition; destruct (0 <? _); lia)) as A2.
  pose proof (ofNat_le 50 flow
                ltac:(unfold flow; destruct (3 <? _); lia)) as B1.
  pose proof (ofNat_le flow 95
                ltac:(unfold flow; destruct (3 <? _); lia)) as B2.
  pose proof (ofNat_le 50 coherence
                ltac:(unfold coherence; destruct (1 <? _); lia)) as C1.
  pose proof (ofNat_le coherence 90
                ltac:(unfold coherence; destruct (1 <? _); lia)) as C2.
  change (ofNat 50) with 50%Q in *. change (ofNat 90) with 90%Q in *.
  change (ofNat 95) with 95%Q in *.
  split; lra.
Qed.

Lemma finalScore_range (Math_sqrt : Q -> Q) (fd : Client.FileData) :
  ((2965 # 100) <= Client.finalScore Math_sqrt fd <= (8905 # 100))%Q.
Proof.
  unfold Client.finalScore.
  pose proof (structure_range Math_sqrt fd).
  pose proof (clarity_range Math_sqrt fd).
  pose proof (language_range fd).
  pose proof (depth_range fd).
  pose proof (originality_range fd).
  pose proof (relevance_range fd).
  pose proof (consistency_range fd).
  split; lra.
Qed.

(** X14.  The content-quality mark of a document that has at least one
    word lies between 30 and 89: the weighted sum of the seven
    sub-scores stays between 29.65 and 89.05, so that the clamp of line
    125 never acts. *)
Theorem X14_mark_between_30_and_89
    (Math_sqrt : Q -> Q) (fileData : Client.FileData)
    (has_words : Client.normalizeToWords (Client.text fileData) <> []) :
  (30 <= Client.computeAiContentScore Math_sqrt fileData <= 89)%Z
  /\ (Qmax 0 (Qmin 100 (Client.finalScore Math_sqrt fileData))
      == Client.finalScore Math_sqrt fileData)%Q.
Proof.
  destruct (finalScore_range Math_sqrt fileData) as [L U].
  set (f := Client.finalScore Math_sqrt fileData) in *.
  assert (E1 : Qmin 100 f = f).
  { unfold Qmin. destruct (Qle_bool 100 f) eqn:E; [|reflexivity].
    apply Qle_bool_iff in E. lra. }
  assert (E2 : Qmax 0 f = f).
  { unfold Qmax. destruct (Qle_bool 0 f) eqn:E; [reflexivity|].
    apply Qle_bool_false in E. lra. }
  split.
  - unfold Client.computeAiContentScore. fold f.
    destruct (Client.normalizeToWords (Client.text fileData));
      [contradiction|].
    rewrite E1, E2. split.
    + apply Math_round_ge. change (inject_Z 30) with 30%Q. lra.
    + apply Math_round_lt. change (inject_Z (89 + 1)) with 90%Q. lra.
  - rewrite E1, E2. reflexivity.
Qed.

Lemma X14_mark_witness :
  let fileData :=
    Client.mkFileData (lit "One small step.") [lit "One small step."]
      [0%Z] 0%Z [] 3 None None in
  Client.normalizeToWords (Client.text fileData) <> []
  /\ (30 <= Client.computeAiContentScore (fun x => x) fileData <= 89)%Z.
Proof.
  intro fileData.
  assert (W : Client.normalizeToWords (Client.text fileData) <> [])
    by discriminate.
  split; [exact W|].
  exact (proj1 (X14_mark_between_30_and_89 (fun x => x) fileData W)).
Defined.

(** ** The sentences of the client *)

Lemma matchAt_behind (q : ascii -> bool) (r : re) (prev : option ascii)
    (s : str) :
  matchAt (Seq (Behind q) r) prev s
  = match prev with
    | Some c => if q c then matchAt r prev s else None
    | None => None
    end.
Proof.
  unfold matchAt. cbn [run].
  destruct prev as [c|]; [destruct (q c)|]; reflexivity.
Qed.

Lemma unbroken_nil : unbroken [].
Proof.
  intros pre t w post E. destruct pre; discriminate E.
Qed.

Lemma unbroken_snoc (cur : str) (c : ascii) :
  unbroken (rev cur) ->
  (forall h r, cur = h :: r -> Client.isTerminator h = true ->
               isSpace c = false) ->
  unbroken (rev (c :: cur)).
Proof.
  intros U H pre t w post E Ht. cbn [rev] in E.
  assert (C : post = [] \/ exists post' x, post = post' ++ [x]).
  { destruct post as [|a l]; [left; reflexivity | right].
    destruct (@exists_last _ (a :: l)) as [l' [x E']]; [discriminate|].
    exists l', x. exact E'. }
  destruct C as [-> | [post' [x ->]]].
  - change (pre ++ [t; w]) with (pre ++ [t] ++ [w]) in E.
    rewrite app_assoc in E. apply app_inj_tail in E. destruct E as [E <-].
    apply (H t (rev pre)); [|exact Ht].
    rewrite <- (rev_involutive cur), E, rev_app_distr. reflexivity.
  - change (pre ++ t :: w :: post' ++ [x])
      with (pre ++ (t :: w :: post') ++ [x]) in E.
    rewrite app_assoc in E. apply app_inj_tail in E. destruct E as [E _].
    exact (U pre t w post' E Ht).
Qed.

Lemma unbroken_sub (a m b : str) : unbroken (a ++ m ++ b) -> unbroken m.
Proof.
  intros U pre t w post E Ht.
  apply (U (a ++ pre) t w (post ++ b)); [|exact Ht].
  rewrite E, <- !app_assoc. reflexivity.
Qed.

(** The pieces between the breaks: white space that follows an end
    mark. *)
Lemma split_unbroken (s : str) :
  forall prev skip cur,
    (cur <> [] -> skip = 0 /\ prev = hd_error cur) ->
    unbroken (rev cur) ->
    Forall unbroken
      (splitScan (Seq (Behind Client.isTerminator) (Plus (Cls isSpace)))
         prev s skip cur).
Proof.
  induction s as [|c s IH]; intros prev skip cur Hc U.
  - constructor; [exact U | constructor].
  - cbn [splitScan]. destruct skip as [|n].
    + rewrite matchAt_behind, matchAt_plus.
      assert (Push : (forall h, prev = Some h ->
                        Client.isTerminator h = true -> isSpace c = false) ->
                     Forall unbroken
                       (splitScan
                          (Seq (Behind Client.isTerminator)
                             (Plus (Cls isSpace)))
                          (Some c) s 0 (c :: cur))).
      { intro N. apply IH.
        - intros _. split; reflexivity.
        - apply unbroken_snoc; [exact U|].
          intros h r E Ht. apply (N h); [|exact Ht].
          destruct Hc as [_ Hp]; [rewrite E; discriminate|].
          rewrite Hp, E. reflexivity. }
      destruct prev as [h|].
      * destruct (Client.isTerminator h) eqn:Th.
        -- destruct (isSpace c) eqn:Sc.
           ++ constructor; [exact U|].
              apply IH; [intro N; contradiction | apply unbroken_nil].
           ++ apply Push. intros _ _ _. reflexivity.
        -- apply Push. intros h' E Ht. injection E as <-. congruence.
      * apply Push. intros h E. discriminate E.
    + destruct cur as [|x cur].
      * apply IH; [intro N; contradiction | apply unbroken_nil].
      * destruct Hc as [Hs _]; [discriminate | discriminate Hs].
Qed.

(** The pieces between the runs of a class hold no character of the
    class. *)
Lemma plus_pieces (p : ascii -> bool) (s : str) :
  forall prev skip cur,
    Forall (fun c => p c = false) cur ->
    Forall (Forall (fun c => p c = false))
      (splitScan (Plus (Cls p)) prev s skip cur).
Proof.
  induction s as [|c s IH]; intros prev skip cur Hc.
  - constructor; [apply Forall_rev; exact Hc | constructor].
  - cbn [splitScan]. destruct skip as [|n]; [|apply IH; exact Hc].
    rewrite matchAt_plus. destruct (p c) eqn:E.
    + constructor; [apply Forall_rev; exact Hc | apply IH; constructor].
    + apply IH. constructor; assumption.
Qed.

Lemma dropWhile_suffix (p : ascii -> bool) (s : str) :
  exists pre, s = pre ++ dropWhile p s.
Proof.
  induction s as [|c s [pre IH]]; [exists []; reflexivity|].
  simpl. destruct (p c).
  - exists (c :: pre). simpl. f_equal. exact IH.
  - exists []. reflexivity.
Qed.

Lemma trim_sub (s : str) : exists a b, s = a ++ trim s ++ b.
Proof.
  unfold trim, trimEnd, trimStart.
  destruct (dropWhile_suffix isSpace s) as [a Ea].
  destruct (dropWhile_suffix isSpace (rev (dropWhile isSpace s))) as [b Eb].
  exists a, (rev b).
  rewrite <- rev_app_distr, <- Eb, rev_involutive. exact Ea.
Qed.

Lemma trim_idempotent (s : str) : trim (trim s) = trim s.
Proof.
  destruct (trim s) as [|c0 r0] eqn:E; [reflexivity|]. rewrite <- E.
  unfold trim, trimEnd, trimStart in E.
  destruct (dropWhile isSpace s) as [|c r] eqn:D; [discriminate E|].
  pose proof (dropWhile_head _ _ _ D) as Hc.
  cbn [rev] in E.
  rewrite dropWhile_app_stop in E
    by (exists c, []; split; [reflexivity | exact Hc]).
  rewrite rev_app_distr in E. cbn [rev app] in E.
  apply trim_fixed.
  - exists c, (rev (dropWhile isSpace (rev r))).
    split; [|exact Hc].
    unfold trim, trimEnd, trimStart. rewrite D. cbn [rev].
    rewrite dropWhile_app_stop
      by (exists c, []; split; [reflexivity | exact Hc]).
    rewrite rev_app_distr. reflexivity.
  - unfold trim, trimEnd, trimStart. rewrite D.
    destruct (dropWhile isSpace (rev (c :: r))) as [|x y] eqn:D2.
    + exfalso. cbn [rev] in D2.
      rewrite dropWhile_app_stop in D2
        by (exists c, []; split; [reflexivity | exact Hc]).
      destruct (dropWhile isSpace (rev r)); discriminate D2.
    + exists (rev y), x. split; [reflexivity|].
      exact (dropWhile_head _ _ _ D2).
Qed.

(** X15.  Every sentence that the client splits off a text is not
    empty, begins and ends with a character that is no white space,
    holds no line feed, and holds no end mark followed by white space:
    the text is cut at every such place. *)
Theorem X15_client_sentences (text : str) :
  Forall
    (fun s =>
       s <> [] /\ trim s = s /\ unbroken s /\ ~ In Client.LF s)
    (Client.splitToSentences text).
Proof.
  unfold Client.splitToSentences. cbv zeta.
  set (joined := replaceAll (Plus (Chr Client.LF)) (lit " ") text).
  assert (NoLF : Forall (fun c => Ascii.eqb Client.LF c = false) joined).
  { unfold joined, replaceAll. apply join_chars.
    - constructor; [reflexivity | constructor].
    - unfold splitRe, Chr. apply plus_pieces. constructor. }
  assert (P1 : Forall unbroken
                 (splitRe
                    (Seq (Behind Client.isTerminator) (Plus (Cls isSpace)))
                    joined)).
  { unfold splitRe. apply split_unbroken.
    - intro N. contradiction.
    - apply unbroken_nil. }
  assert (P2 : Forall (Forall (fun c => Ascii.eqb Client.LF c = false))
                 (splitRe
                    (Seq (Behind Client.isTerminator) (Plus (Cls isSpace)))
                    joined)).
  { unfold splitRe. apply splitScan_pieces; [exact NoLF | constructor]. }
  apply Forall_forall. intros s Hs.
  apply filter_In in Hs. destruct Hs as [Hs Ht].
  apply in_map_iff in Hs. destruct Hs as [piece [<- Hp]].
  rewrite Forall_forall in P1, P2.
  split; [|split; [|split]].
  - intro E. rewrite E in Ht. discriminate Ht.
  - apply trim_idempotent.
  - destruct (trim_sub piece) as [a [b E]].
    apply (unbroken_sub a _ b). rewrite <- E. apply P1. exact Hp.
  - intro H.
    pose proof (trim_Forall _ piece (P2 piece Hp)) as F.
    rewrite Forall_forall in F. specialize (F _ H).
    rewrite Ascii.eqb_refl in F. discriminate F.
Qed.

(** ** Word counters *)

Lemma getOwn_setOwn_same (freq : freqObject) (w : str) (v : entry) :
  getOwn (setOwn freq w v) w = Some v.
Proof.
  induction freq as [|[k v0] r IH]; simpl.
  - now rewrite str_eqb_refl.
  - destruct (str_eqb k w) eqn:E; simpl; rewrite E; [reflexivity | exact IH].
Qed.

Lemma getOwn_setOwn_other (freq : freqObject) (w w' : str) (v : entry) :
  w' <> w -> getOwn (setOwn freq w v) w' = getOwn freq w'.
Proof.
  intro N. induction freq as [|[k v0] r IH]; simpl.
  - destruct (str_eqb w w') eqn:E; [|reflexivity].
    apply str_eqb_eq in E. congruence.
  - destruct (str_eqb k w) eqn:E; simpl.
    + destruct (str_eqb k w') eqn:E'; [|reflexivity].
      apply str_eqb_eq in E, E'. congruence.
    + rewrite IH. reflexivity.
Qed.

Lemma occurrences_snoc_same (seen : list str) (w : str) :
  occurrences w (seen ++ [w]) = occurrences w seen + 1.
Proof.
  unfold occurrences. rewrite count_occ_app. cbn [count_occ].
  destruct (list_eq_dec ascii_dec w w); [reflexivity | contradiction].
Qed.

Lemma occurrences_snoc_other (seen : list str) (w x : str) :
  w <> x -> occurrences w (seen ++ [x]) = occurrences w seen.
Proof.
  intro N. unfold occurrences. rewrite count_occ_app. cbn [count_occ].
  destruct (list_eq_dec ascii_dec x w); [congruence | apply Nat.add_0_r].
Qed.

Lemma bump_agrees (freq : freqObject) (seen : list str) (x : str) :
  (forall w, getOwn freq w = entryOf w (occurrences w seen)) ->
  forall w, getOwn (bump freq x) w = entryOf w (occurrences w (seen ++ [x])).
Proof.
  intros A w. unfold bump.
  destruct (list_eq_dec ascii_dec w x) as [->|N].
  - rewrite getOwn_setOwn_same, occurrences_snoc_same, (A x).
    unfold entryOf. destruct (occurrences x seen) as [|n]; simpl.
    + reflexivity.
    + destruct (inherited x); reflexivity.
  - rewrite getOwn_setOwn_other by exact N.
    rewrite occurrences_snoc_other by exact N. apply A.
Qed.

Lemma countWords_agrees (words : list str) :
  forall freq seen,
    (forall w, getOwn freq w = entryOf w (occurrences w seen)) ->
    forall w,
      getOwn (fold_left bump words freq) w
      = entryOf w (occurrences w (seen ++ words)).
Proof.
  induction words as [|x words IH]; intros freq seen A w; simpl.
  - rewrite app_nil_r. apply A.
  - change (x :: words) with ([x] ++ words). rewrite app_assoc.
    apply IH. apply bump_agrees. exact A.
Qed.

Lemma setOwn_keys (freq : freqObject) (w : str) (v : entry) :
  map fst (setOwn freq w v)
  = if existsb (str_eqb w) (map fst freq) then map fst freq
    else map fst freq ++ [w].
Proof.
  induction freq as [|[k v0] r IH]; simpl; [reflexivity|].
  destruct (str_eqb k w) eqn:E.
  - apply str_eqb_eq in E. subst k. rewrite str_eqb_refl. reflexivity.
  - assert (E' : str_eqb w k = false).
    { destruct (str_eqb w k) eqn:E'; [|reflexivity].
      apply str_eqb_eq in E'. subst k. now rewrite str_eqb_refl in E. }
    rewrite E'. simpl. rewrite IH.
    destruct (existsb (str_eqb w) (map fst r)); reflexivity.
Qed.

Lemma setOwn_NoDup (freq : freqObject) (w : str) (v : entry) :
  NoDup (map fst freq) -> NoDup (map fst (setOwn freq w v)).
Proof.
  intro H. rewrite setOwn_keys.
  destruct (existsb (str_eqb w) (map fst freq)) eqn:E; [exact H|].
  apply NoDup_app; [exact H | repeat constructor; intros [] |].
  intros k Hk [-> | []].
  apply (proj2 (existsb_str_In k (map fst freq))) in Hk. congruence.
Qed.

Lemma countWords_keys (words : list str) :
  forall freq,
    NoDup (map fst freq) -> NoDup (map fst (fold_left bump words freq)).
Proof.
  induction words as [|x words IH]; intros freq H; simpl; [exact H|].
  apply IH. unfold bump. apply setOwn_NoDup. exact H.
Qed.

Lemma getOwn_In (freq : freqObject) (w : str) (v : entry) :
  getOwn freq w = Some v -> In (w, v) freq.
Proof.
  induction freq as [|[k v0] r IH]; simpl; [discriminate|].
  destruct (str_eqb k w) eqn:E.
  - apply str_eqb_eq in E. intro H. injection H as <-. subst k. now left.
  - intro H. right. apply IH. exact H.
Qed.

Lemma In_getOwn (freq : freqObject) (w : str) (v : entry) :
  NoDup (map fst freq) -> In (w, v) freq -> getOwn freq w = Some v.
Proof.
  induction freq as [|[k v0] r IH]; simpl; intros N H; [contradiction|].
  inversion N as [|? ? Nk Nr]; subst.
  destruct H as [H | H].
  - injection H as -> ->. now rewrite str_eqb_refl.
  - destruct (str_eqb k w) eqn:E.
    + apply str_eqb_eq in E. subst k. exfalso. apply Nk.
      apply in_map_iff. exists (w, v). split; [reflexivity | exact H].
    + apply IH; assumption.
Qed.

Lemma countWords_spec (words : list str) (w : str) :
  getOwn (countWords words) w = entryOf w (occurrences w words).
Proof.
  unfold countWords.
  apply (countWords_agrees words [] []). intro x. reflexivity.
Qed.

Lemma countWords_NoDup (words : list str) :
  NoDup (map fst (countWords words)).
Proof.
  unfold countWords. apply countWords_keys. constructor.
Qed.


(** X17.  The signal [repetitive] of a sentence is raised exactly when
    some word other than [constructor] occurs three times or more among
    the words of the trimmed sentence. *)
Theorem X17_repetitive_signal (s : str) :
  Client.repetitive (Client.analyzeSentenceSignals s) = true
  <-> exists w,
        w <> lit "constructor"
        /\ 3 <= occurrences w (Client.normalizeToWords (trim s)).
Proof.
  unfold Client.analyzeSentenceSignals. cbn [Client.repetitive].
  set (words := Client.normalizeToWords (trim s)).
  rewrite existsb_exists. split.
  - intros [[k v] [H G]]. cbn [snd] in G.
    apply (In_getOwn _ _ _ (countWords_NoDup words)) in H.
    rewrite countWords_spec in H. unfold entryOf in H.
    destruct (occurrences k words) as [|n] eqn:E; [discriminate H|].
    unfold inherited in H.
    destruct (str_eqb k (lit "constructor")) eqn:C.
    + injection H as <-. discriminate G.
    + injection H as <-. cbn [entryGe] in G. apply Nat.leb_le in G.
      exists k. split; [|rewrite E; exact G].
      intro K. apply str_eqb_eq in K. congruence.
  - intros [w [N L]].
    pose proof (countWords_spec words w) as S'. unfold entryOf in S'.
    destruct (occurrences w words) as [|n] eqn:E; [lia|].
    unfold inherited in S'.
    destruct (str_eqb w (lit "constructor")) eqn:C;
      [apply str_eqb_eq in C; contradiction|].
    apply getOwn_In in S'.
    exists (w, Count (S n)). split; [exact S'|].
    cbn [snd entryGe]. apply Nat.leb_le. exact L.
Qed.

Lemma bump_counted (freq : freqObject) (x : str) :
  counted (bump freq x) <= counted freq + 1.
Proof.
  assert (C : forall k v r, counted ((k, v) :: r) = weight v + counted r)
    by reflexivity.
  induction freq as [|[k v0] r IH].
  - unfold bump. cbn [getOwn setOwn].
    rewrite C. destruct (inherited x); cbn [weight]; lia.
  - assert (E : bump ((k, v0) :: r) x
                = if str_eqb k x
                  then (k, match v0 with
                           | Count n => Count (n + 1)
                           | Text => Text
                           end) :: r
                  else (k, v0) :: bump r x).
    { unfold bump. cbn [getOwn setOwn]. destruct (str_eqb k x); reflexivity. }
    rewrite E. destruct (str_eqb k x); rewrite !C.
    + destruct v0; cbn [weight]; lia.
    + lia.
Qed.

Lemma countWords_counted (words : list str) :
  forall freq,
    counted (fold_left bump words freq) <= counted freq + length words.
Proof.
  induction words as [|x words IH]; intro freq; simpl; [lia|].
  pose proof (IH (bump freq x)). pose proof (bump_counted freq x). lia.
Qed.

Lemma frequent_counted (n : nat) (freq : freqObject) :
  S n * length (filter (fun kv => entryGt n (snd kv)) freq) <= counted freq.
Proof.
  assert (C : forall k v r, counted ((k, v) :: r) = weight v + counted r)
    by reflexivity.
  induction freq as [|[k v] r IH]; [simpl; lia|].
  rewrite C. cbn [filter snd]. destruct v as [c|]; cbn [entryGt weight].
  - destruct (n <? c) eqn:E.
    + apply Nat.ltb_lt in E. cbn [length]. nia.
    + lia.
  - lia.
Qed.

(** X18.  The words that the server counts as repeated, those with more
    than four occurrences, number at most a fifth of the words: with
    fewer than five words there is none. *)
Theorem X18_repeated_at_most_a_fifth (words : list str) :
  5 * Server.repeated words <= length words.
Proof.
  unfold Server.repeated.
  pose proof (frequent_counted 4 (countWords words)) as F.
  pose proof (countWords_counted words []) as C.
  unfold countWords. unfold countWords in F.
  change (counted []) with 0 in C. lia.
Qed.

(** ** Texts without any word *)

Lemma lower_char_facts (c : ascii) :
  isSpace (toLowerChar c) = isSpace c
  /\ oneOf Server.punctuation (toLowerChar c) = oneOf Server.punctuation c
  /\ oneOf Client.punctuation (toLowerChar c) = oneOf Client.punctuation c.
Proof.
  each_char c; vm_compute; repeat split.
Qed.

Lemma tokens_nil (s : str) :
  forall cur, tokens cur s = [] <-> cur = [] /\ blank s.
Proof.
  induction s as [|c s IH]; intro cur; cbn [tokens].
  - destruct cur; simpl; split.
    + intros _. split; [reflexivity | constructor].
    + reflexivity.
    + discriminate.
    + intros [E _]. discriminate E.
  - destruct (isSpace c) eqn:E.
    + split.
      * intro H. apply app_eq_nil in H. destruct H as [H1 H2].
        apply (proj1 (IH [])) in H2. destruct H2 as [_ B].
        split; [destruct cur; [reflexivity | discriminate H1]|].
        constructor; assumption.
      * intros [-> B]. inversion B; subst. simpl.
        apply (proj2 (IH [])). split; [reflexivity | assumption].
    + split.
      * intro H. apply (proj1 (IH _)) in H. destruct H as [H _].
        destruct cur; discriminate H.
      * intros [_ B]. inversion B; subst. congruence.
Qed.

Lemma wordsWith_nil (punctuation text : str) :
  (forall c, isSpace (toLowerChar c) = isSpace c
             /\ oneOf punctuation (toLowerChar c) = oneOf punctuation c) ->
  wordsWith punctuation text = [] <-> wordless punctuation text.
Proof.
  intro L. rewrite wordsWith_tokens.
  rewrite (tokens_nil _ []). unfold wordless, blank, toLowerCase.
  split.
  - intros [_ B]. rewrite Forall_forall in B. apply Forall_forall.
    intros c Hc. destruct (L c) as [L1 L2].
    destruct (oneOf punctuation c) eqn:P; [now right | left].
    rewrite <- L1. apply B. apply filter_In. split.
    + apply in_map. exact Hc.
    + cbv beta. rewrite L2. reflexivity.
  - intro W. split; [reflexivity|].
    rewrite Forall_forall in W. apply Forall_forall.
    intros c Hc. apply filter_In in Hc. destruct Hc as [Hc Hp].
    apply in_map_iff in Hc. destruct Hc as [c0 [<- Hin]].
    destruct (L c0) as [L1 L2]. rewrite L1.
    destruct (W c0 Hin) as [S | P]; [exact S|].
    cbv beta in Hp. rewrite L2, P in Hp. discriminate Hp.
Qed.

Lemma server_wordless (text : str) :
  Server.normalizeToWords text = [] <-> wordless Server.punctuation text.
Proof.
  rewrite server_words_eq. apply wordsWith_nil.
  intro c. destruct (lower_char_facts c) as [A [B _]]. split; assumption.
Qed.

Lemma client_wordless (text : str) :
  Client.normalizeToWords text = [] <-> wordless Client.punctuation text.
Proof.
  rewrite client_words_eq. apply wordsWith_nil.
  intro c. destruct (lower_char_facts c) as [A [_ B]]. split; assumption.
Qed.

(** X19.  [normalizeToWords] returns no word exactly for the texts made
    of white space and of the punctuation that it strips, on the server
    and on the client. *)
Theorem X19_no_word_iff_wordless (text : str) :
  (Server.normalizeToWords text = [] <-> wordless Server.punctuation text)
  /\ (Client.normalizeToWords text = [] <-> wordless Client.punctuation text).
Proof.
  split; [apply server_wordless | apply client_wordless].
Qed.

Lemma span_chars (P : ascii -> Prop) (text : str) (s : Server.Sentence) :
  Forall P text -> span_ok text s -> Forall P (Server.s_text s).
Proof.
  intros H [_ [_ [E _]]]. rewrite E. apply trim_Forall. unfold slice.
  apply firstn_Forall.
  rewrite <- (firstn_skipn (Server.s_start s) text) in H.
  apply Forall_app in H. tauto.
Qed.

(** X20.  For a text made of white space and punctuation only, the
    server answers with no word, likelihood 0, and the score 0 and the
    label [Human-written] for every sentence. *)
Theorem X20_wordless_text_scores_zero
    (Math_sqrt : Q -> Q) (referenceText text : str)
    (no_word : wordless Server.punctuation text) :
  exists r,
    Server.analyze Math_sqrt referenceText text = Some r
    /\ Server.wordCount r = 0
    /\ Server.aiLikelihood r = 0%Z
    /\ Server.aiLabel r = lit "Human-written"
    /\ Forall
         (fun h =>
            Server.h_score h = 0%Z /\ Server.h_label h = lit "Human-written")
         (Server.highlights r).
Proof.
  unfold Server.analyze, Server.analyzeSentences. cbv zeta.
  destruct (split_result text) as [ss [E [F _]]]. rewrite E.
  rewrite (proj2 (server_wordless text) no_word).
  eexists. split; [reflexivity|].
  cbn [Server.wordCount Server.aiLikelihood Server.aiLabel Server.highlights
       Server.computeAiLikelihood length].
  split; [reflexivity|]. split; [reflexivity|]. split; [reflexivity|].
  apply Forall_map. rewrite Forall_forall in F. apply Forall_forall.
  intros s Hs. cbn [Server.h_score Server.h_label].
  assert (W : Server.normalizeToWords (Server.s_text s) = []).
  { apply server_wordless. apply (span_chars _ text); [exact no_word|].
    apply F. exact Hs. }
  rewrite W. split; reflexivity.
Qed.

Lemma X20_wordless_witness :
  let text := lit "?! ... -- (*)" in
  wordless Server.punctuation text
  /\ exists r,
       Server.analyze (fun x => x) (lit "the cat") text = Some r
       /\ Server.wordCount r = 0
       /\ Server.aiLikelihood r = 0%Z
       /\ Server.aiLabel r = lit "Human-written"
       /\ Forall
            (fun h =>
               Server.h_score h = 0%Z
               /\ Server.h_label h = lit "Human-written")
            (Server.highlights r).
Proof.
  intro text.
  assert (W : wordless Server.punctuation text).
  { unfold wordless, text. cbv [lit list_ascii_of_string].
    repeat (apply Forall_cons;
            [first [left; reflexivity | right; reflexivity]|]).
    apply Forall_nil. }
  split; [exact W|].
  exact (X20_wordless_text_scores_zero (fun x => x) (lit "the cat") text W).
Defined.

(** ** Escaping *)

Lemma replaceWith_class (p : ascii -> bool) (f : str -> str) (s : str) :
  replaceWith (Cls p) f s
  = flat_map (fun c => if p c then f [c] else [c]) s.
Proof.
  unfold replaceWith. generalize (@None ascii).
  induction s as [|c s IH]; intro prev; [reflexivity|].
  cbn [replaceScan flat_map]. rewrite matchAt_class.
  destruct (p c); cbn [length]; rewrite IH; reflexivity.
Qed.

Lemma escapeHtml_chars (s : str) :
  Client.escapeHtml s = flat_map escapeChar s.
Proof.
  unfold Client.escapeHtml. apply replaceWith_class.
Qed.

Lemma escapeChar_facts (c : ascii) :
  Forall (fun x => markup x = false) (escapeChar c)
  /\ forall r, unescape (escapeChar c ++ r) = c :: unescape r.
Proof.
  each_char c;
    (split; [vm_compute; repeat constructor | intro r; reflexivity]).
Qed.

(** X21.  The text that [escapeHtml] returns holds no angle bracket and
    no quote, and the text given can be read back from it: the escaping
    loses nothing. *)
Theorem X21_escapeHtml_is_safe_and_lossless (s : str) :
  Forall (fun c => markup c = false) (Client.escapeHtml s)
  /\ unescape (Client.escapeHtml s) = s.
Proof.
  rewrite escapeHtml_chars. induction s as [|c s [IH1 IH2]].
  - split; [constructor | reflexivity].
  - cbn [flat_map]. destruct (escapeChar_facts c) as [F U]. split.
    + apply Forall_app. split; assumption.
    + rewrite U, IH2. reflexivity.
Qed.

(** ** The score of a sentence on the client *)

(** X22.  The score that the client gives to a sentence is an integer
    between 0 and 100; it depends neither on the white space around the
    sentence nor on the words of the document, its second argument. *)
Theorem X22_sentence_score (sentence : str) (docWords docWords' : list str) :
  (0 <= Client.computeSentenceAiScore sentence docWords <= 100)%Z
  /\ Client.computeSentenceAiScore (trim sentence) docWords'
     = Client.computeSentenceAiScore sentence docWords.
Proof.
  split.
  - unfold Client.computeSentenceAiScore. cbv zeta.
    destruct (Client.normalizeToWords (trim sentence)); [lia|].
    apply round_percent. unfold Client.clamp01. apply clamp_range.
    discriminate.
  - unfold Client.computeSentenceAiScore.
    rewrite trim_idempotent. reflexivity.
Qed.

(** ** The sentences with their delimiters *)

Lemma iterate_bounded (step : matcher) (k : cont) :
  (forall k', bounded k' -> bounded (fun p s => step p s k')) ->
  bounded k -> forall n, bounded (iterate step k n).
Proof.
  intros Hstep Bk. induction n as [|n IH]; intros p s rest H.
  - exact (Bk p s rest H).
  - cbn [iterate] in H.
    destruct (step p s
                (fun p' s' =>
                   if length s' <? length s then iterate step k n p' s'
                   else None)) as [x|] eqn:E.
    + injection H as <-.
      refine (Hstep _ _ p s x E). intros p' s' rest' H'.
      destruct (length s' <? length s); [|discriminate H'].
      exact (IH p' s' rest' H').
    + exact (Bk p s rest H).
Qed.

(** What a match leaves is a part of the input. *)
Lemma run_bounded (r : re) :
  forall k, bounded k -> bounded (fun p s => run r p s k).
Proof.
  induction r as [|q|a IHa b IHb|a IHa b IHb|a IHa| | |q];
    intros k Bk p s rest H; cbn [run] in H.
  - exact (Bk p s rest H).
  - destruct s as [|c s']; [discriminate H|].
    destruct (q c); [|discriminate H].
    apply Bk in H. cbn [length]. lia.
  - exact (IHa _ (IHb k Bk) p s rest H).
  - destruct (run a p s k) as [x|] eqn:E.
    + injection H as <-. exact (IHa k Bk p s x E).
    + exact (IHb k Bk p s rest H).
  - exact (iterate_bounded (run a) k IHa Bk (length s) p s rest H).
  - destruct p; [discriminate H | exact (Bk _ s rest H)].
  - destruct (xorb (wordAt p) (wordAt (hd_error s)));
      [exact (Bk p s rest H) | discriminate H].
  - destruct p as [c|]; [|discriminate H].
    destruct (q c); [exact (Bk _ s rest H) | discriminate H].
Qed.

Lemma done_bounded : bounded done.
Proof.
  intros p s rest H. injection H as <-. lia.
Qed.

Lemma iterate_total (step : matcher) (k : cont) :
  (forall p s, k p s <> None) ->
  forall n p s, iterate step k n p s <> None.
Proof.
  intros Hk n p s. destruct n as [|n]; cbn [iterate]; [apply Hk|].
  destruct (step p s _); [discriminate | apply Hk].
Qed.

Lemma matchAt_delimited (prev : option ascii) (c : ascii) (s : str) :
  (Client.isTerminator c = true ->
   matchAt Client.delimitedRegex prev (c :: s) = None)
  /\ (Client.isTerminator c = false ->
      exists n,
        1 <= n <= S (length s)
        /\ matchAt Client.delimitedRegex prev (c :: s)
           = Some (firstn n (c :: s))).
Proof.
  set (tail_ := Seq (Star (Cls Client.isTerminator)) (Star (Cls isSpace))).
  set (K := (fun p' s' => run tail_ p' s' done) : cont).
  assert (E : run Client.delimitedRegex prev (c :: s) done
              = if negb (Client.isTerminator c)
                then run (Star (Cls (fun x => negb (Client.isTerminator x))))
                       (Some c) s K
                else None) by reflexivity.
  unfold matchAt. rewrite E. split; intro T; rewrite T; cbn [negb].
  - reflexivity.
  - destruct (run (Star (Cls (fun x => negb (Client.isTerminator x))))
                (Some c) s K) as [rest|] eqn:R.
    + assert (L : length rest <= length s).
      { refine (run_bounded _ K _ (Some c) s rest R).
        unfold K. apply run_bounded. exact done_bounded. }
      exists (length (c :: s) - length rest). cbn [length].
      split; [lia | reflexivity].
    + exfalso. revert R. cbn [run]. apply iterate_total.
      intros p' s'. unfold K, tail_. cbn [run]. apply iterate_total.
      intros p2 s2. apply iterate_total. intros p3 s3. discriminate.
Qed.

Lemma dropsMarks_refl (s : str) : dropsMarks s s.
Proof.
  induction s; constructor; assumption.
Qed.

Lemma dropsMarks_app (m a b : str) :
  dropsMarks a b -> dropsMarks (m ++ a) (m ++ b).
Proof.
  intro H. induction m; [exact H | constructor; assumption].
Qed.

Lemma dropsMarks_facts (a b : str) :
  dropsMarks a b ->
  length a <= length b
  /\ filter (fun c => negb (Client.isTerminator c)) a
     = filter (fun c => negb (Client.isTerminator c)) b.
Proof.
  induction 1 as [|c a b _ [L F]|c a b T _ [L F]]; cbn [length filter].
  - split; [lia | reflexivity].
  - split; [lia|]. rewrite F. reflexivity.
  - split; [lia|]. rewrite T. exact F.
Qed.

Lemma scan_delimited (s : str) :
  forall prev skip,
    skip <= length s ->
    dropsMarks (concat (scan Client.delimitedRegex prev s skip))
      (skipn skip s)
    /\ Forall
         (fun m => exists c r, m = c :: r /\ Client.isTerminator c = false)
         (scan Client.delimitedRegex prev s skip).
Proof.
  induction s as [|c s IH]; intros prev skip Hs.
  - destruct skip; [|simpl in Hs; lia].
    split; [constructor | constructor].
  - destruct skip as [|n].
    + cbn [scan skipn].
      destruct (matchAt_delimited prev c s) as [M0 M1].
      destruct (Client.isTerminator c) eqn:T.
      * rewrite (M0 eq_refl).
        destruct (IH (Some c) 0 (Nat.le_0_l _)) as [D F].
        split; [|exact F]. constructor; assumption.
      * destruct (M1 eq_refl) as [n [Hn ->]].
        destruct n as [|n]; [lia|]. cbn [firstn].
        assert (Ln : length (c :: firstn n s) = S n).
        { cbn [length]. rewrite length_firstn. lia. }
        rewrite Ln. cbn [pred concat].
        destruct (IH (Some c) n ltac:(lia)) as [D F]. split.
        -- pose proof (dropsMarks_app (c :: firstn n s) _ _ D) as G.
           replace ((c :: firstn n s) ++ skipn n s) with (c :: s) in G
             by (cbn [app]; now rewrite firstn_skipn).
           exact G.
        -- constructor; [|exact F]. exists c, (firstn n s).
           split; [reflexivity | exact T].
    + cbn [scan skipn]. apply IH. simpl in Hs. lia.
Qed.

(** X23.  When a text holds a character that is no end mark, the
    sentences with delimiters are cut out of the text itself: put side
    by side they give the text again but for some end marks that are
    dropped, and each begins with a character that is no end mark. *)
Theorem X23_delimited_sentences (text : str) (docSentences : list str)
    (some_text : exists c, In c text /\ Client.isTerminator c = false) :
  let sentences := Client.delimitedSentences text docSentences in
  sentences = matchAll Client.delimitedRegex text
  /\ sentences <> []
  /\ dropsMarks (concat sentences) text
  /\ Forall
       (fun m => exists c r, m = c :: r /\ Client.isTerminator c = false)
       sentences.
Proof.
  destruct (scan_delimited text None 0 (Nat.le_0_l _)) as [D F].
  cbn [skipn] in D. fold (matchAll Client.delimitedRegex text) in D, F.
  assert (N : matchAll Client.delimitedRegex text <> []).
  { intro E. rewrite E in D. cbn [concat] in D.
    destruct (dropsMarks_facts _ _ D) as [_ Q]. cbn [filter] in Q.
    destruct some_text as [c [Hc T]].
    assert (I : In c (filter (fun c => negb (Client.isTerminator c)) text)).
    { apply filter_In. split; [exact Hc | now rewrite T]. }
    rewrite <- Q in I. exact I. }
  assert (E : Client.delimitedSentences text docSentences
              = matchAll Client.delimitedRegex text).
  { unfold Client.delimitedSentences, matchG.
    destruct some_text as [c [Hc _]].
    destruct text as [|x text']; [contradiction|].
    destruct (matchAll Client.delimitedRegex (x :: text'));
      [contradiction | reflexivity]. }
  cbv zeta. rewrite E. split; [reflexivity|].
  split; [exact N|]. split; assumption.
Qed.

Lemma X23_delimited_witness :
  let text := lit "a. .b" in
  (exists c, In c text /\ Client.isTerminator c = false)
  /\ Client.delimitedSentences text [] = [lit "a. "; lit "b"]
  /\ dropsMarks (concat (Client.delimitedSentences text [])) text.
Proof.
  intro text.
  assert (H : exists c, In c text /\ Client.isTerminator c = false).
  { exists "a"%char. split; [left; reflexivity | reflexivity]. }
  split; [exact H|]. split; [reflexivity|].
  exact (proj1 (proj2 (proj2 (X23_delimited_sentences text [] H)))).
Defined.
